(* ===== verification/_CoqProject ===== *)
-Q . S2P
Prelude.v
JsLib.v
JsDate.v
ArchiveName.v
Effects.v
Logger.v
Tasks.v
Sync.v
Pipeline.v
EventLoop.v
