(* ===== verification/Prelude.v ===== *)
(** * A verification development for node-mongodb-s3-backup

    The program ([src/index.js]) backs up MongoDB or MySQL databases to
    S3.  [syncMongo(config, s3Config, callback)] and [syncMySQL(...)]
    start one job per name of [config.dbs] (default [['all']]).  A job
    reads the clock for its archive name ([getArchiveName]), registers a
    cleanup listener on the module's domain [d], and runs with
    [async.series]: remove stale files ([removeRF] twice), dump
    ([mongoDump] spawns [mongodump]; [mysqlDump] runs a [mysqldump] shell
    command), compress ([compressDirectory] spawns [tar]), upload
    ([sendToS3], bound to [d], through [knox]).  It then logs the outcome
    ([log]), removes the temporary files again and calls [callback(err)].
    The jobs of a call run concurrently on Node's event loop and share the
    caller's [s3Config] object and the domain.

    Files (library root [S2P], in dependency order):
    - [Prelude]: the [backup_scope] notations, the [backup] and
      [backup_rw] hint databases, shared tactics, string lemmas, and
      invariants of a transition relation ([rtc_invariant]).
    - [JsLib]: the JavaScript and Node functions the code calls:
      [split]/[join], [indexOf], number printing and parsing, the
      [replace(/(\n|\r|\r\n)$/, '')] of [log] ([strip_eol]), and
      [path.join]/[path.normalize].
    - [JsDate]: [Date]'s [getTime], [getFullYear], [getMonth], [getDate]
      through the civil calendar of the local day, with its range and
      its inverse [days_from_civil].
    - [ArchiveName]: [datestring] and [getArchiveName] (lines 44-57),
      and [parse_archive_name], which reads a name back.
    - [Effects]: the world (files as a [gset], clock, the shared
      [s3Config]); the actions the code performs ([fs.exists], [exec],
      [spawn], [putFile], [callback], [d.on('error')], ...); programs as a
      free monad [prog] with [run]; the shell of [exec] ([;], words,
      [>], [rm -rf]); the oracle [env] for the tools and S3; and a
      concrete [demo_env] for the examples.
    - [Logger]: [log] (lines 18-35) with [cli-color]'s escapes.
    - [Tasks]: [removeRF], [mongoDump], [mysqlDump], [compressDirectory],
      [sendToS3] (lines 66-282), one definition per function, each a
      program returning the value passed to its callback.
    - [Sync]: [async.series], the per-database job of [syncMongo] and
      [syncMySQL] (lines 294-406), the [DumpAdapter] class with its two
      instances, the generic [backup_job] and [launch].
    - [Pipeline]: the theorems about one job, proved against the
      [DumpAdapter] interface, and about a call's jobs taking turns.
    - [EventLoop]: the jobs of a call interleaved and the domain [d]: a
      step relation on configurations, its executable step function, and
      the theorems over every execution of a call's jobs.

    What the theorems show:
    - one job ([Pipeline]): a failing dump stops the stages after it; an
      upload S3 rejects ends in the callback with the bad status; the
      callback is called exactly once and last, with the first error;
      the post-cleanup removes the dump folder and the archive and
      nothing else, but stops at its first failing removal;
    - the stages ([Tasks], [Logger], [ArchiveName]): the exact
      [mongodump] arguments (the database is passed after [-o], so a
      [mongodump] that behaves as documented dumps every database of the
      server), what [compressDirectory] and [mysqlDump] return for every
      exit code, the upload's destination and headers, and the root [/]
      for every upload after the first with the same [s3Config];
      [removeRF]'s effect on the disk, the password in [mysqlDump]'s
      logged command, [log]'s terminator removal, archive names that
      parse back and never collide, and date fields in range that name
      the local day;
    - the [syncMySQL] guard ([Sync], [Pipeline]): it skips exactly the
      names with [;]; a name [x > f] passes it and makes the shell create
      the file [f]; the name [..] passes it and makes the cleanup remove
      the OS temporary folder; a cleanup stays inside the temporary
      folder for plain names;
    - a call ([Pipeline], [EventLoop]): the callback is called once per
      database, not once per call; in every interleaving no job calls
      back twice, and in every complete execution that does not crash
      every accepted job calls back; in every execution, one job's upload
      fault can run another job's cleanup while that job is still
      running, and then ends the process.

    Lemmas that support these without being claims of their own: the
    step function is the step relation; [s3Config] loses its destination
    at the first upload in every interleaving; every execution of the
    loop is finite; the turn-taking schedule is one of the loop's
    executions; [syncMongo]/[syncMySQL] are the generic orchestrator at
    the two adapters.

    Bounds and fuel: [run] recurses structurally on the program (a
    continuation applied to a reply is a subterm), so every run
    terminates and no fuel is needed; [run_sched] follows a finite
    schedule.  Integers are [Z] (JavaScript numbers in the ranges the
    code uses: dates and exit codes).  The calendar lemmas hold for every
    day number.

    Not modelled: the internals of [mongodump], [mysqldump], [tar], the
    shell beyond [;], words, [>] and [rm -rf], and S3 (the oracle [env]);
    [util.log]'s timestamp and the terminal's rendering of colours;
    [module.exports]; the object's inherited keys in [log]'s [tags]
    lookup.  The event loop switches threads at every action, more
    often than Node does; the theorems over all interleavings hold a
    fortiori.  A call starts with no listener on [d]: the listeners that
    earlier calls left on the module-wide domain are not modelled (they
    only add cleanups to an upload fault). *)

From stdpp Require Export base list strings gmap.
From Stdlib Require Export ZArith Ascii Lia.
From Stdlib Require String.

Declare Scope backup_scope.
Delimit Scope backup_scope with backup.
Open Scope stdpp_scope.

Create HintDb backup.
Create Rewrite HintDb backup_rw.

(** ** Tactics shared by the development *)

(** Invert a hypothesis and clean up. *)
Ltac invc H := inversion H; subst; clear H.

(** Split a [Forall] over an explicit list into one goal per element. *)
Ltac forall_cons :=
  repeat match goal with
         | |- Forall _ (_ :: _) => constructor
         | |- Forall _ [] => constructor
         end.

(** Split every [if]/[match] of the goal on its scrutinee. *)
Ltac split_matches := repeat (case_match; simplify_eq/=).

(** ** Strings: [+:+] is [String.append]; stdpp declares it [simpl never],
    so the development rewrites with the equations below. *)

Lemma str_app_nil_l (s : string) : "" +:+ s = s.
Proof. reflexivity. Qed.

Lemma str_app_cons (c : ascii) (s1 s2 : string) :
  String c s1 +:+ s2 = String c (s1 +:+ s2).
Proof. reflexivity. Qed.

Lemma str_app_nil_r (s : string) : s +:+ "" = s.
Proof. induction s as [|c s IH]; [done|]. rewrite str_app_cons, IH. done. Qed.

Lemma str_app_assoc (s1 s2 s3 : string) :
  s1 +:+ (s2 +:+ s3) = (s1 +:+ s2) +:+ s3.
Proof.
  induction s1 as [|c s1 IH]; [done|]. rewrite !str_app_cons, IH. done.
Qed.

Lemma str_prefix_app (s u : string) : String.prefix s (s +:+ u) = true.
Proof.
  induction s as [|c s IH]; [by destruct u|]. rewrite str_app_cons. cbn.
  destruct (Ascii.ascii_dec c c); [exact IH|done].
Qed.

Lemma str_length_app (s1 s2 : string) :
  String.length (s1 +:+ s2) = String.length s1 + String.length s2.
Proof. induction s1 as [|c s1 IH]; [done|]. rewrite str_app_cons. simpl. lia. Qed.

#[export] Hint Rewrite str_app_nil_l str_app_cons str_app_nil_r : backup_rw.

(** [str_mem c s]: the character [c] occurs in [s]. *)
Fixpoint str_mem (c : ascii) (s : string) : bool :=
  match s with
  | EmptyString => false
  | String d s' => if decide (d = c) then true else str_mem c s'
  end.

Lemma str_mem_app (c : ascii) (s1 s2 : string) :
  str_mem c (s1 +:+ s2) = str_mem c s1 || str_mem c s2.
Proof.
  induction s1 as [|d s1 IH]; [done|]. rewrite str_app_cons. simpl.
  case_decide; [done|]. exact IH.
Qed.

#[export] Hint Rewrite str_mem_app : backup_rw.

(** A string ending: [s] ends with [t] when [s = u +:+ t]. *)
Definition str_ends_with (t s : string) : Prop := ∃ u, s = u +:+ t.

(** ** Invariants of a transition relation *)

(** A property that holds initially and that every step preserves holds
    of every reachable state. *)
Lemma rtc_invariant {A} (R : relation A) (I : A → Prop) (x y : A) :
  I x → (∀ a b, I a → R a b → I b) → rtc R x y → I y.
Proof. intros Hx Hs Hr. induction Hr; eauto. Qed.

Lemma rtc_eq_r {A} (R : relation A) (x y z : A) : rtc R x y → y = z → rtc R x z.
Proof. by intros ? <-. Qed.
