(* ===== verification/JsLib.v ===== *)
(** * JsLib: the JavaScript and Node.js library functions [src/index.js] calls

    These are not code of the repository; they are modelled from the
    ECMAScript and Node.js documentation so that the repository's
    functions can be translated line by line:
    - [js_split] / [js_join]: [String.prototype.split] with a one-character
      separator and [Array.prototype.join];
    - [js_indexOf_char]: [String.prototype.indexOf] with a one-character
      argument;
    - [js_num_str] / [js_parse_int]: [Number.prototype.toString] on
      integral numbers, and its inverse;
    - [strip_eol]: [s.replace(/(\n|\r|\r\n)$/, '')];
    - [path_join] / [path_normalize]: Node's [path.posix.join];
    - [civil_from_days] and the [Date] getters: [getFullYear],
      [getMonth], [getDate], [getTime]. *)

From S2P Require Import Prelude.
From Stdlib Require Import DecimalString DecimalZ.


(** ** [split] and [join] on a one-character separator *)

(** ["a_b".split("_")] is [["a"; "b"]]; the result is never empty. *)
Fixpoint js_split (c : ascii) (s : string) : list string :=
  match s with
  | EmptyString => [""]
  | String d s' =>
      if decide (d = c) then "" :: js_split c s'
      else match js_split c s' with
           | [] => [String d ""]
           | r :: rs => String d r :: rs
           end
  end.

(** [[a; b; c].join(sep)] is [a + sep + b + sep + c]. *)
Fixpoint js_join (sep : string) (l : list string) : string :=
  match l with
  | [] => ""
  | [x] => x
  | x :: l' => x +:+ sep +:+ js_join sep l'
  end.

Lemma js_join_cons2 (sep x y : string) (l : list string) :
  js_join sep (x :: y :: l) = x +:+ sep +:+ js_join sep (y :: l).
Proof. reflexivity. Qed.

Lemma js_split_nonempty (c : ascii) (s : string) : js_split c s ≠ [].
Proof. induction s as [|d s IH]; simpl; [done|]. case_decide; [done|]. by destruct (js_split c s). Qed.

Lemma js_split_app (c : ascii) (a b : string) :
  js_split c (a +:+ String c b) = js_split c a ++ js_split c b.
Proof.
  induction a as [|d a IH]; simpl; [by case_decide|].
  rewrite IH. case_decide; [done|].
  pose proof (js_split_nonempty c a). by destruct (js_split c a).
Qed.

Lemma js_split_no_sep (c : ascii) (s : string) :
  str_mem c s = false → js_split c s = [s].
Proof.
  induction s as [|d s IH]; simpl; [done|]. case_decide; [done|].
  intros Hm. by rewrite IH.
Qed.

(** Joining with [c] and splitting at [c] is the identity on lists of
    strings free of [c]. *)
Lemma js_split_join (c : ascii) (l : list string) :
  l ≠ [] → Forall (λ x, str_mem c x = false) l →
  js_split c (js_join (String c "") l) = l.
Proof.
  induction l as [|x l IH]; [done|]. intros _ Hl. inversion Hl as [|? ? Hx Hl']; subst.
  destruct l as [|y l].
  - by apply js_split_no_sep.
  - rewrite js_join_cons2, str_app_cons, str_app_nil_l, js_split_app, js_split_no_sep by done.
    rewrite IH by done. done.
Qed.

Lemma js_join_split (c : ascii) (s : string) :
  js_join (String c "") (js_split c s) = s.
Proof.
  induction s as [|d s IH]; simpl; [done|]. case_decide; subst.
  - destruct (js_split c s) as [|r rs] eqn:E; [by destruct (js_split_nonempty c s)|].
    simpl. rewrite <- IH. destruct rs; reflexivity.
  - destruct (js_split c s) as [|r [|r' rs]] eqn:E; simpl in *;
      [by destruct (js_split_nonempty c s)|by subst|].
    rewrite <- IH. reflexivity.
Qed.

(** ** [indexOf] with a one-character argument *)

Fixpoint js_indexOf_char (c : ascii) (s : string) : Z :=
  match s with
  | EmptyString => (-1)%Z
  | String d s' =>
      if decide (d = c) then 0
      else let i := js_indexOf_char c s' in
           if (i <? 0)%Z then (-1)%Z else Z.succ i
  end.

Lemma js_indexOf_ge (c : ascii) (s : string) : (js_indexOf_char c s >= -1)%Z.
Proof.
  induction s as [|d s IH]; simpl; [lia|]. case_decide; [lia|].
  destruct (Z.ltb_spec (js_indexOf_char c s) 0); lia.
Qed.

Lemma js_indexOf_char_found (c : ascii) (s : string) :
  (js_indexOf_char c s > -1)%Z ↔ str_mem c s = true.
Proof.
  induction s as [|d s IH]; simpl; [lia|]. case_decide; [lia|].
  rewrite <- IH. pose proof (js_indexOf_ge c s).
  destruct (Z.ltb_spec (js_indexOf_char c s) 0); lia.
Qed.

(** ** Integral numbers as strings *)

(** [String(n)] for an integral [n] of magnitude below [10^21] (every
    value of [getTime()], [getFullYear()], [getMonth()] and [getDate()]
    is one): its decimal digits with a leading [-] when negative. *)
Definition js_num_str (z : Z) : string :=
  NilZero.string_of_int (Z.to_int z).

(** The inverse: [parseInt(s, 10)] restricted to strings of this shape. *)
Definition js_parse_int (s : string) : option Z :=
  Z.of_int <$> NilZero.int_of_string s.

Lemma str_mem_string_of_uint (c : ascii) (d : Decimal.uint) :
  Ascii.is_nat c = None → str_mem c (NilEmpty.string_of_uint d) = false.
Proof.
  intros Hn. induction d; simpl; try done; case_decide; subst; by simpl in Hn.
Qed.

(** A printed number contains no character other than digits and [-]. *)
Lemma js_num_str_no_char (c : ascii) (z : Z) :
  c ≠ "-"%char → Ascii.is_nat c = None → str_mem c (js_num_str z) = false.
Proof.
  intros Hc Hn. unfold js_num_str, NilZero.string_of_int, NilZero.string_of_uint.
  destruct (Z.to_int z) as [d|d]; simpl; [|case_decide; [congruence|]];
    destruct d; simpl; try (case_decide; subst; [by simpl in Hn|]);
    first [done | by apply (str_mem_string_of_uint c)].
Qed.

Lemma js_parse_num_str (z : Z) : js_parse_int (js_num_str z) = Some z.
Proof.
  unfold js_parse_int, js_num_str.
  rewrite NilZero.isi; [simpl; f_equal; apply DecimalZ.of_to|..].
  all: intros E; pose proof (f_equal Z.of_int E) as E'; rewrite DecimalZ.of_to in E';
    subst; discriminate E.
Qed.

Lemma js_num_str_inj (z1 z2 : Z) : js_num_str z1 = js_num_str z2 → z1 = z2.
Proof.
  intros E. apply (f_equal js_parse_int) in E. rewrite !js_parse_num_str in E. congruence.
Qed.

(** ** Suffixes *)

Lemma list_ascii_of_string_app (s1 s2 : string) :
  String.list_ascii_of_string (s1 +:+ s2) =
  String.list_ascii_of_string s1 ++ String.list_ascii_of_string s2.
Proof. induction s1 as [|c s1 IH]; [done|]. simpl. by rewrite IH. Qed.

(** [s] without its suffix [suf], when it has it. *)
Definition strip_suffix (suf s : string) : option string :=
  let l := String.list_ascii_of_string s in
  let n := length l - String.length suf in
  if decide (drop n l = String.list_ascii_of_string suf)
  then Some (String.string_of_list_ascii (take n l)) else None.

Lemma length_list_ascii_of_string (s : string) :
  length (String.list_ascii_of_string s) = String.length s.
Proof. induction s; simpl; auto. Qed.

Lemma strip_suffix_app (u suf : string) : strip_suffix suf (u +:+ suf) = Some u.
Proof.
  unfold strip_suffix. rewrite list_ascii_of_string_app, length_app,
    !length_list_ascii_of_string, Nat.add_sub.
  rewrite <- (length_list_ascii_of_string u), drop_app_length, take_app_length.
  rewrite decide_True by done. by rewrite String.string_of_list_ascii_of_string.
Qed.

(** ** [s.replace(/(\n|\r|\r\n)$/, '')]

    The regular expression has no [m] flag, so [$] matches only at the end
    of the string.  The leftmost match wins: when [s] ends in ["\r\n"] the
    match starts at the ["\r"] (third alternative) and both characters go;
    otherwise a final ["\n"] or ["\r"] alone goes. *)
Fixpoint strip_eol (s : string) : string :=
  match s with
  | EmptyString => EmptyString
  | String c EmptyString =>
      if decide (c = "010"%char ∨ c = "013"%char) then EmptyString else String c EmptyString
  | String c s' =>
      if decide (c = "013"%char ∧ s' = String "010"%char EmptyString) then EmptyString
      else String c (strip_eol s')
  end.

Definition LF : string := String "010"%char EmptyString.
Definition CR : string := String "013"%char EmptyString.

Lemma strip_eol_cons (c : ascii) (s : string) :
  s ≠ "" → ¬ (c = "013"%char ∧ s = LF) → strip_eol (String c s) = String c (strip_eol s).
Proof.
  intros Hs Hcr. destruct s as [|d s]; [done|].
  cbn [strip_eol]. by rewrite decide_False.
Qed.

Lemma str_app_neq_nil (u t : string) : t ≠ "" → u +:+ t ≠ "".
Proof. destruct u; [done|]. by rewrite str_app_cons. Qed.

Lemma str_app_eq_single (u t : string) (c : ascii) :
  t ≠ "" → u +:+ t = String c "" → u = "" ∧ t = String c "".
Proof.
  intros Ht E. destruct u as [|d u]; [done|]. rewrite str_app_cons in E.
  injection E as -> E. by destruct (str_app_neq_nil u t Ht).
Qed.

(** A final ["\r\n"] goes. *)
Lemma strip_eol_crlf (u : string) : strip_eol (u +:+ CR +:+ LF) = u.
Proof.
  induction u as [|c u IH]; [done|]. rewrite str_app_cons, strip_eol_cons, IH; [done| |].
  - by apply str_app_neq_nil.
  - intros [_ E]. apply str_app_eq_single in E as [_ E]; [|done]. discriminate E.
Qed.

(** A final ["\r"] goes. *)
Lemma strip_eol_cr (u : string) : strip_eol (u +:+ CR) = u.
Proof.
  induction u as [|c u IH]; [done|]. rewrite str_app_cons, strip_eol_cons, IH; [done| |].
  - by apply str_app_neq_nil.
  - intros [_ E]. apply str_app_eq_single in E as [_ E]; [|done]. discriminate E.
Qed.

(** A final ["\n"] not preceded by ["\r"] goes. *)
Lemma strip_eol_lf (u : string) : ¬ str_ends_with CR u → strip_eol (u +:+ LF) = u.
Proof.
  induction u as [|c u IH]; intros Hu; [done|]. rewrite str_app_cons, strip_eol_cons, IH; [done| | |].
  - intros [w ->]. apply Hu. exists (String c w). done.
  - by apply str_app_neq_nil.
  - intros [-> E]. apply str_app_eq_single in E as [-> _]; [|done]. apply Hu. by exists "".
Qed.

(** Without a final line terminator the string is unchanged. *)
Lemma strip_eol_none (s : string) :
  ¬ str_ends_with LF s → ¬ str_ends_with CR s → strip_eol s = s.
Proof.
  induction s as [|c s IH]; intros Hl Hr; [done|].
  destruct s as [|d s].
  - simpl. case_decide as Hc; [|done]. exfalso.
    destruct Hc as [-> | ->]; [apply Hl | apply Hr]; by exists "".
  - rewrite strip_eol_cons, IH; [done| | | |].
    + intros [w E]. apply Hl. exists (String c w). by rewrite E.
    + intros [w E]. apply Hr. exists (String c w). by rewrite E.
    + done.
    + intros [-> E]. apply Hl. exists CR. by rewrite E.
Qed.

(** ** Node's [path.posix.join] *)

(** [normalizeString(path, allowAboveRoot)] of Node's [path] module,
    segment by segment: [acc] is the reversed list of kept segments;
    empty and ["."] segments are dropped, [".."] removes the last kept
    segment (or is kept, above the root of a relative path). *)
Fixpoint normalize_segs (allow_above : bool) (acc segs : list string) : list string :=
  match segs with
  | [] => acc
  | seg :: segs' =>
      if decide (seg = "" ∨ seg = ".") then normalize_segs allow_above acc segs'
      else if decide (seg = "..") then
        match acc with
        | s :: acc' =>
            if decide (s = "..") then
              normalize_segs allow_above (if allow_above then ".." :: acc else acc) segs'
            else normalize_segs allow_above acc' segs'
        | [] => normalize_segs allow_above (if allow_above then [".."%string] else []) segs'
        end
      else normalize_segs allow_above (seg :: acc) segs'
  end.

Fixpoint str_last (s : string) : option ascii :=
  match s with
  | EmptyString => None
  | String c EmptyString => Some c
  | String _ s' => str_last s'
  end.

(** [path.posix.normalize(p)]. *)
Definition path_normalize (p : string) : string :=
  match p with
  | EmptyString => "."
  | String c _ =>
      let abs := bool_decide (c = "/"%char) in
      let trailing := bool_decide (str_last p = Some "/"%char) in
      let r := js_join "/" (rev (normalize_segs (negb abs) [] (js_split "/"%char p))) in
      match r with
      | EmptyString => if abs then "/" else if trailing then "./" else "."
      | _ =>
          let r' := if trailing then r +:+ "/" else r in
          if abs then "/" +:+ r' else r'
      end
  end.

(** [path.posix.join(...args)]: the non-empty arguments joined with ["/"],
    then normalized; ["."] when every argument is empty. *)
Definition path_join (args : list string) : string :=
  match filter (λ a, a ≠ "") args with
  | [] => "."
  | parts => path_normalize (js_join "/" parts)
  end.

(** A path segment that [path.join] keeps as it is. *)
Definition seg_ok (x : string) : Prop :=
  x ≠ "" ∧ x ≠ "." ∧ x ≠ ".." ∧ str_mem "/"%char x = false.

#[export] Instance seg_ok_dec (x : string) : Decision (seg_ok x).
Proof. unfold seg_ok. apply _. Defined.

(** The absolute path [/s1/s2/.../sn]. *)
Definition abs_path (segs : list string) : string := "/" +:+ js_join "/" segs.

Lemma js_join_app (sep : string) (l1 l2 : list string) :
  l1 ≠ [] → l2 ≠ [] → js_join sep (l1 ++ l2) = js_join sep l1 +:+ sep +:+ js_join sep l2.
Proof.
  intros H1 H2. induction l1 as [|x [|y l1] IH]; [done| |].
  - simpl. by destruct l2.
  - cbn [app]. rewrite !js_join_cons2, (app_comm_cons l1 l2 y), IH by done.
    by rewrite !str_app_assoc.
Qed.

Lemma normalize_segs_ok (b : bool) (acc segs : list string) :
  Forall seg_ok segs → normalize_segs b acc segs = rev segs ++ acc.
Proof.
  revert acc. induction segs as [|s segs IH]; intros acc Hs; [done|].
  inversion Hs as [|? ? (H1 & H2 & H3 & _) Hs']; subst. simpl.
  rewrite decide_False by tauto. rewrite decide_False by done.
  rewrite IH by done. by rewrite <- app_assoc.
Qed.

Lemma str_last_app (u x : string) : x ≠ "" → str_last (u +:+ x) = str_last x.
Proof.
  intros Hx. induction u as [|c u IH]; [done|]. rewrite str_app_cons. simpl.
  rewrite IH. destruct (u +:+ x) eqn:E; [|done]. by destruct (str_app_neq_nil u x Hx).
Qed.

Lemma str_last_mem (x : string) (c : ascii) : str_last x = Some c → str_mem c x = true.
Proof.
  induction x as [|d x IH]; [done|]. simpl. case_decide; [done|].
  destruct x; [congruence|]. exact IH.
Qed.

Lemma seg_ok_no_slash (segs : list string) :
  Forall seg_ok segs → Forall (λ x, str_mem "/"%char x = false) segs.
Proof. intros H. eapply Forall_impl; [exact H|]. by intros ? (_ & _ & _ & ?). Qed.

(** Normalizing a well-formed absolute path leaves it unchanged. *)
Lemma path_normalize_abs (segs : list string) :
  segs ≠ [] → Forall seg_ok segs → path_normalize (abs_path segs) = abs_path segs.
Proof.
  intros Hne Hok. unfold abs_path, path_normalize. rewrite str_app_cons, str_app_nil_l.
  cbn [js_split]. rewrite decide_True by done.
  rewrite js_split_join by auto using seg_ok_no_slash.
  cbn [normalize_segs]. rewrite decide_True by auto.
  rewrite normalize_segs_ok, app_nil_r, rev_involutive by done.
  rewrite bool_decide_true by done.
  destruct (exists_last Hne) as (segs' & x & ->).
  apply Forall_app in Hok as [_ Hx]. inversion Hx as [|? ? (Hx1 & _ & _ & Hx4) _]; subst.
  assert (str_last (String "/" (js_join "/" (segs' ++ [x]))) = str_last x) as Hlast.
  { destruct segs' as [|s segs'].
    - simpl. destruct x; [done|]. reflexivity.
    - rewrite js_join_app by done. change (String "/"%char ?r) with ("/" +:+ r).
      rewrite !str_app_assoc, str_last_app by done. done. }
  rewrite bool_decide_false.
  2:{ rewrite Hlast. intros E%str_last_mem. congruence. }
  destruct (js_join "/" (segs' ++ [x])) eqn:E; [|reflexivity].
  destruct segs' as [|s segs']; [simpl in E; congruence|].
  rewrite js_join_app in E by done. by apply str_app_neq_nil in E.
Qed.

(** Joining a well-formed absolute path with a plain segment appends it. *)
Lemma path_join_abs (segs : list string) (x : string) :
  segs ≠ [] → Forall seg_ok segs → seg_ok x →
  path_join [abs_path segs; x] = abs_path (segs ++ [x]).
Proof.
  intros Hne Hok Hx. unfold path_join.
  rewrite filter_cons_True, filter_cons_True, filter_nil by (unfold abs_path; by destruct Hx).
  assert (js_join "/" [abs_path segs; x] = abs_path (segs ++ [x])) as ->.
  { unfold abs_path. rewrite js_join_app by done. simpl. by rewrite !str_app_assoc. }
  apply path_normalize_abs; [by destruct segs|]. apply Forall_app. auto.
Qed.

Lemma str_mem_js_join (c : ascii) (sep : string) (l : list string) :
  str_mem c sep = false → Forall (λ x, str_mem c x = false) l → str_mem c (js_join sep l) = false.
Proof.
  intros Hs Hl. induction Hl as [|x l Hx Hl IH]; [done|].
  destruct l as [|y l]; [done|]. rewrite js_join_cons2, !str_mem_app, Hx, Hs, IH. done.
Qed.

(** [normalizeString] reads the segments left to right. *)
Lemma normalize_segs_app (b : bool) (acc l1 l2 : list string) :
  normalize_segs b acc (l1 ++ l2) = normalize_segs b (normalize_segs b acc l1) l2.
Proof.
  revert acc. induction l1 as [|s l1 IH]; intros acc; [done|]. cbn [app normalize_segs].
  repeat case_decide; try destruct acc as [|s' acc]; repeat case_decide; apply IH.
Qed.

Lemma js_join_nonempty (segs : list string) :
  Forall seg_ok segs → segs ≠ [] → js_join "/" segs ≠ "".
Proof.
  intros Hok Hne. destruct segs as [|s [|s' segs]]; [done| |].
  - inversion Hok as [|? ? (Hs & _) _]. done.
  - rewrite js_join_cons2. apply str_app_neq_nil. done.
Qed.

(** [path.join(p, '..')] for a well-formed absolute path [p] whose last
    segment is plain: the parent folder. *)
Lemma path_join_dotdot (segs : list string) (x : string) :
  segs ≠ [] → Forall seg_ok segs → seg_ok x →
  path_join [abs_path (segs ++ [x]); ".."] = abs_path segs.
Proof.
  intros Hne Hok Hx. unfold path_join.
  rewrite filter_cons_True, filter_cons_True, filter_nil by (unfold abs_path; done).
  assert (js_join "/" [abs_path (segs ++ [x]); ".."] = "/" +:+ js_join "/" (segs ++ [x; ".."])) as ->.
  { unfold abs_path. rewrite (js_join_app _ segs [x; ".."]), (js_join_app _ segs [x]) by done.
    cbn. by rewrite !str_app_assoc. }
  unfold path_normalize. rewrite str_app_cons, str_app_nil_l. cbn [js_split].
  rewrite decide_True by done.
  rewrite js_split_join; [|by destruct segs|].
  2:{ apply Forall_app. split; [by apply seg_ok_no_slash|]. constructor; [apply Hx|constructor; [done|constructor]]. }
  cbn [normalize_segs]. rewrite decide_True by auto.
  replace (segs ++ [x; ".."]) with ((segs ++ [x]) ++ [".."]) by by rewrite <- app_assoc.
  rewrite normalize_segs_app, (normalize_segs_ok _ _ (segs ++ [x])) by (apply Forall_app; auto).
  rewrite rev_app_distr, app_nil_r. cbn [rev app normalize_segs].
  rewrite decide_False by (intros [? | ?]; discriminate). rewrite decide_True by done.
  rewrite decide_False by (destruct Hx as (_ & _ & ? & _); done).
  cbn [normalize_segs]. rewrite rev_involutive.
  rewrite bool_decide_true by done.
  assert (str_last (String "/" (js_join "/" (segs ++ [x; ".."]))) = Some "."%char) as Hlast.
  { rewrite js_join_app by done. cbn [js_join]. change (String "/"%char ?r) with ("/" +:+ r).
    rewrite !str_app_assoc, (str_last_app _ "..") by done. done. }
  replace ((segs ++ [x]) ++ [".."]) with (segs ++ [x; ".."]) by by rewrite <- app_assoc.
  rewrite Hlast, bool_decide_false by done.
  destruct (js_join "/" segs) eqn:E; [by destruct (js_join_nonempty segs Hok Hne)|].
  unfold abs_path. by rewrite E.
Qed.
