(* ===== verification/JsDate.v ===== *)
(** * JsDate: the [Date] getters used by [getArchiveName]

    [new Date()] captures the current time [t] (milliseconds since the
    epoch, UTC).  [getTime()] returns [t]; [getFullYear()], [getMonth()]
    and [getDate()] read the proleptic Gregorian calendar date of the
    local time [t + offset], where [offset] is the host's time-zone offset
    at [t] (ECMA-262, LocalTime).  The calendar date of a day number is
    computed with the era-based [civil_from_days] algorithm; [JsDate]
    proves its range and its inverse [days_from_civil]. *)

From S2P Require Import Prelude.

Local Open Scope Z_scope.

Definition msPerDay : Z := 86400000.

(** The calendar date [(year, month 1..12, day 1..31)] of day number [z]
    (day 0 is 1970-01-01). *)
Definition civil_from_days (z : Z) : Z * Z * Z :=
  let z := z + 719468 in
  let era := z / 146097 in
  let doe := z - era * 146097 in
  let yoe := (doe - doe / 1460 + doe / 36524 - doe / 146096) / 365 in
  let y := yoe + era * 400 in
  let doy := doe - (365 * yoe + yoe / 4 - yoe / 100) in
  let mp := (5 * doy + 2) / 153 in
  let d := doy - (153 * mp + 2) / 5 + 1 in
  let m := if mp <? 10 then mp + 3 else mp - 9 in
  (if m <=? 2 then y + 1 else y, m, d).

(** Its inverse: the day number of a calendar date. *)
Definition days_from_civil (y m d : Z) : Z :=
  let y := if m <=? 2 then y - 1 else y in
  let era := y / 400 in
  let yoe := y - era * 400 in
  let doy := (153 * (if m >? 2 then m - 3 else m + 9) + 2) / 5 + d - 1 in
  let doe := yoe * 365 + yoe / 4 - yoe / 100 + doy in
  era * 146097 + doe - 719468.

(** A [Date] object: its time value and the local offset at that time. *)
Record js_date := JsDate { date_time : Z; date_offset : Z }.

Definition local_day (dt : js_date) : Z := (date_time dt + date_offset dt) / msPerDay.

Definition getTime (dt : js_date) : Z := date_time dt.
Definition getFullYear (dt : js_date) : Z := (civil_from_days (local_day dt)).1.1.
(** [getMonth()] is zero-based. *)
Definition getMonth (dt : js_date) : Z := (civil_from_days (local_day dt)).1.2 - 1.
Definition getDate (dt : js_date) : Z := (civil_from_days (local_day dt)).2.

(** ** The calendar date of a day *)

Lemma civil_doe_bounds (z : Z) :
  0 <= z + 719468 - (z + 719468) / 146097 * 146097 <= 146096.
Proof.
  pose proof (Z.mod_pos_bound (z + 719468) 146097 ltac:(lia)).
  pose proof (Z.div_mod (z + 719468) 146097 ltac:(lia)). lia.
Qed.

Lemma civil_doy_bounds (doe : Z) : 0 <= doe <= 146096 ->
  let yoe := (doe - doe / 1460 + doe / 36524 - doe / 146096) / 365 in
  0 <= yoe <= 399 /\ 0 <= doe - (365 * yoe + yoe / 4 - yoe / 100) <= 365.
Proof.
  intros H yoe. subst yoe.
  pose proof (Z.div_mod doe 1460 ltac:(lia)); pose proof (Z.mod_pos_bound doe 1460 ltac:(lia)).
  pose proof (Z.div_mod doe 36524 ltac:(lia)); pose proof (Z.mod_pos_bound doe 36524 ltac:(lia)).
  pose proof (Z.div_mod doe 146096 ltac:(lia)); pose proof (Z.mod_pos_bound doe 146096 ltac:(lia)).
  set (a := doe / 1460) in *. set (b := doe / 36524) in *. set (c := doe / 146096) in *.
  set (n := doe - a + b - c).
  pose proof (Z.div_mod n 365 ltac:(lia)); pose proof (Z.mod_pos_bound n 365 ltac:(lia)).
  set (y := n / 365) in *.
  pose proof (Z.div_mod y 4 ltac:(lia)); pose proof (Z.mod_pos_bound y 4 ltac:(lia)).
  pose proof (Z.div_mod y 100 ltac:(lia)); pose proof (Z.mod_pos_bound y 100 ltac:(lia)).
  set (y4 := y / 4) in *. set (y100 := y / 100) in *.
  subst n. lia.
Qed.

Lemma civil_md_bounds (doy : Z) : 0 <= doy <= 365 ->
  let mp := (5 * doy + 2) / 153 in 0 <= mp <= 11 /\ 1 <= doy - (153 * mp + 2) / 5 + 1 <= 31.
Proof.
  intros H mp. subst mp.
  pose proof (Z.div_mod (5 * doy + 2) 153 ltac:(lia)).
  pose proof (Z.mod_pos_bound (5 * doy + 2) 153 ltac:(lia)).
  set (mp := (5 * doy + 2) / 153) in *.
  pose proof (Z.div_mod (153 * mp + 2) 5 ltac:(lia)).
  pose proof (Z.mod_pos_bound (153 * mp + 2) 5 ltac:(lia)).
  set (k := (153 * mp + 2) / 5) in *. lia.
Qed.

(** The month of day [z] is between 1 and 12 and its day of the month
    between 1 and 31: the fields [getArchiveName] prints are in range. *)
Lemma civil_from_days_range (z : Z) :
  1 <= (civil_from_days z).1.2 <= 12 /\ 1 <= (civil_from_days z).2 <= 31.
Proof.
  unfold civil_from_days. cbn zeta.
  pose proof (civil_doe_bounds z) as Hdoe.
  destruct (civil_doy_bounds _ Hdoe) as [Hy Hd]. cbn zeta in Hy, Hd.
  match goal with |- context [(5 * ?doy + 2) / 153] =>
    destruct (civil_md_bounds doy Hd) as [Hm Hdd] end.
  cbn zeta in Hdd.
  set (mp := (5 * _ + 2) / 153) in *.
  destruct (Z.ltb_spec mp 10), (Z.leb_spec (if mp <? 10 then mp + 3 else mp - 9) 2); cbn; lia.
Qed.

(** [days_from_civil] inverts [civil_from_days] on every day number. *)
Lemma civil_from_days_roundtrip (z : Z) :
  let '(y, m, d) := civil_from_days z in days_from_civil y m d = z.
Proof.
  unfold civil_from_days. cbn zeta.
  pose proof (civil_doe_bounds z) as Hdoe.
  destruct (civil_doy_bounds _ Hdoe) as [Hy Hd]. cbn zeta in Hy, Hd.
  set (era := (z + 719468) / 146097) in *.
  set (doe := z + 719468 - era * 146097) in *.
  set (yoe := (doe - doe / 1460 + doe / 36524 - doe / 146096) / 365) in *.
  set (doy := doe - (365 * yoe + yoe / 4 - yoe / 100)) in *.
  destruct (civil_md_bounds doy Hd) as [Hm Hdd]. cbn zeta in Hdd.
  set (mp := (5 * doy + 2) / 153) in *.
  unfold days_from_civil.
  assert ((yoe + era * 400) / 400 = era) as Hera.
  { rewrite Z.div_add by lia. rewrite Z.div_small by lia. lia. }
  destruct (Z.ltb_spec mp 10) as [Hlt|Hge].
  - replace (mp + 3 <=? 2) with false by (symmetry; apply Z.leb_gt; lia).
    replace (mp + 3 >? 2) with true by (symmetry; apply Z.gtb_lt; lia).
    replace (mp + 3 - 3) with mp by lia. rewrite Hera.
    replace (yoe + era * 400 - era * 400) with yoe by lia. subst doy doe. lia.
  - replace (mp - 9 <=? 2) with true by (symmetry; apply Z.leb_le; lia).
    replace (mp - 9 >? 2) with false by (rewrite Z.gtb_ltb; symmetry; apply Z.ltb_ge; lia).
    replace (yoe + era * 400 + 1 - 1) with (yoe + era * 400) by lia.
    replace (mp - 9 + 9) with mp by lia. rewrite Hera.
    replace (yoe + era * 400 - era * 400) with yoe by lia. subst doy doe. lia.
Qed.

(** [getMonth() + 1] and [getDate()] are in range. *)
Lemma getDate_fields_range (dt : js_date) :
  1 <= getMonth dt + 1 <= 12 /\ 1 <= getDate dt <= 31.
Proof.
  unfold getMonth, getDate. pose proof (civil_from_days_range (local_day dt)). lia.
Qed.

(** The year, the one-based month and the day name the local day. *)
Lemma getDate_fields_roundtrip (dt : js_date) :
  days_from_civil (getFullYear dt) (getMonth dt + 1) (getDate dt) = local_day dt.
Proof.
  unfold getFullYear, getMonth, getDate. pose proof (civil_from_days_roundtrip (local_day dt)) as H.
  destruct (civil_from_days (local_day dt)) as [[y m] d]. cbn. by rewrite Z.sub_add.
Qed.
