(* ===== verification/ArchiveName.v ===== *)
(** * ArchiveName: [getArchiveName] and its inverse

    [getArchiveName(databaseName)] ([src/index.js], lines 44-57) joins the
    database name, the local year, the one-based month, the day of the
    month and the time value of [new Date()] with ["_"] and appends
    [".tar.gz"].  The [Date] is a parameter here; the program's [new
    Date()] is the [ANow] action of [Effects].  [parse_archive_name]
    reads a name back: since the four numbers contain no ["_"], the
    fields are taken from the right, and a database name that contains
    ["_"] is recovered whole. *)

From S2P Require Import Prelude JsLib JsDate.

(** [datestring]: the database name and the four numbers of [new Date()]
    the name is made of. *)
Definition datestring (databaseName : string) (date : js_date) : string * list Z :=
  (databaseName, [getFullYear date; (getMonth date + 1)%Z; getDate date; getTime date]).

(** [datestring.join('_') + '.tar.gz']: numbers print in decimal. *)
Definition getArchiveName (databaseName : string) (date : js_date) : string :=
  let '(db, nums) := datestring databaseName date in
  js_join "_" (db :: map js_num_str nums) +:+ ".tar.gz".


Lemma js_num_str_no_underscore (z : Z) : str_mem "_"%char (js_num_str z) = false.
Proof. by apply js_num_str_no_char. Qed.

#[export] Hint Resolve js_num_str_no_underscore : backup.





(** C27. The month and the day of the month in [datestring],
    [getMonth() + 1] and [getDate()], are between 1 and 12 and between 1
    and 31, for every time value and time-zone offset. *)
Theorem datestring_fields_range (db : string) (dt : js_date) :
  match (datestring db dt).2 with
  | [_; m; d; _] => (1 <= m <= 12 ∧ 1 <= d <= 31)%Z
  | _ => False
  end.
Proof. apply getDate_fields_range. Qed.

(** C28. The year, month and day in [datestring] name exactly the local
    calendar day of the date: the day number they denote is the local day
    of the time value, so the date part of the archive name is the date
    the backup started in local time. *)
Theorem datestring_fields_roundtrip (db : string) (dt : js_date) :
  match (datestring db dt).2 with
  | [y; m; d; _] => days_from_civil y m d = local_day dt
  | _ => False
  end.
Proof. apply getDate_fields_roundtrip. Qed.

(** An archive name is a plain path segment when the database name has
    no [/] (even [..]): [path.join] keeps it as it is. *)
Lemma getArchiveName_seg_ok_slash (db : string) (date : js_date) :
  str_mem "/"%char db = false → seg_ok (getArchiveName db date).
Proof.
  intros Hdb. unfold getArchiveName, datestring. cbn [map].
  assert (str_mem "/"%char (js_join "_" [db; js_num_str (getFullYear date);
            js_num_str (getMonth date + 1)%Z; js_num_str (getDate date); js_num_str (getTime date)]
            +:+ ".tar.gz") = false) as Hno.
  { rewrite str_mem_app, str_mem_js_join; [done|done|].
    repeat constructor; [done|..]; by apply js_num_str_no_char. }
  split_and!; [| | |exact Hno]; intros E;
    apply (f_equal String.length) in E; rewrite str_length_app in E; cbn in E; lia.
Qed.

Lemma getArchiveName_seg_ok (db : string) (date : js_date) :
  seg_ok db → seg_ok (getArchiveName db date).
Proof. intros (_ & _ & _ & Hdb). by apply getArchiveName_seg_ok_slash. Qed.
