(* ===== verification/Effects.v ===== *)
(** * Effects: programs, the world they act on, and their runner

    Every function of [src/index.js] that takes a [callback] is modelled as
    a program [prog A] that performs [action]s on the outside world and
    ends by returning the value it passes to its callback ([Ret]) or by
    throwing an exception out of the callback chain ([Throw]).  Calling
    [f(args, cb)] is [x ← f args; cb x]: each path of these functions
    calls its callback exactly once, which is what the monadic reading
    requires.

    The world ([world]) is the local file system, a set of absolute paths,
    the clock and the caller's [s3Config] object, which all jobs share.
    Registering a listener on the domain ([AOnError]) does not change the
    world; [EventLoop] keeps the listeners.  What the external tools and services do ([mongodump],
    [mysqldump], [tar], S3, the time zone) is an oracle [env]; the shell
    that [child_process.exec] starts is modelled for what the code sends
    it: [;]-separated commands of space-separated words, [>] redirection
    and [rm -rf]. *)

From S2P Require Import Prelude JsLib JsDate.

(** ** Errors, as the code constructs them *)

(** An exit code as the ['exit'] event gives it: [None] is JavaScript's
    [null], a process killed by a signal. *)
Abbreviation exit_code := (option Z).

Inductive js_error :=
| ExecFailed (cmd : string) (code : exit_code)   (** [child_process.exec] callback error *)
| MongodumpExited (code : exit_code)             (** ["Mongodump exited with code " + code] *)
| MysqldumpExited (code : exit_code)             (** ["Mysqldump exited with code " + code] *)
| TarExited (code : exit_code)                   (** ["Tar exited with code " + code] *)
| S3BadStatus (status : Z)                       (** ["Expected a 200 response from S3, got " + status] *)
| S3Failed (msg : string)                        (** [err] of [s3client.putFile] *)
| KnoxRequired (field : string).                 (** [knox.createClient]: [aws "field" required] *)

#[export] Instance js_error_eq_dec : EqDecision js_error.
Proof. solve_decision. Defined.

Definition exit_code_str (c : exit_code) : string :=
  match c with Some z => js_num_str z | None => "null" end.

(** [String(err)] for the [Error] objects above. *)
Definition error_message (e : js_error) : string :=
  match e with
  | ExecFailed cmd _ => "Command failed: " +:+ cmd
  | MongodumpExited c => "Mongodump exited with code " +:+ exit_code_str c
  | MysqldumpExited c => "Mysqldump exited with code " +:+ exit_code_str c
  | TarExited c => "Tar exited with code " +:+ exit_code_str c
  | S3BadStatus s => "Expected a 200 response from S3, got " +:+ js_num_str s
  | S3Failed m => m
  | KnoxRequired f => "aws " +:+ f +:+ " required"
  end.

Definition error_string (e : js_error) : string := "Error: " +:+ error_message e.

(** ** The S3 configuration object

    The caller's [s3Config] object, shared by every job of a call to
    [syncMongo]/[syncMySQL] and by later calls the caller makes with the
    same object: [sendToS3] reads it and deletes its [destination]. *)
Record s3_config := S3Config {
  s3_key : string;
  s3_secret : string;
  s3_bucket : string;
  s3_destination : option string;
  s3_encrypt : bool
}.

(** ** Actions and replies *)

Inductive action :=
| ANow                                              (** [new Date()] *)
| ALog (line : string)                              (** [util.log(line)] *)
| AExists (path : string)                           (** [fs.exists] *)
| AExistsSync (path : string)                       (** [fs.existsSync] *)
| AMkdirSync (path : string)                        (** [fs.mkdirSync] *)
| AExec (cmd : string)                              (** [child_process.exec] *)
| ASpawn (file : string) (args : list string) (cwd : option string)
                                                    (** [child_process.spawn] *)
| APutFile (bucket src dst : string) (headers : list (string * string))
                                                    (** [knox] [putFile] *)
| ACallback (err : option js_error)                 (** the caller's [callback(err)] *)
| ATakeS3Config                                     (** read [s3Config], then
                                                        [delete options.destination] *)
| AOnError (tmpDir db archiveName : string).        (** [d.on('error', ...)] with the
                                                        cleanup of that job's folder
                                                        and archive *)

#[export] Instance action_eq_dec : EqDecision action.
Proof. solve_decision. Defined.

(** The three ways [putFile] ends: its callback gets an error, it gets a
    response (status and body chunks), or the request throws (the [EPIPE]
    the source comments on). *)
Inductive s3_reply :=
| S3CbError (msg : string)
| S3Response (status : Z) (chunks : list string)
| S3Throws (msg : string).

Inductive reply :=
| RUnit
| RDate (d : js_date)
| RBool (b : bool)
| RProc (stdout stderr : list string) (code : exit_code)  (** data events, then ['exit'] *)
| RS3 (r : s3_reply)
| RS3Config (c : s3_config).

(** ** Programs *)

Inductive prog (A : Type) : Type :=
| Ret (a : A)
| Act (a : action) (k : reply → prog A)
| Throw (e : js_error).
Arguments Ret {A} a.
Arguments Act {A} a k.
Arguments Throw {A} e.

Fixpoint prog_bind {A B} (f : A → prog B) (p : prog A) : prog B :=
  match p with
  | Ret a => f a
  | Act a k => Act a (λ r, prog_bind f (k r))
  | Throw e => Throw e
  end.

#[export] Instance prog_ret : MRet prog := @Ret.
#[export] Instance prog_mbind : MBind prog := @prog_bind.

(** Perform an action whose reply the code ignores. *)
Definition act_ (a : action) : prog unit := Act a (λ _, Ret ()).

(** ** The world *)

Record world := World {
  w_fs : gset string;      (** the paths that exist, files and directories *)
  w_clock : Z;             (** the current time value, in milliseconds *)
  w_s3config : s3_config   (** the shared [s3Config] object *)
}.

(** [p] is [t] or lies below the directory [t]. *)
Definition under (t p : string) : bool :=
  bool_decide (p = t) || String.prefix (t +:+ "/") p.

(** [rm -rf t]: [t] and everything below it is gone. *)
Definition rm_rf (t : string) (fs : gset string) : gset string :=
  filter (λ p, under t p = false) fs.

(** The outside world: what the code cannot see into. *)
Record env := Env {
  env_offset : Z → Z;                               (** local time offset at a time value *)
  env_tick : action → N;                            (** time an action takes *)
  env_rm_fails : string → bool;                     (** paths [rm -rf] cannot remove *)
  env_cmd : list string → gset string → gset string * reply;
      (** a shell command other than [rm -rf], by its words *)
  env_spawn : string → list string → option string → gset string → gset string * reply;
      (** a spawned process: its effect on the files, its output and exit code *)
  env_s3 : string → string → string → list (string * string) → gset string → s3_reply
      (** S3's answer to an upload: bucket, source, destination, headers *)
}.

(** ** The shell of [child_process.exec]

    A command line is split at [;] into commands run in sequence; a command
    is split at spaces into words; every [> file] creates (or truncates)
    [file] and is removed from the words.  The exit code is the last
    command's. *)

Definition shell_words (cmd : string) : list string :=
  filter (λ w, w ≠ "") (js_split " "%char cmd).

(** The words of a command without its redirections, and the files it
    redirects to, in order. *)
Fixpoint take_redirect (ws : list string) : list string * list string :=
  match ws with
  | [] => ([], [])
  | w :: rest =>
      match rest with
      | f :: rest' =>
          if decide (w = ">") then let '(ws', fs) := take_redirect rest' in (ws', f :: fs)
          else let '(ws', fs) := take_redirect rest in (w :: ws', fs)
      | [] => ([w], [])
      end
  end.

Definition run_rm (E : env) (targets : list string) (fs : gset string) : gset string * reply :=
  let fs' := foldl (λ acc t, if env_rm_fails E t then acc else rm_rf t acc) fs targets in
  (fs', RProc [] [] (Some (if existsb (env_rm_fails E) targets then 1 else 0)%Z)).

Definition run_simple (E : env) (ws : list string) (fs : gset string) : gset string * reply :=
  let '(ws', redir) := take_redirect ws in
  let fs := foldr (λ f acc, {[f]} ∪ acc) fs redir in
  match ws' with
  | "rm" :: "-rf" :: targets => run_rm E targets fs
  | _ => env_cmd E ws' fs
  end.

Definition sh_exec (E : env) (cmd : string) (fs : gset string) : gset string * reply :=
  foldl (λ '(fs, _) c, run_simple E (shell_words c) fs) (fs, RProc [] [] (Some 0%Z))
        (js_split ";"%char cmd).

(** ** Performing an action *)

Definition perform (E : env) (a : action) (w : world) : world * reply :=
  let tick := (w_clock w + Z.of_N (env_tick E a))%Z in
  let fs := w_fs w in
  let cfg := w_s3config w in
  let '(fs', cfg', r) :=
    match a with
    | ANow => (fs, cfg, RDate (JsDate (w_clock w) (env_offset E (w_clock w))))
    | ALog _ | ACallback _ | AOnError _ _ _ => (fs, cfg, RUnit)
    | AExists p | AExistsSync p => (fs, cfg, RBool (bool_decide (p ∈ fs)))
    | AMkdirSync p => ({[p]} ∪ fs, cfg, RUnit)
    | AExec cmd => let '(fs', r) := sh_exec E cmd fs in (fs', cfg, r)
    | ASpawn f args cwd => let '(fs', r) := env_spawn E f args cwd fs in (fs', cfg, r)
    | APutFile b src dst hs => (fs, cfg, RS3 (env_s3 E b src dst hs fs))
    | ATakeS3Config =>
        (fs, S3Config (s3_key cfg) (s3_secret cfg) (s3_bucket cfg) None (s3_encrypt cfg),
         RS3Config cfg)
    end in
  (World fs' tick cfg', r).

(** The end of a run: a value returned, or an exception thrown. *)
Inductive outcome (A : Type) := Done (a : A) | Thrown (e : js_error).
Arguments Done {A} a.
Arguments Thrown {A} e.

Record result (A : Type) := Result {
  res_world : world;
  res_trace : list action;     (** the actions performed, in order *)
  res_out : outcome A
}.
Arguments Result {A} _ _ _.
Arguments res_world {A} _.
Arguments res_trace {A} _.
Arguments res_out {A} _.

(** Run a program to its end.  The recursion is structural: a
    continuation applied to a reply is a subterm of the program. *)
Fixpoint run {A} (E : env) (p : prog A) (w : world) : result A :=
  match p with
  | Ret a => Result w [] (Done a)
  | Throw e => Result w [] (Thrown e)
  | Act a k =>
      let '(w', r) := perform E a w in
      let '(Result w'' tr o) := run E (k r) w' in
      Result w'' (a :: tr) o
  end.

(** ** The runner and [bind] *)

(** Sequencing two runs: what [run_bind] rewrites to. *)
Definition res_then {A B} (E : env) (r : result A) (f : A → prog B) : result B :=
  match res_out r with
  | Done a =>
      let r' := run E (f a) (res_world r) in
      Result (res_world r') (res_trace r ++ res_trace r') (res_out r')
  | Thrown e => Result (res_world r) (res_trace r) (Thrown e)
  end.

Lemma run_bind {A B} (E : env) (p : prog A) (f : A → prog B) (w : world) :
  run E (p ≫= f) w = res_then E (run E p w) f.
Proof.
  revert w. induction p as [a|a k IH|e]; intros w; simpl.
  - unfold res_then. simpl. by destruct (run E (f a) w).
  - destruct (perform E a w) as [w' r]. change (prog_bind f (k r)) with (k r ≫= f).
    rewrite IH. unfold res_then. destruct (run E (k r) w') as [w'' tr [a'|e]]; simpl; [|done].
    by destruct (run E (f a') w'').
  - done.
Qed.

Lemma run_ret {A} (E : env) (a : A) (w : world) : run E (mret a) w = Result w [] (Done a).
Proof. done. Qed.

Lemma run_act {A} (E : env) (a : action) (k : reply → prog A) (w : world) :
  run E (Act a k) w =
  let '(w', r) := perform E a w in
  let '(Result w'' tr o) := run E (k r) w' in Result w'' (a :: tr) o.
Proof. done. Qed.

Lemma res_then_done {A B} (E : env) (w : world) (tr : list action) (a : A) (f : A → prog B) :
  res_then E (Result w tr (Done a)) f =
  Result (res_world (run E (f a) w)) (tr ++ res_trace (run E (f a) w)) (res_out (run E (f a) w)).
Proof. done. Qed.

Lemma res_then_thrown {A B} (E : env) (w : world) (tr : list action) (e : js_error) (f : A → prog B) :
  res_then E (Result w tr (Thrown e)) f = Result w tr (Thrown e).
Proof. done. Qed.

#[export] Hint Rewrite @run_bind @res_then_done @res_then_thrown : backup_rw.

(** A program [p] started in [w] ends in [w'] with the trace [tr] and the
    value [a]: the form in which the stage lemmas are stated. *)
Definition runs_to {A} (E : env) (p : prog A) (w : world) (w' : world) (tr : list action) (a : A) : Prop :=
  run E p w = Result w' tr (Done a).

Lemma runs_to_bind {A B} (E : env) (p : prog A) (f : A → prog B) (w w1 : world)
    (tr1 : list action) (a : A) :
  runs_to E p w w1 tr1 a →
  run E (p ≫= f) w =
  Result (res_world (run E (f a) w1)) (tr1 ++ res_trace (run E (f a) w1)) (res_out (run E (f a) w1)).
Proof. intros H. by rewrite run_bind, H. Qed.

(** A bound program that returns: its first part returned too, and the
    trace is the two parts' traces. *)
Lemma run_bind_done {A B} (E : env) (p : prog A) (f : A → prog B) (w : world) (b : B) :
  res_out (run E (p ≫= f) w) = Done b →
  ∃ a, res_out (run E p w) = Done a ∧
       res_trace (run E (p ≫= f) w) = res_trace (run E p w) ++ res_trace (run E (f a) (res_world (run E p w))) ∧
       res_out (run E (f a) (res_world (run E p w))) = Done b.
Proof.
  rewrite run_bind. destruct (run E p w) as [w1 tr1 [a|e]]; unfold res_then;
    cbn [res_out res_trace res_world]; [|done].
  intros H. by exists a.
Qed.

(** ** Which actions a program may perform *)

(** [acts_in P p]: every action [p] may perform satisfies [P], whatever
    the replies. *)
Inductive acts_in (P : action → Prop) {A : Type} : prog A → Prop :=
| acts_ret (a : A) : acts_in P (Ret a)
| acts_throw (e : js_error) : acts_in P (Throw e)
| acts_act (a : action) (k : reply → prog A) :
    P a → (∀ r, acts_in P (k r)) → acts_in P (Act a k).

#[export] Hint Constructors acts_in : backup.

Lemma acts_in_bind {A B} (P : action → Prop) (p : prog A) (f : A → prog B) :
  acts_in P p → (∀ a, acts_in P (f a)) → acts_in P (p ≫= f).
Proof.
  intros Hp Hf. induction Hp as [a|e|a k Ha Hk IH]; simpl; [apply Hf|constructor|].
  constructor; [done|]. intros r. apply IH.
Qed.

Lemma acts_in_mret {A} (P : action → Prop) (a : A) : acts_in P (mret a).
Proof. constructor. Qed.

Lemma acts_in_act_ (P : action → Prop) (a : action) : P a → acts_in P (act_ a).
Proof. intros H. constructor; auto with backup. Qed.

#[export] Hint Resolve acts_in_bind acts_in_mret acts_in_act_ : backup.

(** Every action of the trace of a run of [p] satisfies [P]. *)
Lemma acts_in_run {A} (P : action → Prop) (E : env) (p : prog A) (w : world) :
  acts_in P p → Forall P (res_trace (run E p w)).
Proof.
  intros Hp. revert w. induction Hp as [a|e|a k Ha Hk IH]; intros w; simpl; [done|done|].
  destruct (perform E a w) as [w' r]. specialize (IH r w').
  destruct (run E (k r) w'). simpl in *. by constructor.
Qed.

Lemma acts_in_mono {A} (P Q : action → Prop) (p : prog A) :
  (∀ a, P a → Q a) → acts_in P p → acts_in Q p.
Proof. intros HPQ Hp. induction Hp; constructor; auto. Qed.

(** [throws_in P p]: every exception [p] may throw satisfies [P]. *)
Inductive throws_in (P : js_error → Prop) {A : Type} : prog A → Prop :=
| throws_ret (a : A) : throws_in P (Ret a)
| throws_throw (e : js_error) : P e → throws_in P (Throw e)
| throws_act (a : action) (k : reply → prog A) :
    (∀ r, throws_in P (k r)) → throws_in P (Act a k).

#[export] Hint Constructors throws_in : backup.

(** [p] never throws. *)
Abbreviation no_throw := (throws_in (λ _, False)).

Lemma throws_in_bind {A B} (P : js_error → Prop) (p : prog A) (f : A → prog B) :
  throws_in P p → (∀ a, throws_in P (f a)) → throws_in P (p ≫= f).
Proof. intros Hp Hf. induction Hp; simpl; [apply Hf| |]; constructor; auto. Qed.

Lemma throws_in_mret {A} (P : js_error → Prop) (a : A) : throws_in P (mret a).
Proof. constructor. Qed.

Lemma throws_in_act_ (P : js_error → Prop) (a : action) : throws_in P (act_ a).
Proof. constructor. auto with backup. Qed.

#[export] Hint Resolve throws_in_bind throws_in_mret throws_in_act_ : backup.

Lemma throws_in_mono {A} (P Q : js_error → Prop) (p : prog A) :
  (∀ e, P e → Q e) → throws_in P p → throws_in Q p.
Proof. intros HPQ Hp. induction Hp; constructor; auto. Qed.

(** What a run throws satisfies [P]. *)
Lemma throws_in_run {A} (P : js_error → Prop) (E : env) (p : prog A) (w : world) (e : js_error) :
  throws_in P p → res_out (run E p w) = Thrown e → P e.
Proof.
  intros Hp. revert w. induction Hp as [a|e' He'|a k Hk IH]; intros w; simpl.
  - done.
  - by intros [= ->].
  - destruct (perform E a w) as [w' r]. specialize (IH r w').
    destruct (run E (k r) w'). simpl in *. exact IH.
Qed.

Lemma no_throw_run {A} (E : env) (p : prog A) (w : world) :
  no_throw p → ∃ a, res_out (run E p w) = Done a.
Proof.
  intros Hp. destruct (res_out (run E p w)) as [a|e] eqn:Ho; [eauto|].
  by apply (throws_in_run (λ _, False) E p w e) in Ho.
Qed.

(** ** Kinds of actions *)

Definition is_callback (a : action) : bool := match a with ACallback _ => true | _ => false end.
Definition is_tar (a : action) : bool := match a with ASpawn "tar" _ _ => true | _ => false end.
Definition is_put (a : action) : bool := match a with APutFile _ _ _ _ => true | _ => false end.

(** A program of one of the pipeline's stages before the upload: it
    neither calls the caller back, nor archives, nor uploads. *)
Definition quiet_action (a : action) : Prop := is_callback a = false ∧ is_put a = false.

(** Prove [acts_in]/[no_throw] goals by following the program. *)
Ltac solve_prog :=
  repeat first
    [ progress (intros; simpl in * )
    | done
    | apply acts_in_bind | apply throws_in_bind
    | apply acts_in_mret | apply throws_in_mret
    | constructor
    | case_match ].

(** ** Performing single actions *)

(** The world after an action that touches neither files nor [s3Config]. *)
Definition tick (E : env) (a : action) (w : world) : world :=
  World (w_fs w) (w_clock w + Z.of_N (env_tick E a))%Z (w_s3config w).

Lemma perform_log (E : env) (l : string) (w : world) :
  perform E (ALog l) w = (tick E (ALog l) w, RUnit).
Proof. done. Qed.

Lemma perform_exists (E : env) (p : string) (w : world) :
  perform E (AExists p) w = (tick E (AExists p) w, RBool (bool_decide (p ∈ w_fs w))).
Proof. done. Qed.

Lemma perform_exec (E : env) (cmd : string) (w : world) :
  perform E (AExec cmd) w =
  (World (sh_exec E cmd (w_fs w)).1 (w_clock w + Z.of_N (env_tick E (AExec cmd)))%Z (w_s3config w),
   (sh_exec E cmd (w_fs w)).2).
Proof. unfold perform. by destruct (sh_exec E cmd (w_fs w)). Qed.

(** ** [rm -rf] through the shell *)

(** A path the shell model passes to [rm] as one word: not empty, no
    space, no [;].  (Other shell metacharacters are not modelled.) *)
Definition shell_safe (t : string) : Prop :=
  t ≠ "" ∧ str_mem " "%char t = false ∧ str_mem ";"%char t = false.

#[export] Instance shell_safe_dec (t : string) : Decision (shell_safe t).
Proof. unfold shell_safe. apply _. Defined.

Lemma sh_exec_rm (E : env) (t : string) (fs : gset string) :
  shell_safe t → sh_exec E ("rm -rf " +:+ t) fs = run_rm E [t] fs.
Proof.
  intros (Hne & Hsp & Hsc). unfold sh_exec.
  rewrite (js_split_no_sep ";"%char); [|by rewrite str_mem_app, Hsc].
  cbn [foldl]. unfold run_simple, shell_words.
  change ("rm -rf " +:+ t) with ("rm" +:+ String " "%char ("-rf" +:+ String " "%char t)).
  rewrite !js_split_app, (js_split_no_sep _ t), (js_split_no_sep _ "rm"), (js_split_no_sep _ "-rf")
    by done.
  cbn [app]. rewrite filter_cons_True, filter_cons_True, filter_cons_True, filter_nil by done.
  cbn [take_redirect]. rewrite decide_False by done. cbn [take_redirect].
  rewrite decide_False by done. reflexivity.
Qed.

(** ** Command lines of plain words *)

(** A word the shell model passes on as it is: not empty, no space, no
    [;], and not the redirection operator. *)
Definition shell_word (t : string) : Prop :=
  t ≠ "" ∧ str_mem " "%char t = false ∧ str_mem ";"%char t = false ∧ t ≠ ">".

#[export] Instance shell_word_dec (t : string) : Decision (shell_word t).
Proof. unfold shell_word. apply _. Defined.

(** A command line with no [;] is one simple command. *)
Lemma sh_exec_single (E : env) (cmd : string) (fs : gset string) :
  str_mem ";"%char cmd = false → sh_exec E cmd fs = run_simple E (shell_words cmd) fs.
Proof. intros H. unfold sh_exec. by rewrite js_split_no_sep. Qed.

(** The words of [w1 + ' ' + ... + ' ' + wn], empty ones dropped. *)
Lemma shell_words_join (l : list string) :
  l ≠ [] → Forall (λ x, str_mem " "%char x = false) l →
  shell_words (js_join " " l) = filter (λ w, w ≠ "") l.
Proof. intros Hne Hl. unfold shell_words. by rewrite js_split_join. Qed.

Lemma take_redirect_word (w : string) (rest : list string) :
  w ≠ ">" → rest ≠ [] →
  take_redirect (w :: rest) = (w :: (take_redirect rest).1, (take_redirect rest).2).
Proof.
  intros Hw Hr. destruct rest as [|x rest]; [done|].
  change (take_redirect (w :: x :: rest)) with
    (if decide (w = ">") then let '(ws', fs) := take_redirect rest in (ws', x :: fs)
     else let '(ws', fs) := take_redirect (x :: rest) in (w :: ws', fs)).
  rewrite decide_False by done. by destruct (take_redirect (x :: rest)).
Qed.

Lemma take_redirect_gt (f : string) (rest : list string) :
  take_redirect (">" :: f :: rest) = ((take_redirect rest).1, f :: (take_redirect rest).2).
Proof. cbn [take_redirect]. rewrite decide_True by done. by destruct (take_redirect rest). Qed.

(** Words that are not [>], in front of a non-empty rest, are kept. *)
Lemma take_redirect_words (ws rest : list string) :
  Forall (λ w, w ≠ ">") ws → rest ≠ [] →
  take_redirect (ws ++ rest) = (ws ++ (take_redirect rest).1, (take_redirect rest).2).
Proof.
  intros Hws Hr. induction Hws as [|w ws Hw _ IH]; [cbn [app]; by destruct (take_redirect rest)|].
  cbn [app]. rewrite take_redirect_word; [by rewrite IH|done|].
  destruct ws; [|done]. cbn [app]. exact Hr.
Qed.

Lemma filter_nonempty_id (l : list string) :
  Forall (λ w, w ≠ "") l → filter (λ w, w ≠ "") l = l.
Proof. induction 1; [done|]. rewrite filter_cons_True by done. by f_equal. Qed.

Lemma shell_words_facts (l : list string) :
  Forall shell_word l →
  Forall (λ w, w ≠ "") l ∧ Forall (λ w, str_mem " "%char w = false) l ∧
  Forall (λ w, str_mem ";"%char w = false) l ∧ Forall (λ w, w ≠ ">") l.
Proof.
  intros H. split_and!; (eapply Forall_impl; [exact H|]); by intros ? (? & ? & ? & ?).
Qed.

(** ** A concrete environment, for the examples

    [mongodump] as documented: it writes one folder per dumped database
    into the directory of its last [-o] option, every database of the
    server unless [-d] names one; [tar] writes its archive into its
    working directory; [mysqldump] and other commands only answer;
    [rm] cannot remove the paths listed in [rm_fails]; S3 gives one
    fixed answer. *)

Fixpoint last_opt (flag : string) (args : list string) : option string :=
  match args with
  | [] => None
  | a :: rest =>
      match last_opt flag rest with
      | Some v => Some v
      | None => if decide (a = flag) then head rest else None
      end
  end.

Definition mongodump_model (server_dbs : list string) (code : exit_code) (args : list string)
    (fs : gset string) : gset string * reply :=
  let out := default "dump" (last_opt "-o" args) in
  let dbs := match last_opt "-d" args with Some d => [d] | None => server_dbs end in
  if decide (code = Some 0%Z) then
    ({[path_join [out]]} ∪ list_to_set (map (λ d, path_join [out; d]) dbs) ∪ fs, RProc [] [] code)
  else (fs, RProc [] [] code).

Definition demo_env (server_dbs : list string) (dump_code tar_code : exit_code) (s3 : s3_reply)
    (rm_fails : list string) : env := {|
  env_offset := λ _, 0%Z;
  env_tick := λ _, 1%N;
  env_rm_fails := λ t, bool_decide (t ∈ rm_fails);
  env_cmd := λ ws fs, (fs, RProc [] [] (if decide (head ws = Some "mysqldump") then dump_code else Some 0%Z));
  env_spawn := λ f args cwd fs,
    if decide (f = "mongodump") then mongodump_model server_dbs dump_code args fs
    else if decide (f = "tar") then
      match args with
      | [_; output; _] =>
          (if decide (tar_code = Some 0%Z) then {[path_join [default "." cwd; output]]} ∪ fs else fs,
           RProc [] [] tar_code)
      | _ => (fs, RProc [] [] tar_code)
      end
    else (fs, RProc [] [] None);
  env_s3 := λ _ _ _ _ _, s3
|}.

Definition demo_s3config : s3_config := S3Config "AKID" "secret" "backups" (Some "/nightly") false.

Definition demo_world (paths : list string) (cfg : s3_config) : world :=
  World (list_to_set paths) 1700000000000%Z cfg.

(** Close a decidable proposition by computation. *)
Ltac decide_by_compute := apply (bool_decide_unpack _); vm_compute; exact I.

(** ** [s3Config] changes only through [ATakeS3Config] *)

Lemma perform_config (E : env) (a : action) (w : world) :
  a ≠ ATakeS3Config → w_s3config (perform E a w).1 = w_s3config w.
Proof.
  intros Ha. destruct a; try done; unfold perform; cbn;
    [destruct (sh_exec E cmd (w_fs w)) | destruct (env_spawn E file args cwd (w_fs w))]; done.
Qed.

Lemma run_config (E : env) {A} (p : prog A) (w : world) :
  acts_in (λ a, a ≠ ATakeS3Config) p → w_s3config (res_world (run E p w)) = w_s3config w.
Proof.
  intros Hp. revert w. induction Hp as [a|e|a k Ha Hk IH]; intros w; [done|done|].
  cbn [run]. pose proof (perform_config E a w Ha) as Hc.
  destruct (perform E a w) as [w' r]. specialize (IH r w').
  destruct (run E (k r) w'). cbn in *. congruence.
Qed.

(** The three projections of a run that starts with an action. *)
Lemma run_act_parts {A} (E : env) (a : action) (k : reply → prog A) (w : world) :
  let '(w', r) := perform E a w in
  res_world (run E (Act a k) w) = res_world (run E (k r) w') ∧
  res_trace (run E (Act a k) w) = a :: res_trace (run E (k r) w') ∧
  res_out (run E (Act a k) w) = res_out (run E (k r) w').
Proof. cbn [run]. destruct (perform E a w) as [w' r]. by destruct (run E (k r) w'). Qed.

Lemma run_act_ (E : env) (a : action) (w : world) :
  run E (act_ a) w = Result (perform E a w).1 [a] (Done ()).
Proof. unfold act_. cbn [run]. by destruct (perform E a w). Qed.
