(* ===== verification/Logger.v ===== *)
(** * Logger: [log(message, tag)] ([src/index.js], lines 18-35)

    [log] picks a colour for the tag ([error], [warn], [info]; any other
    tag is printed uncoloured), defaults a missing or empty tag to
    [info], prefixes the message with the coloured ["[tag] "], removes one
    trailing line terminator and hands the line to [util.log].  The
    colours are [cli-color]'s ANSI escapes.  The theorem of this file
    states which line [util.log] receives for every message.  [tags[tag]]
    is modelled for the object's own keys; the keys it inherits from
    [Object.prototype] ([toString], [valueOf], ...), which only an outside
    caller of the exported [log] can pass, are not. *)

From S2P Require Import Prelude JsLib Effects.

(** ** [cli-color] *)

Definition esc (code : string) : string := String "027"%char ("[" +:+ code +:+ "m").

Definition cli_red_bold (s : string) : string := esc "31" +:+ esc "1" +:+ s +:+ esc "22" +:+ esc "39".
Definition cli_yellow (s : string) : string := esc "33" +:+ s +:+ esc "39".
Definition cli_cyan_bright (s : string) : string := esc "96" +:+ s +:+ esc "39".

(** ** [log] *)

(** [tag = tag || 'info']: an absent ([undefined]) or empty tag is
    ['info']. *)
Definition tag_or_info (tag : option string) : string :=
  match tag with
  | Some t => if decide (t = "") then "info" else t
  | None => "info"
  end.

(** [currentTag = tags[tag] || function (str) { return str; }]. *)
Definition currentTag (tag : string) : string → string :=
  if decide (tag = "error") then cli_red_bold
  else if decide (tag = "warn") then cli_yellow
  else if decide (tag = "info") then cli_cyan_bright
  else λ str, str.

(** The argument of [util.log]. *)
Definition log_line (message : string) (tag : option string) : string :=
  let tag := tag_or_info tag in
  strip_eol (currentTag tag ("[" +:+ tag +:+ "] ") +:+ message).

Definition log (message : string) (tag : option string) : prog unit :=
  act_ (ALog (log_line message tag)).

(** [log(data)] for each data chunk of a stream, in order. *)
Fixpoint log_chunks (chunks : list string) (tag : option string) : prog unit :=
  match chunks with
  | [] => mret ()
  | c :: cs => log c tag;; log_chunks cs tag
  end.

(** ** The line [util.log] receives *)

Lemma strip_eol_app (p m : string) :
  str_last p ≠ Some "010"%char → str_last p ≠ Some "013"%char → p ≠ "" →
  strip_eol (p +:+ m) = p +:+ strip_eol m.
Proof.
  induction p as [|c p IH]; intros Hlf Hcr Hp; [done|].
  destruct p as [|d p].
  - rewrite str_app_cons, str_app_nil_l. destruct m as [|e m].
    + simpl. rewrite decide_False; [done|]. intros [-> | ->]; simpl in *; congruence.
    + rewrite strip_eol_cons; [done|done|]. intros [-> _]. simpl in Hcr. congruence.
  - assert (str_last (String c (String d p)) = str_last (String d p)) as Hl by done.
    rewrite Hl in Hlf, Hcr.
    rewrite str_app_cons, strip_eol_cons; [rewrite IH by done; done| |].
    + rewrite str_app_cons. done.
    + intros [_ E]. rewrite str_app_cons in E. injection E as -> E.
      destruct p; [by simpl in Hlf|]. rewrite str_app_cons in E. discriminate E.
Qed.

Lemma esc_last (code : string) : str_last (esc code) = Some "m"%char.
Proof.
  unfold esc. change (String "027"%char ?r) with (String "027"%char "" +:+ r).
  rewrite !str_app_assoc, str_last_app by done. reflexivity.
Qed.

Lemma str_last_app_esc (u code : string) : str_last (u +:+ esc code) = Some "m"%char.
Proof. rewrite str_last_app; [apply esc_last|]. unfold esc. discriminate. Qed.

(** The coloured prefix never ends with a line terminator. *)
Lemma currentTag_last (tag : string) :
  str_last (currentTag tag ("[" +:+ tag +:+ "] ")) ∈ [Some "m"%char; Some " "%char].
Proof.
  unfold currentTag, cli_red_bold, cli_yellow, cli_cyan_bright.
  repeat case_decide; rewrite !str_app_assoc; [rewrite str_last_app_esc; by left..|].
  rewrite str_last_app by done. right. by left.
Qed.

Lemma currentTag_nonempty (tag : string) : currentTag tag ("[" +:+ tag +:+ "] ") ≠ "".
Proof.
  intros E. pose proof (currentTag_last tag) as H. rewrite E in H. set_solver.
Qed.

Lemma log_line_prefix (m : string) (tag : option string) :
  log_line m tag =
  currentTag (tag_or_info tag) ("[" +:+ tag_or_info tag +:+ "] ") +:+ strip_eol m.
Proof.
  unfold log_line. pose proof (currentTag_last (tag_or_info tag)).
  apply strip_eol_app; [set_solver|set_solver|apply currentTag_nonempty].
Qed.

(** C29. [log] removes exactly one trailing line terminator: a final
    ["\r\n"], or a final ["\r"], or a final ["\n"] not preceded by
    ["\r"]; a message with no final terminator is printed whole, after
    the coloured ["[tag] "] prefix. *)
Theorem log_line_one_terminator (m u : string) (tag : option string) :
  m = u +:+ CR +:+ LF ∨ m = u +:+ CR ∨ (m = u +:+ LF ∧ ¬ str_ends_with CR u) ∨
  (m = u ∧ ¬ str_ends_with LF u ∧ ¬ str_ends_with CR u) →
  log_line m tag = currentTag (tag_or_info tag) ("[" +:+ tag_or_info tag +:+ "] ") +:+ u.
Proof.
  intros Hm. rewrite log_line_prefix. f_equal.
  destruct Hm as [-> | [-> | [[-> Hu] | (-> & Hl & Hr)]]].
  - apply strip_eol_crlf.
  - apply strip_eol_cr.
  - by apply strip_eol_lf.
  - by apply strip_eol_none.
Qed.

Example log_line_one_terminator_witness :
  ("done" +:+ LF = "done" +:+ LF ∧ ¬ str_ends_with CR "done") ∧
  log_line ("done" +:+ LF) (Some "warn") = cli_yellow "[warn] " +:+ "done".
Proof.
  assert (¬ str_ends_with CR "done") as Hd.
  { intros [w E]. apply (f_equal str_last) in E. rewrite str_last_app in E by done. done. }
  split; [done|].
  refine (log_line_one_terminator _ "done" _ (or_intror (or_intror (or_introl (conj eq_refl Hd))))).
Defined.
