(* ===== verification/Tasks.v ===== *)
(** * Tasks: the pipeline stages of [src/index.js]

    One definition per function of the source, each a program returning
    the value the function passes to its callback ([None] for
    [callback(null)] or [callback()], [Some e] for [callback(e)]):
    - [removeRF] (lines 66-79): [fs.exists], then [exec('rm -rf ' + target)];
    - [mongoDump] (lines 90-137): [spawn('mongodump', mongoOptions)];
    - [mysqlDump] (lines 148-189): [mkdirSync] when needed, then
      [exec('mysqldump ... > directory/db')];
    - [compressDirectory] (lines 201-229): [spawn('tar', ['-zcf', output,
      input], {cwd: directory})];
    - [sendToS3] (lines 241-282): reads and mutates the shared [s3Config],
      then [putFile].
    A process's data events are logged before its ['exit'] event is
    handled, chunk by chunk, as the listeners do. *)

From S2P Require Import Prelude JsLib Effects Logger.

Abbreviation task := (prog (option js_error)).

(** The connection options object [{host, port, username, password, db}]
    built by [syncMongo]/[syncMySQL]; [port] is held as the string the
    code concatenates, an absent [username]/[password] is [None]. *)
Record db_options := DbOptions {
  o_host : string;
  o_port : string;
  o_username : option string;
  o_password : option string;
  o_db : string
}.

(** JavaScript truthiness of an optional string. *)
Definition truthy (o : option string) : bool :=
  match o with Some s => bool_decide (s ≠ "") | None => false end.

(** [options.username && options.password], with the two values. *)
Definition credentials (o : db_options) : option (string * string) :=
  match o_username o, o_password o with
  | Some u, Some p => if truthy (Some u) && truthy (Some p) then Some (u, p) else None
  | _, _ => None
  end.

(** [options.db && options.db != 'all']. *)
Definition names_one_db (db : string) : bool := bool_decide (db ≠ "" ∧ db ≠ "all").

(** ** [removeRF] *)

(** The error [exec]'s callback receives. *)
Definition exec_error (cmd : string) (r : reply) : option js_error :=
  match r with
  | RProc _ _ (Some 0%Z) => None
  | RProc _ _ c => Some (ExecFailed cmd c)
  | _ => Some (ExecFailed cmd None)
  end.

Definition removeRF (target : string) : task :=
  Act (AExists target) (λ r,
    match r with
    | RBool false => mret None
    | _ =>
        log ("Removing " +:+ target) (Some "info");;
        Act (AExec ("rm -rf " +:+ target)) (λ r', mret (exec_error ("rm -rf " +:+ target) r'))
    end).

(** ** [mongoDump] *)

(** [mongoOptions] and the directory it ends up naming. *)
Definition mongo_args (o : db_options) (directory : string) : list string :=
  let base := ["-h"; o_host o +:+ ":" +:+ o_port o] in
  let '(dbopt, directory) :=
    if names_one_db (o_db o) then (["-o"; o_db o], directory)
    else ([], directory +:+ "/all/") in
  let args := base ++ dbopt ++ ["-o"; directory] in
  match credentials o with
  | Some (u, p) => args ++ ["-u"; u; "-p"; p]
  | None => args
  end.

(** The ['exit'] handler shared by the two dump functions: [code === 0]
    is success. *)
Definition on_exit (tool_ok : string) (fail : exit_code → js_error) (r : reply) : task :=
  match r with
  | RProc out err code =>
      log_chunks out None;;
      log_chunks err (Some "error");;
      if decide (code = Some 0%Z) then log tool_ok (Some "info");; mret None
      else mret (Some (fail code))
  | _ => mret (Some (fail None))
  end.

Definition mongoDump (o : db_options) (directory : string) : task :=
  log ("Starting mongodump of " +:+ o_db o) (Some "info");;
  Act (ASpawn "mongodump" (mongo_args o directory) None)
    (on_exit "mongodump executed successfully" MongodumpExited).

(** ** [mysqlDump] *)

Definition mysql_options (o : db_options) : string :=
  " -h " +:+ o_host o +:+ " -P " +:+ o_port o +:+
  " " +:+ (if names_one_db (o_db o) then o_db o else "--all-databases") +:+
  match credentials o with
  | Some (u, p) => " -u " +:+ u +:+ " -p " +:+ p
  | None => ""
  end.

Definition mysql_cmd (o : db_options) (directory : string) : string :=
  "mysqldump " +:+ mysql_options o +:+ " > " +:+ directory +:+ "/" +:+ o_db o.

Definition mysqlDump (o : db_options) (directory : string) : task :=
  log ("Starting mysqldump of " +:+ o_db o) (Some "info");;
  Act (AExistsSync directory) (λ r,
    (match r with RBool false => act_ (AMkdirSync directory) | _ => mret () end);;
    log (mysql_cmd o directory) None;;
    Act (AExec (mysql_cmd o directory))
      (on_exit "mysqldump executed successfully" MysqldumpExited)).

(** ** [compressDirectory] *)

Definition compressDirectory (directory input output : string) : task :=
  log ("Starting compression of " +:+ input +:+ " into " +:+ output) (Some "info");;
  Act (ASpawn "tar" ["-zcf"; output; input] (Some directory)) (λ r,
    match r with
    | RProc _ err code =>
        log_chunks err (Some "error");;
        if decide (code = Some 0%Z) then log "successfully compress directory" (Some "info");; mret None
        else mret (Some (TarExited code))
    | _ => mret (Some (TarExited None))
    end).

(** ** [sendToS3] *)

(** [knox.createClient(options)] throws when a credential is missing. *)
Definition knox_check (c : s3_config) : option js_error :=
  if decide (s3_key c = "") then Some (KnoxRequired "key")
  else if decide (s3_secret c = "") then Some (KnoxRequired "secret")
  else if decide (s3_bucket c = "") then Some (KnoxRequired "bucket")
  else None.

(** [options.destination || '/']. *)
Definition destination_or_root (d : option string) : string :=
  match d with
  | Some s => if decide (s = "") then "/" else s
  | None => "/"
  end.

Definition sse_headers (encrypt : bool) : list (string * string) :=
  if encrypt then [("x-amz-server-side-encryption", "AES256")] else [].

(** The [putFile] callback: [err] is passed on; otherwise the body is
    logged and the ['end'] handler checks for status 200. *)
Definition on_put (r : reply) : task :=
  match r with
  | RS3 (S3CbError m) => mret (Some (S3Failed m))
  | RS3 (S3Response status chunks) =>
      log_chunks chunks (if decide (status = 200%Z) then None else Some "error");;
      if decide (status = 200%Z) then log "Successfully uploaded to s3" None;; mret None
      else mret (Some (S3BadStatus status))
  | RS3 (S3Throws m) => Throw (S3Failed m)
  | _ => mret (Some (S3Failed ""))
  end.

Definition sendToS3 (directory target : string) : task :=
  Act ATakeS3Config (λ r,
    match r with
    | RS3Config c =>
        let sourceFile := path_join [directory; target] in
        let destination := destination_or_root (s3_destination c) in
        match knox_check c with
        | Some e => Throw e
        | None =>
            log ("Attemping to upload " +:+ target +:+ " to the " +:+ s3_bucket c +:+ " s3 bucket") None;;
            Act (APutFile (s3_bucket c) sourceFile (path_join [destination; target])
                   (sse_headers (s3_encrypt c))) on_put
        end
    | _ => mret None
    end).

(** ** What each stage does to the caller and the world *)

Lemma log_acts (P : action → Prop) (m : string) (tag : option string) :
  P (ALog (log_line m tag)) → acts_in P (log m tag).
Proof. intros. unfold log. auto with backup. Qed.

Lemma log_chunks_acts (P : action → Prop) (cs : list string) (tag : option string) :
  (∀ m, P (ALog (log_line m tag))) → acts_in P (log_chunks cs tag).
Proof. intros HP. induction cs; simpl; auto using log_acts with backup. Qed.

Lemma log_chunks_no_throw (cs : list string) (tag : option string) : no_throw (log_chunks cs tag).
Proof. induction cs; simpl; unfold log; auto with backup. Qed.

#[export] Hint Resolve log_acts log_chunks_acts log_chunks_no_throw : backup.

(** The stages other than [tar] and the upload only log, test for files,
    run shell commands and spawn the dump tool. *)
Definition dump_action (a : action) : Prop :=
  quiet_action a ∧ is_tar a = false ∧ a ≠ ATakeS3Config.

Lemma on_exit_acts (s : string) (f : exit_code → js_error) (r : reply) :
  acts_in dump_action (on_exit s f r) ∧ no_throw (on_exit s f r).
Proof.
  unfold on_exit, log. split; case_match; try case_decide; repeat constructor;
    solve_prog; unfold dump_action, quiet_action; auto with backup; done.
Qed.

Lemma on_exit_acts_in (s : string) (f : exit_code → js_error) (r : reply) :
  acts_in dump_action (on_exit s f r).
Proof. apply on_exit_acts. Qed.

Lemma on_exit_no_throw (s : string) (f : exit_code → js_error) (r : reply) :
  no_throw (on_exit s f r).
Proof. apply on_exit_acts. Qed.

#[export] Hint Resolve on_exit_acts_in on_exit_no_throw : backup.

Lemma dump_action_log (m : string) (tag : option string) : dump_action (ALog (log_line m tag)).
Proof. done. Qed.

#[export] Hint Resolve dump_action_log : backup.

Lemma removeRF_acts (t : string) : acts_in dump_action (removeRF t).
Proof.
  unfold removeRF, log. constructor; [done|]. intros r.
  repeat case_match; solve_prog; auto with backup; done.
Qed.

Lemma removeRF_no_throw (t : string) : no_throw (removeRF t).
Proof. unfold removeRF, log. constructor. intros r. repeat case_match; solve_prog. Qed.

Lemma mongoDump_acts (o : db_options) (d : string) : acts_in dump_action (mongoDump o d).
Proof. unfold mongoDump, log. solve_prog; auto with backup; done. Qed.

Lemma mongoDump_no_throw (o : db_options) (d : string) : no_throw (mongoDump o d).
Proof. unfold mongoDump, log. solve_prog; auto with backup. Qed.

Lemma mysqlDump_acts (o : db_options) (d : string) : acts_in dump_action (mysqlDump o d).
Proof. unfold mysqlDump, log. solve_prog; auto with backup; done. Qed.

Lemma mysqlDump_no_throw (o : db_options) (d : string) : no_throw (mysqlDump o d).
Proof. unfold mysqlDump, log. solve_prog; auto with backup. Qed.

(** [tar] does not call the caller back, nor upload. *)
Lemma compressDirectory_acts (d i o : string) : acts_in quiet_action (compressDirectory d i o).
Proof.
  unfold compressDirectory, log. solve_prog; try (apply log_chunks_acts; done); auto with backup; done.
Qed.

Lemma compressDirectory_no_throw (d i o : string) : no_throw (compressDirectory d i o).
Proof. unfold compressDirectory, log. solve_prog; auto with backup. Qed.

#[export] Hint Resolve removeRF_acts removeRF_no_throw mongoDump_acts mongoDump_no_throw
  mysqlDump_acts mysqlDump_no_throw compressDirectory_acts compressDirectory_no_throw : backup.

Lemma sendToS3_acts (d t : string) : acts_in (λ a, is_callback a = false) (sendToS3 d t).
Proof.
  unfold sendToS3, on_put, log. solve_prog; try (apply log_chunks_acts; done); auto with backup.
Qed.

(** The only exceptions of the upload: [knox]'s missing credential and the
    request's own error. *)
Definition upload_error (e : js_error) : Prop :=
  match e with S3Failed _ | KnoxRequired _ => True | _ => False end.

Lemma sendToS3_throws (d t : string) : throws_in upload_error (sendToS3 d t).
Proof.
  unfold sendToS3. constructor. intros []; try apply throws_in_mret. cbn zeta.
  destruct (knox_check c) as [e|] eqn:Hk.
  - constructor. unfold knox_check in Hk. repeat case_decide; by simplify_eq.
  - unfold log, on_put. solve_prog;
      apply throws_in_mono with (λ _, False); try done; auto with backup.
Qed.

(** ** [removeRF] on the disk *)

(** The environment of the examples: a server with databases [app],
    [admin] and [logs], every tool succeeding, S3 answering 200. *)
Definition demo_E : env := demo_env ["app"; "admin"; "logs"] (Some 0%Z) (Some 0%Z) (S3Response 200 []) [].

(** The world after [removeRF t] when [t] exists. *)
Definition removeRF_world (E : env) (t : string) (w : world) : world :=
  let w1 := tick E (ALog (log_line ("Removing " +:+ t) (Some "info"))) (tick E (AExists t) w) in
  World (if env_rm_fails E t then w_fs w else rm_rf t (w_fs w))
        (w_clock w1 + Z.of_N (env_tick E (AExec ("rm -rf " +:+ t))))%Z (w_s3config w).

(** C20. [removeRF] of a path that does not exist only tests for it:
    it runs no command, leaves the disk as it is and reports success
    (removing twice is removing once). *)
Theorem removeRF_missing (E : env) (t : string) (w : world) :
  t ∉ w_fs w → run E (removeRF t) w = Result (tick E (AExists t) w) [AExists t] (Done None).
Proof.
  intros Ht. unfold removeRF. cbn [run]. rewrite perform_exists, bool_decide_false by done.
  reflexivity.
Qed.

Example removeRF_missing_witness :
  run demo_E (removeRF "/tmp/mongodb_s3_backup/app") (demo_world [] demo_s3config) =
  Result (tick demo_E (AExists "/tmp/mongodb_s3_backup/app") (demo_world [] demo_s3config))
         [AExists "/tmp/mongodb_s3_backup/app"] (Done None).
Proof. apply removeRF_missing. decide_by_compute. Defined.

(** C21. [removeRF] of an existing, shell-safe path logs, runs
    [rm -rf path], and leaves no path at or below it, unless [rm]
    cannot remove it, in which case the disk is unchanged and the
    callback gets the [exec] error. *)
Theorem removeRF_present (E : env) (t : string) (w : world) :
  shell_safe t → t ∈ w_fs w →
  run E (removeRF t) w =
  Result (removeRF_world E t w)
         [AExists t; ALog (log_line ("Removing " +:+ t) (Some "info")); AExec ("rm -rf " +:+ t)]
         (Done (if env_rm_fails E t then Some (ExecFailed ("rm -rf " +:+ t) (Some 1%Z)) else None)).
Proof.
  intros Hs Ht. unfold removeRF. cbn [run]. rewrite perform_exists, bool_decide_true by done.
  cbn -[perform]. rewrite perform_log. cbn -[perform]. rewrite perform_exec.
  cbn [w_fs tick]. rewrite sh_exec_rm by done. unfold run_rm, removeRF_world. cbn.
  by destruct (env_rm_fails E t).
Qed.

Example removeRF_present_witness :
  let w := demo_world ["/tmp/mongodb_s3_backup/app"; "/tmp/mongodb_s3_backup/app/users.bson"] demo_s3config in
  let t := "/tmp/mongodb_s3_backup/app" in
  run demo_E (removeRF t) w =
  Result (removeRF_world demo_E t w)
         [AExists t; ALog (log_line ("Removing " +:+ t) (Some "info")); AExec ("rm -rf " +:+ t)]
         (Done (if env_rm_fails demo_E t then Some (ExecFailed ("rm -rf " +:+ t) (Some 1%Z)) else None)).
Proof. apply removeRF_present; decide_by_compute. Defined.

(** The disk after [removeRF t]. *)
Definition removeRF_fs (E : env) (t : string) (fs : gset string) : gset string :=
  if bool_decide (t ∈ fs) && negb (env_rm_fails E t) then rm_rf t fs else fs.

(** [removeRF] of a shell-safe path [rm] can remove succeeds, and leaves
    the disk as [removeRF_fs] says and [s3Config] untouched. *)
Lemma removeRF_ok (E : env) (t : string) (w : world) :
  shell_safe t → env_rm_fails E t = false →
  res_out (run E (removeRF t) w) = Done None ∧
  w_fs (res_world (run E (removeRF t) w)) = removeRF_fs E t (w_fs w) ∧
  w_s3config (res_world (run E (removeRF t) w)) = w_s3config w.
Proof.
  intros Hs Hf. unfold removeRF_fs. destruct (decide (t ∈ w_fs w)) as [Ht|Ht].
  - rewrite removeRF_present, bool_decide_true by done. unfold removeRF_world.
    rewrite Hf. cbn. by split_and!.
  - rewrite removeRF_missing, bool_decide_false by done. cbn. by split_and!.
Qed.

Lemma rm_rf_spec (t p : string) (fs : gset string) : p ∈ rm_rf t fs ↔ p ∈ fs ∧ under t p = false.
Proof. unfold rm_rf. rewrite elem_of_filter. tauto. Qed.

Lemma removeRF_fs_subseteq (E : env) (t : string) (fs : gset string) : removeRF_fs E t fs ⊆ fs.
Proof.
  unfold removeRF_fs. case_match; [|done]. intros p. rewrite rm_rf_spec. tauto.
Qed.

(** What [removeRF] leaves: not the path itself, and nothing below it
    when the path existed. *)
Lemma removeRF_fs_gone (E : env) (t p : string) (fs : gset string) :
  env_rm_fails E t = false → under t p = true → (t ∈ fs ∨ p = t) → p ∉ removeRF_fs E t fs.
Proof.
  intros Hf Hu Hp. unfold removeRF_fs. rewrite Hf. cbn [negb].
  destruct (decide (t ∈ fs)) as [Ht|Ht].
  - rewrite bool_decide_true by done. cbn. rewrite rm_rf_spec. intros [_ Hu']. congruence.
  - rewrite bool_decide_false by done. cbn. by destruct Hp as [?| ->].
Qed.

Lemma under_refl (t : string) : under t t = true.
Proof. unfold under. by rewrite bool_decide_true. Qed.

(** Every path of [/s1/.../sn/x1/.../xm] lies below [/s1/.../sn]. *)
Lemma under_abs_path (segs l : list string) :
  segs ≠ [] → l ≠ [] → under (abs_path segs) (abs_path (segs ++ l)) = true.
Proof.
  intros Hs Hl. unfold under, abs_path. rewrite js_join_app by done.
  rewrite !str_app_assoc, str_prefix_app. apply orb_true_r.
Qed.

(** [removeRF t] keeps every path that is not [t] or below it. *)
Lemma removeRF_fs_keeps (E : env) (t p : string) (fs : gset string) :
  p ∈ fs → under t p = false → p ∈ removeRF_fs E t fs.
Proof. intros Hp Hu. unfold removeRF_fs. case_match; [|done]. by apply rm_rf_spec. Qed.

(** ** [sendToS3] and the shared [s3Config] *)

(** [s3Config] after [delete options.destination]. *)
Definition without_destination (c : s3_config) : s3_config :=
  S3Config (s3_key c) (s3_secret c) (s3_bucket c) None (s3_encrypt c).

Lemma on_put_config (r : reply) : acts_in (λ a, a ≠ ATakeS3Config) (on_put r).
Proof. unfold on_put, log. solve_prog; try (apply log_chunks_acts; done); auto with backup. Qed.

(** Every call of [sendToS3], whatever S3 answers and even when it
    throws, deletes [destination] from the caller's [s3Config] object and
    changes nothing else of it. *)
Lemma sendToS3_deletes_destination (E : env) (d t : string) (w : world) :
  w_s3config (res_world (run E (sendToS3 d t) w)) = without_destination (w_s3config w).
Proof.
  unfold sendToS3.
  match goal with |- context [run E (Act ?a ?k) w] => pose proof (run_act_parts E a k w) as H end.
  cbn [perform] in H. destruct H as [-> _]. rewrite run_config; [done|].
  cbn. destruct (knox_check _); [constructor|].
  unfold log. solve_prog. apply on_put_config.
Qed.

(** C19. When [knox] accepts the credentials, [sendToS3] uploads
    [directory/target] to [destination/target] of the bucket ([/] when no
    destination is set), with the server-side encryption header exactly
    when [encrypt] is set, and reports an error exactly when S3's status
    is not 200. *)
Theorem sendToS3_put (E : env) (d t : string) (w : world) (status : Z) (chunks : list string) :
  let c := w_s3config w in
  let put := APutFile (s3_bucket c) (path_join [d; t])
               (path_join [destination_or_root (s3_destination c); t]) (sse_headers (s3_encrypt c)) in
  knox_check c = None →
  env_s3 E (s3_bucket c) (path_join [d; t]) (path_join [destination_or_root (s3_destination c); t])
         (sse_headers (s3_encrypt c)) (w_fs w) = S3Response status chunks →
  put ∈ res_trace (run E (sendToS3 d t) w) ∧
  res_out (run E (sendToS3 d t) w) = Done (if decide (status = 200%Z) then None else Some (S3BadStatus status)).
Proof.
  intros c put Hk Hs. subst c put. unfold sendToS3.
  match goal with |- context [run E (Act ?a ?k) w] => pose proof (run_act_parts E a k w) as H end.
  cbn [perform] in H. destruct H as (_ & -> & ->).
  cbv beta iota zeta. rewrite Hk. unfold log. rewrite run_bind, run_act_. unfold res_then.
  cbn [res_out res_world res_trace app].
  match goal with |- context [run E (Act ?a ?k) ?w1] => set (w1' := w1) in * end.
  assert (w_fs w1' = w_fs w) as Hfs by reflexivity. clearbody w1'.
  match goal with |- context [run E (Act ?a ?k) w1'] =>
    pose proof (run_act_parts E a k w1') as H; destruct (perform E a w1') as [w2 r2] eqn:Hp end.
  destruct H as (_ & -> & ->). cbn [perform] in Hp. rewrite Hfs, Hs in Hp. injection Hp as <- <-.
  unfold on_put. rewrite run_bind.
  match goal with |- context [run E (log_chunks ?cs ?tg) ?w2] =>
    destruct (no_throw_run E (log_chunks cs tg) w2) as [[] Hl]; [auto with backup|];
    destruct (run E (log_chunks cs tg) w2) as [w3 tr3 o3]; cbn [res_out] in Hl; subst o3 end.
  rewrite res_then_done. split; [set_solver|].
  case_decide; [|done]. cbn [res_out]. unfold log. rewrite run_bind, run_act_. done.
Qed.

Example sendToS3_put_witness :
  let w := demo_world [] demo_s3config in
  let c := w_s3config w in
  let put := APutFile (s3_bucket c) (path_join ["/tmp/mongodb_s3_backup"; "app.tar.gz"])
               (path_join [destination_or_root (s3_destination c); "app.tar.gz"])
               (sse_headers (s3_encrypt c)) in
  put ∈ res_trace (run demo_E (sendToS3 "/tmp/mongodb_s3_backup" "app.tar.gz") w) ∧
  res_out (run demo_E (sendToS3 "/tmp/mongodb_s3_backup" "app.tar.gz") w) =
    Done (if decide (200%Z = 200%Z) then None else Some (S3BadStatus 200)).
Proof. apply (sendToS3_put _ _ _ _ 200%Z []); vm_compute; reflexivity. Defined.

(** When [knox] accepts the credentials, the upload is attempted. *)
Lemma sendToS3_put_action (E : env) (d t : string) (w : world) :
  let c := w_s3config w in
  knox_check c = None →
  APutFile (s3_bucket c) (path_join [d; t]) (path_join [destination_or_root (s3_destination c); t])
    (sse_headers (s3_encrypt c)) ∈ res_trace (run E (sendToS3 d t) w).
Proof.
  intros c Hk. subst c. unfold sendToS3.
  match goal with |- context [run E (Act ?a ?k) w] => pose proof (run_act_parts E a k w) as H end.
  cbn [perform] in H. destruct H as (_ & -> & _).
  cbv beta iota zeta. rewrite Hk. unfold log. rewrite run_bind, run_act_. unfold res_then.
  cbn [res_out res_world res_trace app].
  match goal with |- context [run E (Act ?a ?k) ?w1] =>
    pose proof (run_act_parts E a k w1) as H; destruct (perform E a w1) end.
  destruct H as (_ & -> & _). set_solver.
Qed.

(** C8. The [s3Config] object is shared and [sendToS3] deletes its
    [destination]: once one upload has run, a later upload with the same
    object (the next database of the same call, or a later call), in any
    world whose [s3Config] is the one the first left, goes to the bucket's
    root [/] instead of the configured destination. *)
Theorem sendToS3_later_upload_root (E : env) (d1 t1 d2 t2 : string) (w w2 : world) :
  w_s3config w2 = w_s3config (res_world (run E (sendToS3 d1 t1) w)) →
  knox_check (w_s3config w) = None →
  APutFile (s3_bucket (w_s3config w)) (path_join [d2; t2]) (path_join ["/"; t2])
    (sse_headers (s3_encrypt (w_s3config w))) ∈ res_trace (run E (sendToS3 d2 t2) w2).
Proof.
  rewrite sendToS3_deletes_destination. intros Hc Hk.
  pose proof (sendToS3_put_action E d2 t2 w2) as H. rewrite Hc in H. apply H. exact Hk.
Qed.

Example sendToS3_later_upload_root_witness :
  let w := demo_world [] demo_s3config in
  APutFile (s3_bucket (w_s3config w)) (path_join ["/tmp/mysql_s3_backup"; "shop.tar.gz"])
    (path_join ["/"; "shop.tar.gz"]) (sse_headers (s3_encrypt (w_s3config w)))
    ∈ res_trace (run demo_E (sendToS3 "/tmp/mysql_s3_backup" "shop.tar.gz")
                   (res_world (run demo_E (sendToS3 "/tmp/mongodb_s3_backup" "app.tar.gz") w))).
Proof.
  apply (sendToS3_later_upload_root demo_E "/tmp/mongodb_s3_backup" "app.tar.gz"
           "/tmp/mysql_s3_backup" "shop.tar.gz" (demo_world [] demo_s3config)); reflexivity.
Defined.

(** ** What reaches the dump tools *)

Lemma bind_mret_l {A B} (a : A) (f : A → prog B) : mret a ≫= f = f a.
Proof. done. Qed.

Lemma run_act_trace {A} (E : env) (a : action) (k : reply → prog A) (w : world) :
  res_trace (run E (Act a k) w) = a :: res_trace (run E (k (perform E a w).2) (perform E a w).1).
Proof. pose proof (run_act_parts E a k w) as H. destruct (perform E a w). apply H. Qed.

Lemma run_act_out {A} (E : env) (a : action) (k : reply → prog A) (w : world) :
  res_out (run E (Act a k) w) = res_out (run E (k (perform E a w).2) (perform E a w).1).
Proof. pose proof (run_act_parts E a k w) as H. destruct (perform E a w). apply H. Qed.

Lemma run_act_bind_trace {A} (E : env) (a : action) (f : unit → prog A) (w : world) :
  res_trace (run E (act_ a ≫= f) w) = a :: res_trace (run E (f ()) (perform E a w).1).
Proof. rewrite run_bind, run_act_. unfold res_then. done. Qed.

Lemma run_log_trace {A} (E : env) (m : string) (tag : option string) (f : unit → prog A) (w : world) :
  res_trace (run E (log m tag ≫= f) w) =
  ALog (log_line m tag) :: res_trace (run E (f ()) (tick E (ALog (log_line m tag)) w)).
Proof. apply run_act_bind_trace. Qed.

(** ** What the stages return *)

(** The error an ['exit'] listener passes on: none for exit code 0. *)
Definition exit_result (fail : exit_code → js_error) (r : reply) : option js_error :=
  match r with
  | RProc _ _ code => if decide (code = Some 0%Z) then None else Some (fail code)
  | _ => Some (fail None)
  end.

(** A prefix that only logs does not change what a program returns. *)
Lemma run_quiet_bind {A} (E : env) (p : prog unit) (q : prog A) (w : world) :
  no_throw p → res_out (run E (p;; q) w) = res_out (run E q (res_world (run E p w))).
Proof.
  intros Hp. destruct (no_throw_run E p w Hp) as [[] Ho]. rewrite run_bind. unfold res_then.
  by rewrite Ho.
Qed.

Lemma log_no_throw (m : string) (tag : option string) : no_throw (log m tag).
Proof. unfold log. auto with backup. Qed.

#[export] Hint Resolve log_no_throw : backup.

Lemma run_log_fs (E : env) (m : string) (tag : option string) (w : world) :
  w_fs (res_world (run E (log m tag) w)) = w_fs w.
Proof. unfold log. by rewrite run_act_. Qed.

Lemma on_exit_out (E : env) (s : string) (f : exit_code → js_error) (r : reply) (w : world) :
  res_out (run E (on_exit s f r) w) = Done (exit_result f r).
Proof.
  unfold on_exit, exit_result. destruct r; try done.
  rewrite !run_quiet_bind by auto with backup. case_decide; [|done].
  by rewrite run_quiet_bind by auto with backup.
Qed.

Lemma perform_spawn_reply (E : env) (f : string) (args : list string) (cwd : option string) (w : world) :
  (perform E (ASpawn f args cwd) w).2 = (env_spawn E f args cwd (w_fs w)).2.
Proof. unfold perform. by destruct (env_spawn E f args cwd (w_fs w)). Qed.

(** C23. [compressDirectory] spawns [tar -zcf output input] in the
    working directory and calls back with no error exactly when [tar]
    exits with code 0, and with [Tar exited with code c] otherwise. *)
Theorem compressDirectory_result (E : env) (d i o : string) (w : world) :
  ASpawn "tar" ["-zcf"; o; i] (Some d) ∈ res_trace (run E (compressDirectory d i o) w) ∧
  res_out (run E (compressDirectory d i o) w) =
    Done (exit_result TarExited (env_spawn E "tar" ["-zcf"; o; i] (Some d) (w_fs w)).2).
Proof.
  split.
  - unfold compressDirectory. rewrite run_log_trace, run_act_trace. set_solver.
  - unfold compressDirectory. rewrite run_quiet_bind, run_act_out, perform_spawn_reply, run_log_fs
      by auto with backup.
    unfold exit_result. destruct (env_spawn _ _ _ _ _).2; try done.
    rewrite run_quiet_bind by auto with backup. case_decide; [|done].
    by rewrite run_quiet_bind by auto with backup.
Qed.

(** C22. [mysqlDump] creates the output directory when it does not exist,
    runs its command line in the shell, and calls back with no error
    exactly when the command exits with code 0, and with [Mysqldump exited
    with code c] otherwise. *)
Theorem mysqlDump_result (E : env) (o : db_options) (d : string) (w : world) :
  let fs1 := if bool_decide (d ∈ w_fs w) then w_fs w else {[d]} ∪ w_fs w in
  (d ∉ w_fs w → AMkdirSync d ∈ res_trace (run E (mysqlDump o d) w)) ∧
  AExec (mysql_cmd o d) ∈ res_trace (run E (mysqlDump o d) w) ∧
  res_out (run E (mysqlDump o d) w) =
    Done (exit_result MysqldumpExited (sh_exec E (mysql_cmd o d) fs1).2).
Proof.
  intros fs1. unfold mysqlDump. split_and!.
  - intros Hd. rewrite run_log_trace, run_act_trace. cbn [perform tick w_fs].
    rewrite bool_decide_false by done. cbn [snd]. rewrite run_act_bind_trace. set_solver.
  - rewrite run_log_trace, run_act_trace. cbn [perform tick w_fs].
    destruct (bool_decide (d ∈ w_fs w)); cbn [snd]; [rewrite bind_mret_l|rewrite run_act_bind_trace];
      rewrite run_log_trace, run_act_trace; set_solver.
  - rewrite run_quiet_bind, run_act_out by auto with backup. cbn [perform tick w_fs fst snd].
    rewrite run_log_fs. unfold fs1. destruct (bool_decide (d ∈ w_fs w)); [rewrite bind_mret_l|];
      rewrite ?run_quiet_bind, run_act_out, perform_exec, ?run_log_fs by auto with backup;
      cbn [snd]; rewrite on_exit_out; rewrite ?run_log_fs, ?run_act_; done.
Qed.

(** C17. For a named database and no credentials, [mongoDump] spawns
    [mongodump -h host:port -o db -o directory]: the database name is
    passed as an output directory, so no option selects the database. *)
Theorem mongoDump_spawn_named (E : env) (o : db_options) (directory : string) (w : world) :
  names_one_db (o_db o) = true → credentials o = None →
  res_trace (run E (mongoDump o directory) w) =
  ALog (log_line ("Starting mongodump of " +:+ o_db o) (Some "info")) ::
  ASpawn "mongodump" ["-h"; o_host o +:+ ":" +:+ o_port o; "-o"; o_db o; "-o"; directory] None ::
  res_trace (run E (on_exit "mongodump executed successfully" MongodumpExited
                      (perform E (ASpawn "mongodump" (mongo_args o directory) None)
                         (tick E (ALog (log_line ("Starting mongodump of " +:+ o_db o) (Some "info"))) w)).2)
                   (perform E (ASpawn "mongodump" (mongo_args o directory) None)
                      (tick E (ALog (log_line ("Starting mongodump of " +:+ o_db o) (Some "info"))) w)).1).
Proof.
  intros Hn Hc. unfold mongoDump. rewrite run_log_trace, run_act_trace.
  assert (mongo_args o directory = ["-h"; o_host o +:+ ":" +:+ o_port o; "-o"; o_db o; "-o"; directory])
    as Ha by (unfold mongo_args; by rewrite Hn, Hc).
  by rewrite <- Ha.
Qed.

Example mongoDump_spawn_named_witness :
  ∃ tr, res_trace (run demo_E (mongoDump (DbOptions "localhost" "27017" None None "app") "/tmp/mongodb_s3_backup")
                     (demo_world [] demo_s3config)) =
        ALog (log_line "Starting mongodump of app" (Some "info")) ::
        ASpawn "mongodump" ["-h"; "localhost:27017"; "-o"; "app"; "-o"; "/tmp/mongodb_s3_backup"] None :: tr.
Proof. eexists. apply mongoDump_spawn_named; reflexivity. Defined.

(** C18. For the default database ["all"] and no credentials, [mongoDump]
    spawns [mongodump -h host:port -o directory/all/]: no database option,
    and the dump goes to the [all] subfolder. *)
Theorem mongoDump_spawn_all (E : env) (o : db_options) (directory : string) (w : world) :
  o_db o = "all" → credentials o = None →
  ASpawn "mongodump" ["-h"; o_host o +:+ ":" +:+ o_port o; "-o"; directory +:+ "/all/"] None
    ∈ res_trace (run E (mongoDump o directory) w).
Proof.
  intros Hn Hc. unfold mongoDump. rewrite run_log_trace, run_act_trace.
  assert (mongo_args o directory = ["-h"; o_host o +:+ ":" +:+ o_port o; "-o"; directory +:+ "/all/"])
    as Ha by (unfold mongo_args, names_one_db; rewrite Hn, Hc; by rewrite bool_decide_false by naive_solver).
  rewrite Ha. set_solver.
Qed.

Example mongoDump_spawn_all_witness :
  ASpawn "mongodump" ["-h"; "localhost:27017"; "-o"; "/tmp/mongodb_s3_backup" +:+ "/all/"] None
    ∈ res_trace (run demo_E (mongoDump (DbOptions "localhost" "27017" None None "all") "/tmp/mongodb_s3_backup")
                   (demo_world [] demo_s3config)).
Proof. apply (mongoDump_spawn_all _ (DbOptions "localhost" "27017" None None "all")); reflexivity. Defined.

(** C24. With credentials, [mysqlDump] logs its whole command line, the
    password included, and that command passes the password as a separate
    word after [-p]. *)
Theorem mysqlDump_logs_password (E : env) (o : db_options) (directory u p : string) (w : world) :
  credentials o = Some (u, p) →
  (∃ pre post, mysql_cmd o directory = pre +:+ " -u " +:+ u +:+ " -p " +:+ p +:+ post) ∧
  ALog (log_line (mysql_cmd o directory) None) ∈ res_trace (run E (mysqlDump o directory) w).
Proof.
  intros Hc. split.
  - unfold mysql_cmd, mysql_options. rewrite Hc.
    exists ("mysqldump " +:+ " -h " +:+ o_host o +:+ " -P " +:+ o_port o +:+ " " +:+
            (if names_one_db (o_db o) then o_db o else "--all-databases")),
           (" > " +:+ directory +:+ "/" +:+ o_db o).
    by rewrite !str_app_assoc.
  - unfold mysqlDump. rewrite run_log_trace, run_act_trace. cbn [perform].
    destruct (bool_decide (directory ∈ _)); cbn [snd]; [rewrite bind_mret_l|rewrite run_act_bind_trace];
      rewrite run_log_trace; set_solver.
Qed.

Example mysqlDump_logs_password_witness :
  let o := DbOptions "localhost" "3306" (Some "root") (Some "s3cret") "shop" in
  (∃ pre post, mysql_cmd o "/tmp/mysql_s3_backup" = pre +:+ " -u " +:+ "root" +:+ " -p " +:+ "s3cret" +:+ post) ∧
  ALog (log_line (mysql_cmd o "/tmp/mysql_s3_backup") None)
    ∈ res_trace (run demo_E (mysqlDump o "/tmp/mysql_s3_backup") (demo_world [] demo_s3config)).
Proof. apply mysqlDump_logs_password. reflexivity. Defined.

(** ** The command line of [mysqlDump], word by word *)

(** The words [mysqlOptions] adds for the credentials. *)
Definition mysql_cred_words (o : db_options) : list string :=
  match credentials o with Some (u, p) => ["-u"; u; "-p"; p] | None => [] end.

(** For a named database [x > f], the command line is the words below,
    joined with spaces (the empty word is the double space after
    [mysqldump]). *)
Lemma mysql_cmd_join (o : db_options) (directory x f : string) :
  o_db o = x +:+ " > " +:+ f → names_one_db (o_db o) = true →
  mysql_cmd o directory =
  js_join " " (["mysqldump"; ""; "-h"; o_host o; "-P"; o_port o; x; ">"; f] ++ mysql_cred_words o ++
               [">"; directory +:+ "/" +:+ x; ">"; f]).
Proof.
  intros Hdb Hn. unfold mysql_cmd, mysql_options, mysql_cred_words. rewrite Hn, Hdb.
  destruct (credentials o) as [[u p]|]; cbn [app js_join]; rewrite <- ?str_app_assoc; reflexivity.
Qed.

(** ** What [mongodump] does with the options [mongoDump] gives it *)

Lemma perform_spawn_fs (E : env) (f : string) (args : list string) (cwd : option string) (w : world) :
  w_fs (perform E (ASpawn f args cwd) w).1 = (env_spawn E f args cwd (w_fs w)).1.
Proof. unfold perform. by destruct (env_spawn E f args cwd (w_fs w)). Qed.

(** A program that only logs leaves the disk as it is. *)
Lemma run_logs_fs {A} (E : env) (p : prog A) (w : world) :
  acts_in (λ a, ∃ l, a = ALog l) p → w_fs (res_world (run E p w)) = w_fs w.
Proof.
  intros Hp. revert w. induction Hp as [a|e|a k [l ->] Hk IH]; intros w; [done|done|].
  cbn [run]. rewrite perform_log. specialize (IH RUnit (tick E (ALog l) w)).
  destruct (run E (k RUnit) _). exact IH.
Qed.

Lemma on_exit_logs (s : string) (f : exit_code → js_error) (r : reply) :
  acts_in (λ a, ∃ l, a = ALog l) (on_exit s f r).
Proof. unfold on_exit, log. case_match; solve_prog; try apply log_chunks_acts; eauto. Qed.

(** The last [-o]: the value after the last occurrence of the flag. *)
Lemma last_opt_snoc (flag v : string) (l : list string) : last_opt flag (l ++ [flag; v]) = Some v.
Proof.
  induction l as [|a l IH]; cbn [app last_opt].
  - destruct (decide (v = flag)); cbn; by rewrite decide_True.
  - by rewrite IH.
Qed.

Lemma last_opt_none (flag : string) (l : list string) :
  Forall (λ a, a ≠ flag) l → last_opt flag l = None.
Proof. induction 1 as [|a l Ha _ IH]; cbn [last_opt]; [done|]. rewrite IH. by case_decide. Qed.

(** The mongodump options of a named database without credentials. *)
Lemma mongo_args_named (o : db_options) (directory : string) :
  names_one_db (o_db o) = true → credentials o = None →
  mongo_args o directory = ["-h"; o_host o +:+ ":" +:+ o_port o; "-o"; o_db o; "-o"; directory].
Proof. intros Hn Hc. unfold mongo_args. by rewrite Hn, Hc. Qed.

(** C15. [mongoDump] gives the database name to [-o], an output folder
    that the second [-o directory] overrides, and no [-d]: run against a
    [mongodump] that behaves as documented on a server holding the
    databases [dbs] ([mongodump_model]), a dump of one named database
    (no credentials) reports success and writes the dump folder of every
    database of the server into [directory]. *)
Theorem mongoDump_dumps_every_db (E : env) (o : db_options) (directory : string) (dbs : list string)
    (w : world) :
  names_one_db (o_db o) = true → credentials o = None → o_db o ≠ "-d" → directory ≠ "-d" →
  (∀ args fs, env_spawn E "mongodump" args None fs = mongodump_model dbs (Some 0%Z) args fs) →
  res_out (run E (mongoDump o directory) w) = Done None ∧
  ∀ d, d ∈ dbs → path_join [directory; d] ∈ w_fs (res_world (run E (mongoDump o directory) w)).
Proof.
  intros Hn Hc Hd Hdir Hspawn.
  assert (o_host o +:+ ":" +:+ o_port o ≠ "-d") as Hhp.
  { intros Heq. apply (f_equal (str_mem ":"%char)) in Heq. rewrite !str_mem_app in Heq.
    destruct (str_mem ":"%char (o_host o)); done. }
  assert (mongodump_model dbs (Some 0%Z) (mongo_args o directory) =
          λ fs, ({[path_join [directory]]} ∪ list_to_set (map (λ d, path_join [directory; d]) dbs) ∪ fs,
                 RProc [] [] (Some 0%Z))) as Hm.
  { rewrite mongo_args_named by done. unfold mongodump_model.
    change ["-h"; o_host o +:+ ":" +:+ o_port o; "-o"; o_db o; "-o"; directory]
      with (["-h"; o_host o +:+ ":" +:+ o_port o; "-o"; o_db o] ++ ["-o"; directory]).
    rewrite last_opt_snoc, last_opt_none by (repeat constructor; done). done. }
  unfold mongoDump, log. rewrite run_bind, run_act_, res_then_done.
  pose proof (run_act_parts E (ASpawn "mongodump" (mongo_args o directory) None)
                (on_exit "mongodump executed successfully" MongodumpExited)
                (perform E (ALog (log_line ("Starting mongodump of " +:+ o_db o) (Some "info"))) w).1) as Hr.
  pose proof (perform_spawn_fs E "mongodump" (mongo_args o directory) None
                (perform E (ALog (log_line ("Starting mongodump of " +:+ o_db o) (Some "info"))) w).1) as Hfs.
  pose proof (perform_spawn_reply E "mongodump" (mongo_args o directory) None
                (perform E (ALog (log_line ("Starting mongodump of " +:+ o_db o) (Some "info"))) w).1) as Hrp.
  rewrite Hspawn, Hm in Hfs, Hrp.
  destruct (perform E (ASpawn _ _ _) _) as [w1 r1]. cbn [fst snd] in Hfs, Hrp. subst r1.
  destruct Hr as (Hw & _ & Ho). cbn [res_out res_world]. rewrite Hw, Ho, on_exit_out.
  split; [reflexivity|]. intros d Hdin.
  rewrite run_logs_fs, Hfs by apply on_exit_logs.
  apply elem_of_union_l, elem_of_union_r, elem_of_list_to_set, list_elem_of_In, in_map_iff.
  exists d. split; [done|]. by apply list_elem_of_In.
Qed.

Example mongoDump_dumps_every_db_witness :
  let r := run demo_E (mongoDump (DbOptions "localhost" "27017" None None "app") "/tmp/mongodb_s3_backup")
                (demo_world [] demo_s3config) in
  res_out r = Done None ∧
  ∀ d, d ∈ ["app"; "admin"; "logs"] → path_join ["/tmp/mongodb_s3_backup"; d] ∈ w_fs (res_world r).
Proof. apply mongoDump_dumps_every_db; [reflexivity|reflexivity|done|done|reflexivity]. Defined.
