(* ===== verification/Sync.v ===== *)
(** * Sync: [syncMongo] and [syncMySQL] ([src/index.js], lines 294-406)

    [async.series(tasks, done)] runs the tasks one after the other and
    calls [done] with the first error, skipping the rest ([series]).  For
    each database name, [syncMongo] and [syncMySQL] build a job: read the
    clock for the archive name, register the cleanup listener on the
    domain, run the pre-cleanup, the dump, the compression and the upload
    in series, log the outcome, run the cleanup again and call the
    caller's [callback(err)].  The two functions differ only in the
    temporary folder's name, the dump function, and [syncMySQL]'s refusal
    of names containing [;]: the class [DumpAdapter] states what the
    orchestrator needs of a dump function, with its two instances;
    [Pipeline] writes the job once against it ([backup_job]) and proves
    [syncMongo_job]/[syncMySQL_job] are that job at the two instances.

    [syncMongo]/[syncMySQL] are the lists of jobs one call starts, one per
    name of [dbs]; [run_in_turn] is the schedule in which each job runs to
    its end before the next starts; [EventLoop] runs them interleaved.
    The theorems here are about [syncMySQL]'s guard: it skips exactly
    the names that contain [;], and it lets through a name [x > f],
    whose redirection the shell then performs when [mysqlDump] runs its
    command line. *)

From S2P Require Import Prelude JsLib JsDate ArchiveName Effects Logger Tasks.

(** ** [async.series] and [async.apply] *)

Fixpoint series (tasks : list task) : task :=
  match tasks with
  | [] => mret None
  | t :: ts => err ← t; match err with Some e => mret (Some e) | None => series ts end
  end.

(** ** The caller's configuration *)

(** [mongodbConfig]/[mysqlConfig]: [dbs] may be absent. *)
Record src_config := SrcConfig {
  c_host : string;
  c_port : string;
  c_username : option string;
  c_password : option string;
  c_dbs : option (list string)
}.

(** [config.dbs = config.dbs || ['all']]: an absent list is [['all']]; an
    empty array is truthy and stays empty. *)
Definition dbs_or_all (c : src_config) : list string :=
  match c_dbs c with Some l => l | None => ["all"] end.

Definition job_options (c : src_config) (db : string) : db_options :=
  DbOptions (c_host c) (c_port c) (c_username c) (c_password c) db.

(** [callback(err)]. *)
Definition user_callback (err : option js_error) : prog unit := act_ (ACallback err).

(** The [Date] that [new Date()] replied. *)
Definition reply_date (r : reply) : js_date :=
  match r with RDate d => d | _ => JsDate 0 0 end.

(** ** The job of [syncMongo] for one database (lines 297-340) *)

Definition syncMongo_job (c : src_config) (osTmp db : string) : prog unit :=
  let tmpDir := path_join [osTmp; "mongodb_s3_backup"] in
  let backupDir := path_join [tmpDir; db] in
  Act ANow (λ r,
    let archiveName := getArchiveName db (reply_date r) in
    let tmpDirCleanupFns := [removeRF backupDir; removeRF (path_join [tmpDir; archiveName])] in
    act_ (AOnError tmpDir db archiveName);;
    err ← series (tmpDirCleanupFns ++
                  [mongoDump (job_options c db) tmpDir;
                   compressDirectory tmpDir db archiveName;
                   sendToS3 tmpDir archiveName]);
    (match err with
     | Some e => log (error_string e) (Some "error")
     | None => log ("Successfully backed up " +:+ db) None
     end);;
    _ ← series tmpDirCleanupFns;
    user_callback err).

(** ** The job of [syncMySQL] for one database (lines 357-404) *)

(** [db.indexOf(';') > -1]: the name is skipped. *)
Definition mysql_rejects (db : string) : bool := bool_decide (js_indexOf_char ";"%char db > -1)%Z.

Definition syncMySQL_job (c : src_config) (osTmp db : string) : prog unit :=
  if mysql_rejects db then mret () else
  let tmpDir := path_join [osTmp; "mysql_s3_backup"] in
  let backupDir := path_join [tmpDir; db] in
  Act ANow (λ r,
    let archiveName := getArchiveName db (reply_date r) in
    let tmpDirCleanupFns := [removeRF backupDir; removeRF (path_join [tmpDir; archiveName])] in
    act_ (AOnError tmpDir db archiveName);;
    err ← series (tmpDirCleanupFns ++
                  [mysqlDump (job_options c db) tmpDir;
                   compressDirectory tmpDir db archiveName;
                   sendToS3 tmpDir archiveName]);
    (match err with
     | Some e => log (error_string e) (Some "error")
     | None => log ("Successfully backed up " +:+ db) None
     end);;
    _ ← series tmpDirCleanupFns;
    user_callback err).

(** [syncMongo(mongodbConfig, s3Config, callback)] and
    [syncMySQL(mysqlConfig, s3Config, callback)]: the jobs they start,
    one per name of [dbs]; [osTmp] is [require('os').tmpDir()]. *)
Definition syncMongo (c : src_config) (osTmp : string) : list (prog unit) :=
  map (syncMongo_job c osTmp) (dbs_or_all c).

Definition syncMySQL (c : src_config) (osTmp : string) : list (prog unit) :=
  map (syncMySQL_job c osTmp) (dbs_or_all c).

(** ** What the generic orchestrator needs of a dump function *)

(** What the orchestrator needs of a dump adapter: its temporary folder's
    name, the dump function, the names it refuses, and two laws: the dump
    only logs, tests for files, runs shell commands or spawns its tool,
    and it always calls back. *)
Class DumpAdapter := {
  da_folder : string;
  da_dump : db_options → string → task;
  da_rejects : string → bool;
  da_dump_acts : ∀ o d, acts_in dump_action (da_dump o d);
  da_dump_no_throw : ∀ o d, no_throw (da_dump o d)
}.

(** One schedule of a call's jobs: each runs to its end before the next
    starts. *)
Fixpoint run_in_turn (jobs : list (prog unit)) : prog unit :=
  match jobs with
  | [] => mret ()
  | j :: js => j;; run_in_turn js
  end.

#[export] Instance mongo_adapter : DumpAdapter := {
  da_folder := "mongodb_s3_backup";
  da_dump := mongoDump;
  da_rejects := λ _, false;
  da_dump_acts := mongoDump_acts;
  da_dump_no_throw := mongoDump_no_throw
}.

#[export] Instance mysql_adapter : DumpAdapter := {
  da_folder := "mysql_s3_backup";
  da_dump := mysqlDump;
  da_rejects := mysql_rejects;
  da_dump_acts := mysqlDump_acts;
  da_dump_no_throw := mysqlDump_no_throw
}.

(** C14. [syncMySQL] skips exactly the names that contain [;]: for such a
    name the job does nothing at all (no clock read, no file touched, no
    callback), and any other name starts a job. *)
Theorem syncMySQL_job_skips (E : env) (c : src_config) (osTmp db : string) (w : world) :
  run E (syncMySQL_job c osTmp db) w = Result w [] (Done ()) ↔ str_mem ";"%char db = true.
Proof.
  unfold syncMySQL_job, mysql_rejects. rewrite <- js_indexOf_char_found.
  case_bool_decide as Hr; [by rewrite run_ret|].
  split; [|done]. cbn [run]. destruct (perform E ANow w) as [w1 r].
  by destruct (run E _ w1).
Qed.

Example syncMySQL_job_skips_witness :
  run demo_E (syncMySQL_job (SrcConfig "localhost" "3306" None None None) "/tmp" "shop;rm -rf /")
      (demo_world [] demo_s3config) = Result (demo_world [] demo_s3config) [] (Done ()).
Proof. apply syncMySQL_job_skips. reflexivity. Defined.

(** Close [Forall] goals over lists of words from the hypotheses. *)
Local Ltac forall_words := repeat (first [apply Forall_app; split | constructor]); done.

(** C13. The guard of [syncMySQL] only looks for [;], while the name is
    pasted into the [mysqldump] shell command: for a database name
    [x > f] made of plain words and any host, port, credentials and
    folder that are plain words, the guard lets the name through and the
    shell creates (or truncates) the file [f] before [mysqldump] runs,
    wherever [f] is, and runs [mysqldump] without the redirection
    words, whatever [mysqldump] then does. *)
Theorem syncMySQL_redirect_writes_file (E : env) (o : db_options) (directory x f : string)
    (fs : gset string) :
  o_db o = x +:+ " > " +:+ f →
  Forall shell_word [o_host o; o_port o; x; f; directory] → Forall shell_word (mysql_cred_words o) →
  mysql_rejects (o_db o) = false ∧
  sh_exec E (mysql_cmd o directory) fs =
    env_cmd E (["mysqldump"; "-h"; o_host o; "-P"; o_port o; x] ++ mysql_cred_words o)
              ({[f]} ∪ ({[directory +:+ "/" +:+ x]} ∪ ({[f]} ∪ fs))).
Proof.
  intros Hdb Hw Hc.
  pose proof (shell_words_facts _ Hw) as (Hne & Hsp & Hsc & Hgt).
  pose proof (shell_words_facts _ Hc) as (Cne & Csp & Csc & Cgt).
  rewrite !Forall_cons in Hne, Hsp, Hsc, Hgt.
  destruct Hne as (? & ? & ? & ? & ? & _), Hsp as (? & ? & Hxs & Hfs & Hds & _),
    Hsc as (? & ? & Hx & Hf & Hd & _), Hgt as (? & ? & ? & ? & _ & _).
  assert (str_mem ";"%char (o_db o) = false) as Hsemi by (rewrite Hdb, !str_mem_app, Hx, Hf; done).
  split.
  { unfold mysql_rejects. apply bool_decide_eq_false_2. rewrite js_indexOf_char_found. congruence. }
  assert (names_one_db (o_db o) = true) as Hn.
  { unfold names_one_db. apply bool_decide_eq_true_2. rewrite Hdb.
    split; intros Heq; apply (f_equal (str_mem " "%char)) in Heq; rewrite !str_mem_app, Hxs in Heq; done. }
  rewrite (mysql_cmd_join o directory x f Hdb Hn).
  assert (str_mem " "%char (directory +:+ "/" +:+ x) = false) by (rewrite !str_mem_app, Hds, Hxs; done).
  assert (str_mem ";"%char (directory +:+ "/" +:+ x) = false) by (rewrite !str_mem_app, Hd, Hx; done).
  assert (directory +:+ "/" +:+ x ≠ "") by (intros Heq; destruct directory; done).
  assert (directory +:+ "/" +:+ x ≠ ">").
  { intros Heq. apply (f_equal (str_mem "/"%char)) in Heq. rewrite !str_mem_app in Heq.
    destruct (str_mem "/"%char directory); done. }
  rewrite sh_exec_single by (apply str_mem_js_join; [done|]; forall_words).
  rewrite shell_words_join by (done || forall_words).
  rewrite filter_app, filter_cons_True by done.
  rewrite filter_cons_False by (intros Hne'; by apply Hne').
  rewrite (filter_nonempty_id (_ :: _)), filter_nonempty_id by forall_words.
  unfold run_simple.
  change (["mysqldump"; "-h"; o_host o; "-P"; o_port o; x; ">"; f] ++ ?rest)
    with (["mysqldump"; "-h"; o_host o; "-P"; o_port o; x] ++ ">" :: f :: rest).
  rewrite take_redirect_words, take_redirect_gt, take_redirect_words
    by (done || forall_words).
  rewrite take_redirect_gt, take_redirect_gt. cbn [take_redirect fst snd]. rewrite app_nil_r.
  reflexivity.
Qed.

Example syncMySQL_redirect_writes_file_witness :
  let o := DbOptions "localhost" "3306" None None "shop > /etc/cron.d/backdoor" in
  mysql_rejects (o_db o) = false ∧
  sh_exec demo_E (mysql_cmd o "/tmp/mysql_s3_backup") ∅ =
    env_cmd demo_E (["mysqldump"; "-h"; o_host o; "-P"; o_port o; "shop"] ++ mysql_cred_words o)
              ({["/etc/cron.d/backdoor"]} ∪ ({["/tmp/mysql_s3_backup" +:+ "/" +:+ "shop"]} ∪
               ({["/etc/cron.d/backdoor"]} ∪ ∅))).
Proof. apply syncMySQL_redirect_writes_file; [reflexivity|decide_by_compute..]. Defined.
