(* ===== verification/Pipeline.v ===== *)
(** * Pipeline: what one backup job does

    The job of [syncMongo]/[syncMySQL] written once against the
    [DumpAdapter] interface of [Sync] ([backup_job], [job_body]), with
    the lemma that the source's two copies are this job at the two
    adapters ([sync_is_generic_launch]).  The theorems, proved once for
    both: a failed dump stops the stages after it; an upload S3 rejects
    ends in the callback with the bad status; the caller's callback is
    called exactly once and last, with the first stage's error; the
    post-cleanup removes the dump folder and the archive, nothing else,
    and stops at its first failing removal; where the cleanup removes
    files (inside the temporary folder for plain names, the whole OS
    temporary folder for [syncMySQL]'s name [..]); and, for the jobs of
    one call taking turns, one callback per database. *)

From S2P Require Import Prelude JsLib JsDate ArchiveName Effects Logger Tasks Sync.

(** ** The orchestrator, generic in the dump function

    [backup_job] is the job of [syncMongo]/[syncMySQL] written once
    against the [DumpAdapter] interface; [launch] is the jobs of one
    call. *)

Section Job.
Context `{DA : DumpAdapter}.

(** The series of stages of one job, after the names are computed. *)
Definition job_cleanup (tmpDir db archiveName : string) : list task :=
  [removeRF (path_join [tmpDir; db]); removeRF (path_join [tmpDir; archiveName])].

Definition job_stages (c : src_config) (tmpDir db archiveName : string) : list task :=
  job_cleanup tmpDir db archiveName ++
  [da_dump (job_options c db) tmpDir;
   compressDirectory tmpDir db archiveName;
   sendToS3 tmpDir archiveName].

(** The line logged when the stages have settled. *)
Definition outcome_log (db : string) (err : option js_error) : prog unit :=
  match err with
  | Some e => log (error_string e) (Some "error")
  | None => log ("Successfully backed up " +:+ db) None
  end.

Definition job_body (c : src_config) (tmpDir db : string) (date : js_date) : prog unit :=
  let archiveName := getArchiveName db date in
  err ← series (job_stages c tmpDir db archiveName);
  outcome_log db err;;
  _ ← series (job_cleanup tmpDir db archiveName);
  user_callback err.

Definition backup_job (c : src_config) (osTmp db : string) : prog unit :=
  if da_rejects db then mret () else
  Act ANow (λ r,
  act_ (AOnError (path_join [osTmp; da_folder]) db (getArchiveName db (reply_date r)));;
  job_body c (path_join [osTmp; da_folder]) db (reply_date r)).

(** [config.dbs.forEach(...)]: the jobs one call starts. *)
Definition launch (c : src_config) (osTmp : string) : list (prog unit) :=
  map (backup_job c osTmp) (dbs_or_all c).
End Job.

(** ** [series] *)

Lemma result_eta {A} (r : result A) : Result (res_world r) (res_trace r) (res_out r) = r.
Proof. by destruct r. Qed.

Lemma res_then_ext {A B} (E : env) (r : result A) (f g : A → prog B) :
  (∀ a w, run E (f a) w = run E (g a) w) → res_then E r f = res_then E r g.
Proof. intros H. destruct r as [w tr [a|e]]; unfold res_then; simpl; [by rewrite H|done]. Qed.

Lemma res_then_assoc {A B C} (E : env) (r : result A) (f : A → prog B) (g : B → prog C) :
  res_then E (res_then E r f) g = res_then E r (λ a, f a ≫= g).
Proof.
  destruct r as [w tr [a|e]]; unfold res_then; simpl; [|done].
  rewrite run_bind. unfold res_then. destruct (run E (f a) w) as [w' tr' [b|e']]; simpl; [|done].
  by rewrite app_assoc.
Qed.

(** What [series] does after a task settles. *)
Definition series_k (ts : list task) (err : option js_error) : task :=
  match err with Some e => mret (Some e) | None => series ts end.

Lemma run_series_cons (E : env) (t : task) (ts : list task) (w : world) :
  run E (series (t :: ts)) w = res_then E (run E t w) (series_k ts).
Proof. apply run_bind. Qed.

Lemma run_series_app (E : env) (l1 l2 : list task) (w : world) :
  run E (series (l1 ++ l2)) w = res_then E (run E (series l1) w) (series_k l2).
Proof.
  revert w. induction l1 as [|t l1 IH]; intros w.
  - simpl. unfold res_then. simpl. by rewrite result_eta.
  - rewrite <- app_comm_cons, !run_series_cons, res_then_assoc.
    apply res_then_ext. intros [e|] w'; simpl; [done|]. by rewrite IH, run_bind.
Qed.

Lemma series_acts (P : action → Prop) (ts : list task) :
  Forall (acts_in P) ts → acts_in P (series ts).
Proof.
  induction 1; simpl; [auto with backup|]. apply acts_in_bind; [done|]. intros [|]; auto with backup.
Qed.

Lemma series_throws (P : js_error → Prop) (ts : list task) :
  Forall (throws_in P) ts → throws_in P (series ts).
Proof.
  induction 1; simpl; [auto with backup|]. apply throws_in_bind; [done|]. intros [|]; auto with backup.
Qed.

#[export] Hint Resolve series_acts series_throws : backup.

(** A series whose prefix succeeds and whose next task fails stops there. *)
Lemma run_series_stop (E : env) (l1 l2 : list task) (t : task) (w w1 w2 : world)
    (tr1 tr2 : list action) (e : js_error) :
  run E (series l1) w = Result w1 tr1 (Done None) →
  run E t w1 = Result w2 tr2 (Done (Some e)) →
  run E (series (l1 ++ t :: l2)) w = Result w2 (tr1 ++ tr2) (Done (Some e)).
Proof.
  intros H1 H2. rewrite run_series_app, H1. unfold res_then. cbn [res_out res_world res_trace series_k].
  rewrite run_series_cons, H2. unfold res_then. cbn. by rewrite app_nil_r.
Qed.

(** A series whose prefix and next task succeed goes on. *)
Lemma run_series_snoc (E : env) (l1 : list task) (t : task) (w w1 w2 : world)
    (tr1 tr2 : list action) :
  run E (series l1) w = Result w1 tr1 (Done None) →
  run E t w1 = Result w2 tr2 (Done None) →
  run E (series (l1 ++ [t])) w = Result w2 (tr1 ++ tr2) (Done None).
Proof.
  intros H1 H2. rewrite run_series_app, H1. unfold res_then. cbn [res_out res_world res_trace series_k].
  rewrite run_series_cons, H2. unfold res_then. cbn. by rewrite app_nil_r.
Qed.

Lemma filter_callback_none (tr : list action) :
  Forall (λ a, is_callback a = false) tr → List.filter is_callback tr = [].
Proof. induction 1 as [|a tr Ha _ IH]; simpl; [done|]. by rewrite Ha. Qed.


(** ** One job *)

(** The line [outcome_log] logs. *)
Definition outcome_line (db : string) (err : option js_error) : string :=
  match err with
  | Some e => log_line (error_string e) (Some "error")
  | None => log_line ("Successfully backed up " +:+ db) None
  end.

Lemma outcome_log_act (db : string) (err : option js_error) :
  outcome_log db err = act_ (ALog (outcome_line db err)).
Proof. by destruct err. Qed.

Lemma job_cleanup_acts (tmpDir db an : string) :
  acts_in dump_action (series (job_cleanup tmpDir db an)).
Proof. apply series_acts. unfold job_cleanup. forall_cons; apply removeRF_acts. Qed.

Lemma job_cleanup_no_throw (tmpDir db an : string) : no_throw (series (job_cleanup tmpDir db an)).
Proof. apply series_throws. unfold job_cleanup. forall_cons; apply removeRF_no_throw. Qed.

(** The post-cleanup, when [rm] can remove both paths. *)
Lemma job_cleanup_ok (E : env) (tmpDir db an : string) (w : world) :
  shell_safe (path_join [tmpDir; db]) → shell_safe (path_join [tmpDir; an]) →
  env_rm_fails E (path_join [tmpDir; db]) = false → env_rm_fails E (path_join [tmpDir; an]) = false →
  res_out (run E (series (job_cleanup tmpDir db an)) w) = Done None ∧
  w_fs (res_world (run E (series (job_cleanup tmpDir db an)) w)) =
    removeRF_fs E (path_join [tmpDir; an]) (removeRF_fs E (path_join [tmpDir; db]) (w_fs w)).
Proof.
  intros Hs1 Hs2 Hf1 Hf2. unfold job_cleanup. rewrite run_series_cons.
  destruct (removeRF_ok E _ w Hs1 Hf1) as (Ho1 & Hw1 & _).
  destruct (run E (removeRF _) w) as [w1 tr1 o1]. cbn [res_out res_world] in Ho1, Hw1. subst o1.
  unfold res_then. cbn [res_out res_world res_trace series_k]. rewrite run_series_cons.
  destruct (removeRF_ok E _ w1 Hs2 Hf2) as (Ho2 & Hw2 & _).
  destruct (run E (removeRF _) w1) as [w2 tr2 o2]. cbn [res_out res_world] in Ho2, Hw2. subst o2.
  unfold res_then. cbn [res_out res_world res_trace series_k series]. rewrite run_ret.
  cbn [res_out res_world]. by rewrite Hw2, Hw1.
Qed.

Section JobTheorems.
Context `{DA : DumpAdapter} (E : env) (c : src_config) (tmpDir db : string) (date : js_date).

Lemma job_stages_acts (an : string) :
  acts_in (λ a, is_callback a = false) (series (job_stages c tmpDir db an)) ∧
  throws_in upload_error (series (job_stages c tmpDir db an)).
Proof.
split; [apply series_acts | apply series_throws]; unfold job_stages, job_cleanup; cbn [app];
  forall_cons;
  first [ apply (acts_in_mono dump_action); [by intros ? [[]]|];
          first [apply removeRF_acts | apply da_dump_acts]
        | apply (acts_in_mono quiet_action); [by intros ? []|]; apply compressDirectory_acts
        | apply sendToS3_acts
        | apply (throws_in_mono (λ _, False)); [done|];
          first [apply removeRF_no_throw | apply da_dump_no_throw | apply compressDirectory_no_throw]
        | apply sendToS3_throws ].
Qed.

(** The shape of a job's run: the stages' actions, the outcome line,
    the post-cleanup's actions, the callback; or the stages' throw. *)
Lemma job_trace (w : world) :
  let an := getArchiveName db date in
  let rs := run E (series (job_stages c tmpDir db an)) w in
  match res_out rs with
  | Done err =>
      let rc := run E (series (job_cleanup tmpDir db an))
                      (perform E (ALog (outcome_line db err)) (res_world rs)).1 in
      res_out (run E (job_body c tmpDir db date) w) = Done () ∧
      res_trace (run E (job_body c tmpDir db date) w) =
        res_trace rs ++ ALog (outcome_line db err) :: res_trace rc ++ [ACallback err] ∧
      res_world (run E (job_body c tmpDir db date) w) = tick E (ACallback err) (res_world rc)
  | Thrown e => run E (job_body c tmpDir db date) w = Result (res_world rs) (res_trace rs) (Thrown e)
  end.
Proof.
  cbn zeta. unfold job_body. rewrite run_bind.
  destruct (run E (series _) w) as [w0 tr0 [err|e]]; cbn [res_out res_trace res_world res_then];
    [|done].
  rewrite run_bind, outcome_log_act, run_act_. cbn [res_out res_trace res_world res_then].
  rewrite run_bind.
  destruct (no_throw_run E _ (perform E (ALog (outcome_line db err)) w0).1
              (job_cleanup_no_throw tmpDir db (getArchiveName db date))) as [x Hx].
  destruct (run E (series _) _) as [w2 tr2 o2]. cbn [res_out] in Hx. subst o2.
  cbn [res_out res_trace res_world res_then].
  unfold user_callback. rewrite run_act_. cbn [res_out res_trace res_world]. split; [done|].
  split; [|done]. rewrite <- ?app_assoc. reflexivity.
Qed.
(** The callbacks of a job whose stages settled on [err]: one,
    [callback(err)]. *)
Lemma job_callbacks_done (w : world) (err : option js_error) :
  res_out (run E (series (job_stages c tmpDir db (getArchiveName db date))) w) = Done err →
  List.filter is_callback (res_trace (run E (job_body c tmpDir db date) w)) = [ACallback err].
Proof.
  intros Hd. pose proof (job_trace w) as H. cbn zeta in H. rewrite Hd in H.
  destruct H as (_ & -> & _).
  pose proof (acts_in_run _ E _ w (proj1 (job_stages_acts (getArchiveName db date)))) as Hf.
  rewrite List.filter_app, filter_callback_none by done. cbn [List.filter is_callback].
  rewrite List.filter_app, filter_callback_none; [done|].
  eapply Forall_impl; [apply acts_in_run, job_cleanup_acts|]. by intros ? [[]].
Qed.

(** A job that returns called back exactly once. *)
Lemma job_body_callbacks (w : world) :
  res_out (run E (job_body c tmpDir db date) w) = Done () →
  length (List.filter is_callback (res_trace (run E (job_body c tmpDir db date) w))) = 1.
Proof.
  pose proof (job_trace w) as H. cbn zeta in H.
  destruct (res_out (run E (series (job_stages _ _ _ _)) w)) as [err|e] eqn:Hs.
  - intros _. by rewrite (job_callbacks_done w err Hs).
  - rewrite H. done.
Qed.

(** C2. Whatever the stages do, the caller's callback is called exactly
    once, as the job's last action, with the error the stages settled
    on ([None] on success); the only way a job ends without calling
    back is an exception of the upload stage, and then it never calls
    back. *)
Theorem job_callback_once (w : world) :
  let an := getArchiveName db date in
  let r := run E (job_body c tmpDir db date) w in
  match res_out (run E (series (job_stages c tmpDir db an)) w) with
  | Done err =>
      res_out r = Done () ∧ List.filter is_callback (res_trace r) = [ACallback err] ∧
      last (res_trace r) = Some (ACallback err)
  | Thrown e => upload_error e ∧ res_out r = Thrown e ∧ List.filter is_callback (res_trace r) = []
  end.
Proof.
  pose proof (job_trace w) as H. cbn zeta in H |- *.
  pose proof (job_stages_acts (getArchiveName db date)) as [Ha Ht].
  pose proof (acts_in_run _ E _ w Ha) as Hf.
  pose proof (throws_in_run upload_error E
    (series (job_stages c tmpDir db (getArchiveName db date))) w) as Hth.
  destruct (run E (series (job_stages _ _ _ _)) w) as [w0 tr0 [err|e]] eqn:Hs;
    cbn [res_out res_trace res_world] in H, Hf, Hth |- *.
  - pose proof (job_callbacks_done w err) as Hc. rewrite Hs in Hc.
    destruct H as (Ho & Htr & _). rewrite Ho, <- Hc, Htr by done. split; [done|]. split; [done|].
    rewrite app_comm_cons, app_assoc. apply last_snoc.
  - rewrite H. cbn [res_out res_trace]. split; [exact (Hth e Ht eq_refl)|].
    split; [done|]. by apply filter_callback_none.
Qed.

(** C1. A failing dump stops the job: when the pre-cleanup succeeds and
    the dump calls back with an error [e], the job neither runs [tar]
    nor uploads, and its last action is [callback(e)]. *)
Theorem job_dump_failure (w w1 w2 : world) (tr1 tr2 : list action) (e : js_error) :
  run E (series (job_cleanup tmpDir db (getArchiveName db date))) w = Result w1 tr1 (Done None) →
  run E (da_dump (job_options c db) tmpDir) w1 = Result w2 tr2 (Done (Some e)) →
  let r := run E (job_body c tmpDir db date) w in
  res_out r = Done () ∧ last (res_trace r) = Some (ACallback (Some e)) ∧
  Forall (λ a, is_tar a = false ∧ is_put a = false) (res_trace r).
Proof.
  intros H1 H2 r. pose proof (job_trace w) as H. cbn zeta in H.
  assert (run E (series (job_stages c tmpDir db (getArchiveName db date))) w =
          Result w2 (tr1 ++ tr2) (Done (Some e))) as Hs.
  { unfold job_stages. by apply run_series_stop with w1. }
  rewrite Hs in H. cbn [res_out res_trace res_world] in H. destruct H as (Ho & Htr & _).
  unfold r. rewrite Ho, Htr. split; [done|]. split.
  { rewrite app_comm_cons, app_assoc. apply last_snoc. }
  pose proof (acts_in_run _ E _ w (job_cleanup_acts tmpDir db (getArchiveName db date))) as Hc.
  pose proof (acts_in_run _ E _ w1 (da_dump_acts (job_options c db) tmpDir)) as Hd.
  rewrite H1 in Hc. rewrite H2 in Hd. cbn [res_trace] in Hc, Hd.
  assert (∀ tr, Forall dump_action tr → Forall (λ a, is_tar a = false ∧ is_put a = false) tr)
    as Hdump by (intros tr Hall; eapply Forall_impl; [exact Hall|]; intros ? ([? ?] & ? & _); by split).
  rewrite !Forall_app, Forall_cons, Forall_app, Forall_singleton.
  split_and!; try done; apply Hdump; [done|done|].
  apply acts_in_run, job_cleanup_acts.
Qed.

(** C10. An upload that S3 answers with a status other than 200 (the
    specification's 403 test) fails the job: when the pre-cleanup, the
    dump and the compression succeed and [knox] accepts the credentials,
    the job uploads the archive and its last action is the callback with
    [Expected a 200 response from S3, got <status>]. *)
Theorem job_upload_rejected (w w3 : world) (tr3 : list action) (status : Z) (chunks : list string) :
  let an := getArchiveName db date in
  let cfg := w_s3config w3 in
  let dst := path_join [destination_or_root (s3_destination cfg); an] in
  run E (series (job_cleanup tmpDir db an ++ [da_dump (job_options c db) tmpDir;
                                              compressDirectory tmpDir db an])) w =
    Result w3 tr3 (Done None) →
  knox_check cfg = None →
  env_s3 E (s3_bucket cfg) (path_join [tmpDir; an]) dst (sse_headers (s3_encrypt cfg)) (w_fs w3) =
    S3Response status chunks →
  status ≠ 200%Z →
  let r := run E (job_body c tmpDir db date) w in
  res_out r = Done () ∧ last (res_trace r) = Some (ACallback (Some (S3BadStatus status))) ∧
  APutFile (s3_bucket cfg) (path_join [tmpDir; an]) dst (sse_headers (s3_encrypt cfg)) ∈ res_trace r.
Proof.
  intros an cfg dst H3 Hk Hs3 Hst r.
  destruct (sendToS3_put E tmpDir an w3 status chunks Hk Hs3) as [Hput Hout].
  rewrite decide_False in Hout by done.
  destruct (run E (sendToS3 tmpDir an) w3) as [w4 tr4 o4] eqn:H4. cbn [res_out res_trace] in Hout, Hput.
  subst o4.
  assert (run E (series (job_stages c tmpDir db an)) w =
          Result w4 (tr3 ++ tr4) (Done (Some (S3BadStatus status)))) as Hs.
  { unfold job_stages. replace (job_cleanup tmpDir db an ++ [da_dump (job_options c db) tmpDir;
      compressDirectory tmpDir db an; sendToS3 tmpDir an]) with
      ((job_cleanup tmpDir db an ++ [da_dump (job_options c db) tmpDir;
        compressDirectory tmpDir db an]) ++ sendToS3 tmpDir an :: []) by by rewrite <- app_assoc.
    by apply run_series_stop with w3. }
  pose proof (job_trace w) as H. cbn zeta in H. fold an in H. rewrite Hs in H.
  cbn [res_out res_trace res_world] in H. destruct H as (Ho & Htr & _).
  unfold r. rewrite Ho, Htr. split_and!; [done| |set_solver].
  rewrite app_comm_cons, app_assoc. apply last_snoc.
Qed.

(** The disk after a job whose stages settled and whose two paths [rm]
    can remove: the post-cleanup's two removals applied to the disk the
    stages left. *)
Lemma job_post_cleanup_fs (w : world) (err : option js_error) :
  let an := getArchiveName db date in
  shell_safe (path_join [tmpDir; db]) → shell_safe (path_join [tmpDir; an]) →
  env_rm_fails E (path_join [tmpDir; db]) = false → env_rm_fails E (path_join [tmpDir; an]) = false →
  res_out (run E (series (job_stages c tmpDir db an)) w) = Done err →
  w_fs (res_world (run E (job_body c tmpDir db date) w)) =
    removeRF_fs E (path_join [tmpDir; an]) (removeRF_fs E (path_join [tmpDir; db])
      (w_fs (res_world (run E (series (job_stages c tmpDir db an)) w)))).
Proof.
  intros an Hs1 Hs2 Hf1 Hf2 Hd.
  pose proof (job_trace w) as H. cbn zeta in H. fold an in H |- *. rewrite Hd in H.
  destruct H as (_ & _ & ->). cbn [tick w_fs].
  destruct (job_cleanup_ok E tmpDir db an
              (perform E (ALog (outcome_line db err)) (res_world (run E (series (job_stages c tmpDir db an)) w))).1
              Hs1 Hs2 Hf1 Hf2) as [_ ->].
  done.
Qed.

(** C5. After a job whose stages settled, successfully or not, and whose
    two paths [rm] can remove, neither the dump folder nor the archive
    exists, and nothing below the dump folder is left when it existed
    at the end of the stages. *)
Theorem job_post_cleanup_clears (w : world) (err : option js_error) :
  let an := getArchiveName db date in
  shell_safe (path_join [tmpDir; db]) → shell_safe (path_join [tmpDir; an]) →
  env_rm_fails E (path_join [tmpDir; db]) = false → env_rm_fails E (path_join [tmpDir; an]) = false →
  res_out (run E (series (job_stages c tmpDir db an)) w) = Done err →
  let fs_mid := w_fs (res_world (run E (series (job_stages c tmpDir db an)) w)) in
  let fs_end := w_fs (res_world (run E (job_body c tmpDir db date) w)) in
  (path_join [tmpDir; db] ∉ fs_end) ∧ (path_join [tmpDir; an] ∉ fs_end) ∧
  (path_join [tmpDir; db] ∈ fs_mid → ∀ p, under (path_join [tmpDir; db]) p = true → p ∉ fs_end).
Proof.
  intros an Hs1 Hs2 Hf1 Hf2 Hd fs_mid fs_end. subst fs_mid fs_end.
  rewrite (job_post_cleanup_fs w err) by done. split_and!.
  - intros Hin%removeRF_fs_subseteq. revert Hin.
    apply removeRF_fs_gone; [done|apply under_refl|by right].
  - apply removeRF_fs_gone; [done|apply under_refl|by right].
  - intros Hb p Hp Hin%removeRF_fs_subseteq. revert Hin.
    apply removeRF_fs_gone; [done|done|by left].
Qed.

(** C16. The post-cleanup removes the dump folder and the archive and
    nothing else: every path the stages left that is neither at or below
    the dump folder nor at or below the archive is still there when the
    job calls back, such as the dump folders of other databases that
    [mongodump] wrote next to it ([mongoDump_dumps_every_db]). *)
Theorem job_post_cleanup_keeps_others (w : world) (err : option js_error) :
  let an := getArchiveName db date in
  shell_safe (path_join [tmpDir; db]) → shell_safe (path_join [tmpDir; an]) →
  env_rm_fails E (path_join [tmpDir; db]) = false → env_rm_fails E (path_join [tmpDir; an]) = false →
  res_out (run E (series (job_stages c tmpDir db an)) w) = Done err →
  ∀ p, p ∈ w_fs (res_world (run E (series (job_stages c tmpDir db an)) w)) →
  under (path_join [tmpDir; db]) p = false → under (path_join [tmpDir; an]) p = false →
  p ∈ w_fs (res_world (run E (job_body c tmpDir db date) w)).
Proof.
  intros an Hs1 Hs2 Hf1 Hf2 Hd p Hp Hu1 Hu2.
  rewrite (job_post_cleanup_fs w err) by done.
  apply removeRF_fs_keeps; [apply removeRF_fs_keeps|]; done.
Qed.

(** C6. The post-cleanup is an [async.series] too: when [rm] cannot remove
    the dump folder, the archive's removal is skipped and the archive
    stays on the disk, while the callback is still called. *)
Theorem job_post_cleanup_stops_early (w : world) (err : option js_error) :
  let an := getArchiveName db date in
  shell_safe (path_join [tmpDir; db]) → env_rm_fails E (path_join [tmpDir; db]) = true →
  res_out (run E (series (job_stages c tmpDir db an)) w) = Done err →
  let fs_mid := w_fs (res_world (run E (series (job_stages c tmpDir db an)) w)) in
  let r := run E (job_body c tmpDir db date) w in
  path_join [tmpDir; db] ∈ fs_mid → path_join [tmpDir; an] ∈ fs_mid →
  path_join [tmpDir; an] ∈ w_fs (res_world r) ∧ last (res_trace r) = Some (ACallback err).
Proof.
  intros an Hs Hf Hd fs_mid r Hb Ha. subst fs_mid r.
  pose proof (job_trace w) as H. cbn zeta in H. fold an in H |- *. rewrite Hd in H.
  destruct H as (_ & Htr & Hw). rewrite Hw, Htr. split.
  - cbn [tick w_fs]. unfold job_cleanup. rewrite run_series_cons.
    rewrite removeRF_present, Hf by done. unfold res_then. cbn [res_out res_world series_k].
    unfold removeRF_world. rewrite Hf. done.
  - rewrite app_comm_cons, app_assoc. apply last_snoc.
Qed.
End JobTheorems.

(** ** Where a job removes files *)

(** C11. For a temporary root [/s1/.../sn] and a database name that is a
    plain path segment (not empty, not [.] or [..], without [/]), the two
    paths a job's cleanup removes, before and after the stages, are the
    dump folder and the archive, both strictly inside the adapter's
    temporary folder [/s1/.../sn/<folder>]: no cleanup reaches outside
    it. *)
Theorem job_cleanup_confined `{DA : DumpAdapter} (segs : list string) (db : string) (date : js_date) :
  segs ≠ [] → Forall seg_ok segs → seg_ok da_folder → seg_ok db →
  job_cleanup (path_join [abs_path segs; da_folder]) db (getArchiveName db date) =
  [removeRF (abs_path (segs ++ [da_folder; db]));
   removeRF (abs_path (segs ++ [da_folder; getArchiveName db date]))].
Proof.
  intros Hne Hs Hf Hdb. unfold job_cleanup.
  assert (segs ++ [da_folder] ≠ []) by (by destruct segs).
  assert (Forall seg_ok (segs ++ [da_folder])) by (apply Forall_app; auto).
  rewrite !path_join_abs by auto using getArchiveName_seg_ok. by rewrite <- !app_assoc.
Qed.

(** C12. The guard of [syncMySQL] only looks for [;]: for the database
    name [..] the MySQL job's dump folder [path.join(tmpDir, '..')] is the
    OS temporary folder [/s1/.../sn] itself, so the job's cleanup series
    (run before the dump and again after the upload) runs [rm -rf] on the
    OS temporary folder and leaves nothing at or below it, whatever the
    folder and the date. *)
Theorem syncMySQL_dotdot_removes_tmp (E : env) (segs : list string) (date : js_date) (w : world) :
  segs ≠ [] → Forall seg_ok segs → shell_safe (abs_path segs) →
  env_rm_fails E (abs_path segs) = false → abs_path segs ∈ w_fs w →
  let tmpDir := path_join [abs_path segs; "mysql_s3_backup"] in
  let r := run E (series (job_cleanup tmpDir ".." (getArchiveName ".." date))) w in
  mysql_rejects ".." = false ∧ res_out r = Done None ∧
  (AExec ("rm -rf " +:+ abs_path segs) ∈ res_trace r) ∧
  ∀ p, under (abs_path segs) p = true → p ∉ w_fs (res_world r).
Proof.
  intros Hne Hok Hsafe Hrm Hin tmpDir r. subst r. split; [reflexivity|].
  assert (Forall seg_ok (segs ++ ["mysql_s3_backup"])) as Hok'
    by (apply Forall_app; split; [done|repeat constructor; decide_by_compute]).
  assert (tmpDir = abs_path (segs ++ ["mysql_s3_backup"])) as Htmp
    by (apply path_join_abs; [done|done|decide_by_compute]).
  set (an := getArchiveName ".." date).
  assert (path_join [tmpDir; an] = abs_path (segs ++ ["mysql_s3_backup"; an])) as Han.
  { rewrite Htmp, path_join_abs; [by rewrite <- app_assoc|by destruct segs|done|].
    by apply getArchiveName_seg_ok_slash. }
  unfold job_cleanup. rewrite Han, Htmp, path_join_dotdot by (done || decide_by_compute).
  rewrite run_series_cons, removeRF_present, Hrm by done. unfold res_then.
  cbn [res_out res_world res_trace series_k]. rewrite run_series_cons, removeRF_missing.
  2:{ unfold removeRF_world. rewrite Hrm. cbn [w_fs]. rewrite rm_rf_spec, under_abs_path by done. naive_solver. }
  unfold res_then. cbn [res_out res_world res_trace series_k series]. rewrite run_ret.
  cbn [res_out res_world res_trace]. split; [done|]. split; [set_solver|].
  intros p Hp. unfold removeRF_world, tick. cbn [w_fs]. rewrite Hrm, rm_rf_spec. intros [_ Hu]. congruence.
Qed.

(** ** The jobs of one call *)

Section Launch.
Context `{DA : DumpAdapter} (E : env).

(** A job that returns called back exactly once; a rejected name does
    nothing. *)
Lemma backup_job_callbacks (c : src_config) (osTmp db : string) (w : world) :
  res_out (run E (backup_job c osTmp db) w) = Done () →
  length (List.filter is_callback (res_trace (run E (backup_job c osTmp db) w))) =
    (if da_rejects db then 0 else 1).
Proof.
  unfold backup_job. destruct (da_rejects db); [by rewrite run_ret|].
  rewrite run_act_trace, run_act_out, run_bind, run_act_, res_then_done.
  cbn [res_out res_trace app List.filter is_callback]. apply job_body_callbacks.
Qed.

(** C9. On a schedule where the jobs of one call take turns and none
    throws, the caller's callback is called once per database name the
    call accepts, not once per call: never for [dbs: []], twice for two
    names. *)
Theorem launch_callbacks (c : src_config) (osTmp : string) (w : world) :
  res_out (run E (run_in_turn (launch c osTmp)) w) = Done () →
  length (List.filter is_callback (res_trace (run E (run_in_turn (launch c osTmp)) w))) =
    length (List.filter (λ db, negb (da_rejects db)) (dbs_or_all c)).
Proof.
  unfold launch. generalize (dbs_or_all c) as dbs. intros dbs. revert w.
  induction dbs as [|db dbs IH]; intros w; [cbn [map run_in_turn]; by rewrite run_ret|].
  cbn [map run_in_turn]. intros (u & Hj & -> & Hr)%run_bind_done. destruct u.
  rewrite List.filter_app, length_app, backup_job_callbacks, IH by done.
  cbn [List.filter]. by destruct (da_rejects db).
Qed.
End Launch.

(** ** The two sync functions are the generic orchestrator *)

Lemma syncMongo_job_generic (c : src_config) (osTmp db : string) :
  syncMongo_job c osTmp db = backup_job (DA := mongo_adapter) c osTmp db.
Proof. reflexivity. Qed.

Lemma syncMySQL_job_generic (c : src_config) (osTmp db : string) :
  syncMySQL_job c osTmp db = backup_job (DA := mysql_adapter) c osTmp db.
Proof. reflexivity. Qed.

(** [syncMongo] and [syncMySQL], written out twice in the source, are the
    one generic orchestrator [launch] at the two dump adapters:
    every theorem proved of [launch], [backup_job] and [job_body] against
    the [DumpAdapter] interface holds of both. *)
Lemma sync_is_generic_launch (c : src_config) (osTmp : string) :
  syncMongo c osTmp = launch (DA := mongo_adapter) c osTmp ∧
  syncMySQL c osTmp = launch (DA := mysql_adapter) c osTmp.
Proof. split; apply map_ext; intros db; [apply syncMongo_job_generic|apply syncMySQL_job_generic]. Qed.

(** ** Jobs in the example environment *)

Definition demo_c : src_config := SrcConfig "localhost" "27017" None None None.
Definition demo_tmp : string := "/tmp/mongodb_s3_backup".
Definition demo_date : js_date := JsDate 1700000000000 0.
Definition demo_an : string := getArchiveName "app" demo_date.
(** [mongodump] exits with code 1. *)
Definition demo_E_dumpfail : env :=
  demo_env ["app"; "admin"; "logs"] (Some 1%Z) (Some 0%Z) (S3Response 200 []) [].
(** [rm] cannot remove the dump folder. *)
Definition demo_E_rmfail : env :=
  demo_env ["app"; "admin"; "logs"] (Some 0%Z) (Some 0%Z) (S3Response 200 []) [path_join [demo_tmp; "app"]].
Definition demo_w0 : world := demo_world [] demo_s3config.

Example job_dump_failure_witness :
  let r := run demo_E_dumpfail (@job_body mongo_adapter demo_c demo_tmp "app" demo_date) demo_w0 in
  res_out r = Done () ∧ last (res_trace r) = Some (ACallback (Some (MongodumpExited (Some 1%Z)))) ∧
  Forall (λ a, is_tar a = false ∧ is_put a = false) (res_trace r).
Proof.
  apply (@job_dump_failure mongo_adapter demo_E_dumpfail demo_c demo_tmp "app" demo_date demo_w0
    (res_world (run demo_E_dumpfail (series (job_cleanup demo_tmp "app" demo_an)) demo_w0))
    (res_world (run demo_E_dumpfail (@da_dump mongo_adapter (job_options demo_c "app") demo_tmp)
       (res_world (run demo_E_dumpfail (series (job_cleanup demo_tmp "app" demo_an)) demo_w0))))
    (res_trace (run demo_E_dumpfail (series (job_cleanup demo_tmp "app" demo_an)) demo_w0))
    (res_trace (run demo_E_dumpfail (@da_dump mongo_adapter (job_options demo_c "app") demo_tmp)
       (res_world (run demo_E_dumpfail (series (job_cleanup demo_tmp "app" demo_an)) demo_w0))))
    (MongodumpExited (Some 1%Z))); vm_compute; reflexivity.
Defined.

Example job_post_cleanup_clears_witness :
  let fs_mid := w_fs (res_world (run demo_E (series (@job_stages mongo_adapter demo_c demo_tmp "app" demo_an)) demo_w0)) in
  let fs_end := w_fs (res_world (run demo_E (@job_body mongo_adapter demo_c demo_tmp "app" demo_date) demo_w0)) in
  (path_join [demo_tmp; "app"] ∉ fs_end) ∧ (path_join [demo_tmp; demo_an] ∉ fs_end) ∧
  (path_join [demo_tmp; "app"] ∈ fs_mid →
   ∀ p, under (path_join [demo_tmp; "app"]) p = true → p ∉ fs_end).
Proof.
  apply (@job_post_cleanup_clears mongo_adapter demo_E demo_c demo_tmp "app" demo_date demo_w0 None);
    first [decide_by_compute | vm_compute; reflexivity].
Defined.

Example job_post_cleanup_stops_early_witness :
  let fs_mid := w_fs (res_world (run demo_E_rmfail (series (@job_stages mongo_adapter demo_c demo_tmp "app" demo_an)) demo_w0)) in
  let r := run demo_E_rmfail (@job_body mongo_adapter demo_c demo_tmp "app" demo_date) demo_w0 in
  path_join [demo_tmp; demo_an] ∈ w_fs (res_world r) ∧ last (res_trace r) = Some (ACallback None).
Proof.
  apply (@job_post_cleanup_stops_early mongo_adapter demo_E_rmfail demo_c demo_tmp "app" demo_date demo_w0 None);
    first [decide_by_compute | vm_compute; reflexivity].
Defined.

Example launch_callbacks_witness :
  let c := SrcConfig "localhost" "27017" None None (Some ["app"; "admin"]) in
  length (List.filter is_callback (res_trace (run demo_E (run_in_turn (@launch mongo_adapter c "/tmp")) demo_w0))) =
    length (List.filter (λ db, negb (@da_rejects mongo_adapter db)) (dbs_or_all c)).
Proof. apply launch_callbacks. vm_compute. reflexivity. Defined.



Example job_cleanup_confined_witness :
  job_cleanup (path_join [abs_path ["tmp"]; @da_folder mongo_adapter]) "app" (getArchiveName "app" demo_date) =
  [removeRF (abs_path (["tmp"] ++ [@da_folder mongo_adapter; "app"]));
   removeRF (abs_path (["tmp"] ++ [@da_folder mongo_adapter; getArchiveName "app" demo_date]))].
Proof. apply (@job_cleanup_confined mongo_adapter); first [done | decide_by_compute]. Defined.



(** [mongodump] as documented also wrote [admin]'s dump folder; the job
    for [app] leaves it. *)
Example job_post_cleanup_keeps_others_witness :
  "/tmp/mongodb_s3_backup/admin"
    ∈ w_fs (res_world (run demo_E (series (@job_stages mongo_adapter demo_c demo_tmp "app" demo_an)) demo_w0)) ∧
  "/tmp/mongodb_s3_backup/admin"
    ∈ w_fs (res_world (run demo_E (@job_body mongo_adapter demo_c demo_tmp "app" demo_date) demo_w0)).
Proof.
  split; [decide_by_compute|].
  apply (@job_post_cleanup_keeps_others mongo_adapter demo_E demo_c demo_tmp "app" demo_date demo_w0 None);
    first [decide_by_compute | vm_compute; reflexivity].
Defined.

(** S3 answers 403. *)
Definition demo_E_403 : env :=
  demo_env ["app"; "admin"; "logs"] (Some 0%Z) (Some 0%Z) (S3Response 403 ["AccessDenied"]) [].
(** The stages before the upload, and the world they leave. *)
Definition demo_pre : list task :=
  job_cleanup demo_tmp "app" demo_an ++
  [@da_dump mongo_adapter (job_options demo_c "app") demo_tmp; compressDirectory demo_tmp "app" demo_an].
Definition demo_w3 : world := res_world (run demo_E_403 (series demo_pre) demo_w0).

Example job_upload_rejected_witness :
  let cfg := w_s3config demo_w3 in
  let dst := path_join [destination_or_root (s3_destination cfg); demo_an] in
  let r := run demo_E_403 (@job_body mongo_adapter demo_c demo_tmp "app" demo_date) demo_w0 in
  res_out r = Done () ∧ last (res_trace r) = Some (ACallback (Some (S3BadStatus 403))) ∧
  APutFile (s3_bucket cfg) (path_join [demo_tmp; demo_an]) dst (sse_headers (s3_encrypt cfg)) ∈ res_trace r.
Proof.
  apply (@job_upload_rejected mongo_adapter demo_E_403 demo_c demo_tmp "app" demo_date demo_w0 demo_w3
           (res_trace (run demo_E_403 (series demo_pre) demo_w0)) 403 ["AccessDenied"]);
    [vm_compute; reflexivity|vm_compute; reflexivity|vm_compute; reflexivity|done].
Defined.

Example syncMySQL_dotdot_removes_tmp_witness :
  let tmpDir := path_join [abs_path ["tmp"]; "mysql_s3_backup"] in
  let w := demo_world ["/tmp"; "/tmp/other"; "/tmp/other/notes.txt"] demo_s3config in
  let r := run demo_E (series (job_cleanup tmpDir ".." (getArchiveName ".." demo_date))) w in
  mysql_rejects ".." = false ∧ res_out r = Done None ∧
  (AExec ("rm -rf " +:+ abs_path ["tmp"]) ∈ res_trace r) ∧
  ∀ p, under (abs_path ["tmp"]) p = true → p ∉ w_fs (res_world r).
Proof. apply syncMySQL_dotdot_removes_tmp; first [done | decide_by_compute | vm_compute; reflexivity]. Defined.
