(* ===== verification/EventLoop.v ===== *)
(** * EventLoop: the jobs of a call interleaved, and the domain [d]

    [syncMongo]/[syncMySQL] start every job of a call at once
    ([dbs.forEach]); the jobs then run interleaved on Node's event loop.
    A configuration [loop] holds the world, the running threads, the
    ['error'] listeners registered on the module's domain [d]
    ([src/index.js], lines 8 and 335-340, 399-404), the trace of actions
    tagged with the thread that performed them, and the exception that
    ended the process, if any.  A [step] performs one action of one
    thread ([step_act]); an exception of a job, which only the upload
    bound with [d.bind] throws, is emitted on [d], and every listener
    registered so far starts its cleanup series ([step_emit]); a listener
    that has cleaned up rethrows after [d.exit()], which ends the process
    ([step_crash]).  Switching threads between any two actions
    over-approximates Node, which switches only at asynchronous
    operations: what holds of every execution here holds of Node's.

    [step_fn] is the step as a function of the chosen thread, equivalent
    to [step] ([step_fn_sound], [step_fn_complete]); [run_sched] runs a
    schedule, for the examples.  The theorems, by rule induction over
    every execution of a call's jobs ([rtc_invariant]): at most one
    callback per job; every job calls back in every complete execution
    that does not crash; and a fault of one job's upload can run the
    cleanup another job registered, removing that job's files while it
    is still running, before the process ends.  Supporting lemmas: the
    shared [s3Config] invariant, finiteness of every execution, and the
    turn-taking schedule as one of the loop's executions. *)

From S2P Require Import Prelude JsLib JsDate ArchiveName Effects Logger Tasks Sync Pipeline.

(** ** Configurations *)

(** A job's thread, whose exceptions go to the domain, or an ['error']
    listener's, whose exceptions end the process. *)
Inductive thread :=
| TJob (p : prog unit)
| TListener (p : prog unit).

Definition thread_prog (t : thread) : prog unit :=
  match t with TJob p | TListener p => p end.

Definition with_prog (t : thread) (p : prog unit) : thread :=
  match t with TJob _ => TJob p | TListener _ => TListener p end.

(** A registered listener: the job's temporary folder, database name and
    archive name, from which its [tmpDirCleanupFns] are built. *)
Abbreviation listener := (string * string * string)%type.

Record loop := Loop {
  l_world : world;
  l_threads : list thread;
  l_listeners : list listener;
  l_trace : list (nat * action);
  l_crash : option js_error
}.

(** The listener [d.on('error', ...)] adds. *)
Definition listener_of (a : action) : list listener :=
  match a with AOnError t db an => [(t, db, an)] | _ => [] end.

(** The listener's body: [d.exit(); async.series(tmpDirCleanupFns,
    function () { throw(err); })]. *)
Definition on_error (l : listener) (e : js_error) : prog unit :=
  let '(t, db, an) := l in _ ← series (job_cleanup t db an); Throw e.

(** All jobs are started, nothing has happened yet. *)
Definition init_loop (w : world) (jobs : list (prog unit)) : loop :=
  Loop w (map TJob jobs) [] [] None.

(** ** The step relation *)

Section Step.
Context (E : env).

Inductive step : loop → loop → Prop :=
| step_act (st : loop) (i : nat) (t : thread) (a : action) (k : reply → prog unit) :
    l_crash st = None →
    l_threads st !! i = Some t → thread_prog t = Act a k →
    step st (Loop (perform E a (l_world st)).1
                  (<[i := with_prog t (k (perform E a (l_world st)).2)]> (l_threads st))
                  (l_listeners st ++ listener_of a)
                  (l_trace st ++ [(i, a)]) None)
| step_emit (st : loop) (i : nat) (e : js_error) :
    l_crash st = None → l_listeners st ≠ [] →
    l_threads st !! i = Some (TJob (Throw e)) →
    step st (Loop (l_world st)
                  (<[i := TJob (Ret ())]> (l_threads st) ++
                   map (λ l, TListener (on_error l e)) (l_listeners st))
                  (l_listeners st) (l_trace st) None)
| step_uncaught (st : loop) (i : nat) (e : js_error) :
    l_crash st = None → l_listeners st = [] →
    l_threads st !! i = Some (TJob (Throw e)) →
    step st (Loop (l_world st) (l_threads st) (l_listeners st) (l_trace st) (Some e))
| step_crash (st : loop) (i : nat) (e : js_error) :
    l_crash st = None →
    l_threads st !! i = Some (TListener (Throw e)) →
    step st (Loop (l_world st) (l_threads st) (l_listeners st) (l_trace st) (Some e)).

(** The step of thread [i], as a function. *)
Definition step_fn (st : loop) (i : nat) : option loop :=
  match l_crash st, l_threads st !! i with
  | None, Some t =>
      match thread_prog t with
      | Ret _ => None
      | Act a k =>
          let '(w', r) := perform E a (l_world st) in
          Some (Loop w' (<[i := with_prog t (k r)]> (l_threads st))
                     (l_listeners st ++ listener_of a) (l_trace st ++ [(i, a)]) None)
      | Throw e =>
          match t, l_listeners st with
          | TJob _, [] => Some (Loop (l_world st) (l_threads st) (l_listeners st) (l_trace st) (Some e))
          | TJob _, _ :: _ =>
              Some (Loop (l_world st)
                         (<[i := TJob (Ret ())]> (l_threads st) ++
                          map (λ l, TListener (on_error l e)) (l_listeners st))
                         (l_listeners st) (l_trace st) None)
          | TListener _, _ => Some (Loop (l_world st) (l_threads st) (l_listeners st) (l_trace st) (Some e))
          end
      end
  | _, _ => None
  end.

(** A schedule: the threads to step, in order; a thread that cannot step
    is skipped. *)
Fixpoint run_sched (st : loop) (sched : list nat) : loop :=
  match sched with
  | [] => st
  | i :: rest => run_sched (default st (step_fn st i)) rest
  end.

End Step.

Notation "st '-[' E ']->' st'" := (step E st st') (at level 70, E at level 0) : backup_scope.
Notation "st '-[' E ']->*' st'" := (rtc (step E) st st') (at level 70, E at level 0) : backup_scope.
Open Scope backup_scope.

(** ** The step function is the step relation *)

Lemma step_fn_sound (E : env) (st st' : loop) (i : nat) :
  step_fn E st i = Some st' → st -[E]-> st'.
Proof.
  unfold step_fn. destruct (l_crash st) eqn:Hc; [done|].
  destruct (l_threads st !! i) as [t|] eqn:Ht; [|done].
  destruct (thread_prog t) as [[]|a k|e] eqn:Hp; [done| |].
  - destruct (perform E a (l_world st)) as [w' r] eqn:Hpf. intros [= <-].
    pose proof (step_act E st i t a k Hc Ht Hp) as H. by rewrite Hpf in H.
  - destruct t as [p|p]; cbn in Hp; subst p.
    + pose proof (step_emit E st i e Hc) as He. pose proof (step_uncaught E st i e Hc) as Hu.
      destruct (l_listeners st) as [|l ls] eqn:Hl; intros [= <-].
      * by apply Hu.
      * by apply He.
    + intros [= <-]. by eapply step_crash.
Qed.

Lemma step_fn_complete (E : env) (st st' : loop) :
  st -[E]-> st' → ∃ i, step_fn E st i = Some st'.
Proof.
  intros Hs. destruct Hs as [st i t a k Hc Ht Hp|st i e Hc Hl Ht|st i e Hc Hl Ht|st i e Hc Ht];
    exists i; unfold step_fn; rewrite Hc, Ht; cbn [thread_prog].
  - rewrite Hp. by destruct (perform E a (l_world st)).
  - by destruct (l_listeners st).
  - by rewrite Hl.
  - done.
Qed.

(** Every state a schedule reaches is reachable. *)
Lemma run_sched_reach (E : env) (st : loop) (sched : list nat) :
  st -[E]->* run_sched E st sched.
Proof.
  revert st. induction sched as [|i rest IH]; intros st; cbn [run_sched]; [done|].
  destruct (step_fn E st i) as [st1|] eqn:Hs; cbn [default]; [|apply IH].
  eapply rtc_l; [by eapply step_fn_sound|apply IH].
Qed.

(** ** The shared [s3Config] across interleaved jobs *)

(** Whether some thread has read [s3Config] for an upload. *)
Definition took_config (tr : list (nat * action)) : bool :=
  existsb (λ ia, bool_decide (ia.2 = ATakeS3Config)) tr.

Lemma perform_s3config (E : env) (a : action) (w : world) :
  w_s3config (perform E a w).1 =
  if bool_decide (a = ATakeS3Config) then without_destination (w_s3config w) else w_s3config w.
Proof.
  case_bool_decide as Ha; [by subst a|]. by apply perform_config.
Qed.

Lemma without_destination_idem (c : s3_config) :
  without_destination (without_destination c) = without_destination c.
Proof. by destruct c. Qed.

Lemma took_config_snoc (tr : list (nat * action)) (i : nat) (a : action) :
  took_config (tr ++ [(i, a)]) = took_config tr || bool_decide (a = ATakeS3Config).
Proof. unfold took_config. rewrite existsb_app. cbn. by rewrite orb_false_r. Qed.

(** In every interleaving of the jobs, the shared [s3Config] is the
    caller's object until the first [ATakeS3Config] reads it, and has lost
    its [destination] from then on. *)
Lemma loop_s3config (E : env) (w : world) (jobs : list (prog unit)) (st : loop) :
  init_loop w jobs -[E]->* st →
  w_s3config (l_world st) =
    if took_config (l_trace st) then without_destination (w_s3config w) else w_s3config w.
Proof.
  apply (rtc_invariant _ (λ st, w_s3config (l_world st) =
    if took_config (l_trace st) then without_destination (w_s3config w) else w_s3config w));
    [done|]. intros y z IH Hs.
  destruct Hs; cbn [l_world l_trace]; [|done..].
  rewrite perform_s3config, took_config_snoc, IH.
  case_bool_decide; [|by rewrite orb_false_r].
  rewrite orb_true_r. destruct (took_config _); [apply without_destination_idem|done].
Qed.

(** ** At most one callback per job, in every interleaving *)

(** [p] never calls the caller back. *)
Abbreviation no_cb := (acts_in (λ a, is_callback a = false)).

(** [p] calls the caller back at most once, and does nothing that calls
    back after that. *)
Inductive one_cb : prog unit → Prop :=
| one_ret (u : unit) : one_cb (Ret u)
| one_throw (e : js_error) : one_cb (Throw e)
| one_quiet (a : action) (k : reply → prog unit) :
    is_callback a = false → (∀ r, one_cb (k r)) → one_cb (Act a k)
| one_last (a : action) (k : reply → prog unit) :
    (∀ r, no_cb (k r)) → one_cb (Act a k).

#[export] Hint Constructors one_cb : backup.

Lemma no_cb_one_cb (p : prog unit) : no_cb p → one_cb p.
Proof. induction 1; auto with backup. Qed.

Lemma one_cb_bind {A} (p : prog A) (f : A → prog unit) :
  no_cb p → (∀ x, one_cb (f x)) → one_cb (p ≫= f).
Proof. intros Hp Hf. induction Hp; simpl; auto with backup. Qed.

Lemma no_cb_mono_dump {A} (p : prog A) : acts_in dump_action p → no_cb p.
Proof. apply acts_in_mono. by intros ? [[]]. Qed.

Lemma on_error_no_cb (l : listener) (e : js_error) : no_cb (on_error l e).
Proof.
  destruct l as [[t db] an]. unfold on_error.
  first [apply acts_in_bind; [apply no_cb_mono_dump, job_cleanup_acts|constructor] | constructor].
Qed.

(** A job of any dump adapter calls back at most once. *)
Lemma backup_job_one_cb `{DA : DumpAdapter} (c : src_config) (osTmp db : string) :
  one_cb (backup_job c osTmp db).
Proof.
  unfold backup_job. case_match; [constructor|]. apply one_quiet; [done|]. intros r.
  apply one_cb_bind; [by apply acts_in_act_|]. intros _. unfold job_body.
  apply one_cb_bind; [apply job_stages_acts|]. intros err.
  apply one_cb_bind; [rewrite outcome_log_act; by apply acts_in_act_|]. intros _.
  apply one_cb_bind; [apply no_cb_mono_dump, job_cleanup_acts|]. intros _.
  apply one_last. intros _. constructor.
Qed.

(** The callbacks thread [i] has performed. *)
Definition cb_count (i : nat) (tr : list (nat * action)) : nat :=
  length (List.filter (λ ia, bool_decide (ia.1 = i) && is_callback ia.2) tr).

Lemma cb_count_snoc (j i : nat) (a : action) (tr : list (nat * action)) :
  cb_count j (tr ++ [(i, a)]) = cb_count j tr + (if bool_decide (i = j) && is_callback a then 1 else 0).
Proof.
  unfold cb_count. rewrite List.filter_app, length_app. cbn [List.filter fst snd].
  by destruct (bool_decide (i = j) && is_callback a).
Qed.

(** What thread [i] may still do, given the callbacks it has made. *)
Definition thread_ok (n : nat) (t : thread) : Prop :=
  match t with
  | TJob p => (n = 0 ∧ one_cb p) ∨ (n = 1 ∧ no_cb p)
  | TListener p => n = 0 ∧ no_cb p
  end.

Lemma thread_ok_step (n : nat) (t : thread) (a : action) (k : reply → prog unit) (r : reply) :
  thread_ok n t → thread_prog t = Act a k →
  thread_ok (n + if is_callback a then 1 else 0) (with_prog t (k r)).
Proof.
  intros Ht Hp. destruct t as [p|p]; cbn in Hp |- *; subst p.
  - destruct Ht as [[-> Ho]|[-> Hn]].
    + inversion Ho as [| |? ? Hq Hk|? ? Hk]; subst.
      * rewrite Hq. left. split; [done|]. apply Hk.
      * destruct (is_callback a); [right|left]; split; [done|apply Hk|done|apply no_cb_one_cb, Hk].
    + inversion Hn as [| |? ? Hq Hk]; subst. rewrite Hq. right. split; [done|apply Hk].
  - destruct Ht as [-> Hn]. inversion Hn as [| |? ? Hq Hk]; subst. rewrite Hq. split; [done|apply Hk].
Qed.

Lemma thread_ok_done (n : nat) (p : prog unit) : thread_ok n (TJob p) → thread_ok n (TJob (Ret ())).
Proof. intros [[-> _]|[-> _]]; [left|right]; split; auto with backup. Qed.

(** The invariant: a thread that does not exist yet has not called back,
    and every thread can still do only what [thread_ok] allows. *)
Definition cb_inv (st : loop) : Prop :=
  (∀ i, length (l_threads st) ≤ i → cb_count i (l_trace st) = 0) ∧
  (∀ i t, l_threads st !! i = Some t → thread_ok (cb_count i (l_trace st)) t).

Lemma cb_inv_init (w : world) (jobs : list (prog unit)) :
  Forall one_cb jobs → cb_inv (init_loop w jobs).
Proof.
  intros Hj. split; [done|]. intros i t Ht. cbn in Ht.
  apply list_elem_of_lookup_2, list_elem_of_In, in_map_iff in Ht as (p & <- & Hp).
  left. split; [done|]. rewrite Forall_forall in Hj. by apply Hj, list_elem_of_In.
Qed.

Lemma cb_inv_step (E : env) (y z : loop) : cb_inv y → y -[E]-> z → cb_inv z.
Proof.
  intros [Hout Hin] Hs.
  destruct Hs as [st i t a k Hc Ht Hp|st i e Hc Hl Ht|st i e Hc Hl Ht|st i e Hc Ht];
    unfold cb_inv; cbn [l_threads l_trace]; [| |by split..].
  - pose proof (lookup_lt_Some _ _ _ Ht) as Hi. split.
    + intros j Hj. rewrite length_insert in Hj.
      rewrite cb_count_snoc, Hout, bool_decide_false by lia. done.
    + intros j t' Hj. rewrite cb_count_snoc. destruct (decide (i = j)) as [<-|Hne].
      * rewrite list_lookup_insert_eq in Hj by done. injection Hj as <-.
        rewrite bool_decide_true by done. apply thread_ok_step; [by apply Hin|exact Hp].
      * rewrite list_lookup_insert_ne in Hj by done. rewrite bool_decide_false by done.
        rewrite Nat.add_0_r. by apply Hin.
  - pose proof (lookup_lt_Some _ _ _ Ht) as Hi. split.
    + intros j Hj. rewrite length_app, length_insert in Hj. apply Hout. lia.
    + intros j t' Hj. destruct (decide (j < length (l_threads st))) as [Hlt|Hge].
      * rewrite lookup_app_l in Hj by (rewrite length_insert; lia).
        destruct (decide (i = j)) as [<-|Hne].
        -- rewrite list_lookup_insert_eq in Hj by done. injection Hj as <-.
           eapply thread_ok_done, Hin, Ht.
        -- rewrite list_lookup_insert_ne in Hj by done. by apply Hin.
      * rewrite lookup_app_r in Hj by (rewrite length_insert; lia).
        apply list_elem_of_lookup_2, list_elem_of_In, in_map_iff in Hj as (l & <- & _).
        split; [apply Hout; lia|apply on_error_no_cb].
Qed.

Lemma cb_inv_reach (E : env) (w : world) (jobs : list (prog unit)) (st : loop) :
  Forall one_cb jobs → init_loop w jobs -[E]->* st → cb_inv st.
Proof.
  intros Hj. apply (rtc_invariant _ cb_inv); [by apply cb_inv_init|]. intros y z Hy Hs. by eapply cb_inv_step.
Qed.

Lemma launch_one_cb `{DA : DumpAdapter} (c : src_config) (osTmp : string) :
  Forall one_cb (launch c osTmp).
Proof. apply Forall_forall. intros p (db & <- & _)%list_elem_of_In%in_map_iff. apply backup_job_one_cb. Qed.

(** C3. In every interleaving of the jobs of a call (of [syncMongo] or
    [syncMySQL]: any dump adapter), and whatever the domain's listeners do,
    no job calls the caller back twice and no listener calls back at all. *)
Theorem loop_callback_at_most_once `{DA : DumpAdapter} (E : env) (c : src_config) (osTmp : string)
    (w : world) (st : loop) :
  init_loop w (launch c osTmp) -[E]->* st →
  ∀ i, cb_count i (l_trace st) ≤ 1 ∧
       (∀ p, l_threads st !! i = Some (TListener p) → cb_count i (l_trace st) = 0).
Proof.
  intros Hr i. destruct (cb_inv_reach E w _ st (launch_one_cb c osTmp) Hr) as [Hout Hin].
  split.
  - destruct (l_threads st !! i) as [t|] eqn:Ht.
    + specialize (Hin i t Ht). destruct t; cbn in Hin; lia.
    + rewrite Hout; [lia|]. by apply lookup_ge_None.
  - intros p Ht. apply (Hin i _ Ht).
Qed.

(** ** The turn-taking schedule is a schedule of the event loop *)

Lemma with_prog_ret (t : thread) (u : unit) : thread_prog t = Ret u → with_prog t (Ret ()) = t.
Proof. destruct u. by destruct t as [p|p]; cbn; intros ->. Qed.

Lemma with_prog_prog (t : thread) (p : prog unit) : thread_prog (with_prog t p) = p.
Proof. by destruct t. Qed.

Lemma with_prog_with_prog (t : thread) (p q : prog unit) : with_prog (with_prog t p) q = with_prog t q.
Proof. by destruct t. Qed.

(** A thread that runs to its end on its own: its actions are steps of
    the loop, one after the other. *)
Lemma thread_run_steps (E : env) (p : prog unit) :
  ∀ (st : loop) (i : nat) (t : thread) (w' : world) (tr : list action),
  l_crash st = None → l_threads st !! i = Some t → thread_prog t = p →
  run E p (l_world st) = Result w' tr (Done ()) →
  st -[E]->* Loop w' (<[i := with_prog t (Ret ())]> (l_threads st))
                   (l_listeners st ++ concat (map listener_of tr))
                   (l_trace st ++ map (pair i) tr) None.
Proof.
  induction p as [u|a k IH|e]; intros st i t w' tr Hc Ht Hp Hr; cbn [run] in Hr; [| |done].
  - injection Hr as <- <- _. rewrite (with_prog_ret t u Hp), list_insert_id by done.
    cbn. rewrite !app_nil_r. destruct st; cbn in *; subst. done.
  - destruct (perform E a (l_world st)) as [w1 r] eqn:Hpf.
    destruct (run E (k r) w1) as [w2 tr2 o2] eqn:Hk. injection Hr as <- <- ->.
    pose proof (step_act E st i t a k Hc Ht Hp) as Hs. rewrite Hpf in Hs. cbn [fst snd] in Hs.
    eapply rtc_l; [exact Hs|].
    pose proof (lookup_lt_Some _ _ _ Ht) as Hi.
    eapply rtc_eq_r.
    { apply (IH r _ i (with_prog t (k r))); cbn [l_crash l_threads l_world];
        [done| |apply with_prog_prog|exact Hk].
      by rewrite list_lookup_insert_eq. }
    cbn. by rewrite list_insert_insert_eq, with_prog_with_prog, <- !app_assoc.
Qed.

Lemma run_in_turn_steps (E : env) (jobs : list (prog unit)) :
  ∀ (pre : list thread) (st : loop) (w' : world) (tr : list action),
  l_threads st = pre ++ map TJob jobs → l_crash st = None →
  run E (run_in_turn jobs) (l_world st) = Result w' tr (Done ()) →
  ∃ st', st -[E]->* st' ∧ l_world st' = w' ∧ map snd (l_trace st') = map snd (l_trace st) ++ tr ∧
         l_crash st' = None ∧ l_threads st' = pre ++ map (λ _, TJob (Ret ())) jobs.
Proof.
  induction jobs as [|j js IH]; intros pre st w' tr Hth Hc Hr; cbn [run_in_turn map] in *.
  - rewrite run_ret in Hr. injection Hr as <- <-. exists st. by rewrite app_nil_r.
  - rewrite run_bind in Hr.
    destruct (run E j (l_world st)) as [w1 tr1 [[]|e]] eqn:Hj; unfold res_then in Hr;
      cbn [res_out res_world res_trace] in Hr; [|done].
    destruct (run E (run_in_turn js) w1) as [w2 tr2 o2] eqn:Hjs. injection Hr as <- <- ->.
    pose proof (thread_run_steps E j st (length pre) (TJob j) w1 tr1 Hc
                  ltac:(rewrite Hth; by apply list_lookup_middle) eq_refl Hj) as Hs1.
    rewrite Hth, insert_app_r_alt, Nat.sub_diag in Hs1 by done.
    set (st1 := Loop w1 ((pre ++ [TJob (Ret ())]) ++ map TJob js)
                  (l_listeners st ++ concat (map listener_of tr1))
                  (l_trace st ++ map (pair (length pre)) tr1) None).
    assert (st -[E]->* st1) as Hs1'.
    { eapply rtc_eq_r; [exact Hs1|]. unfold st1. by rewrite <- app_assoc. }
    destruct (IH (pre ++ [TJob (Ret ())]) st1 w2 tr2 eq_refl eq_refl Hjs)
      as (st' & Hs2 & Hw & Htr & Hc' & Hth').
    exists st'. split_and!; [by trans st1|done| |done|].
    + rewrite Htr. cbn. rewrite map_app, map_map. cbn. rewrite map_id, app_assoc. done.
    + rewrite Hth', <- app_assoc. done.
Qed.

(** The turn-taking schedule of [Pipeline] is one of the event
    loop's.  A run of a call's jobs one after the other that
    returns ends in a world and performs a sequence of actions that some
    execution of the interleaving model also reaches, with every job
    finished and the process alive; so what the turn-taking theorems show
    happens on that schedule of the real program. *)
Lemma run_in_turn_refines (E : env) (jobs : list (prog unit)) (w w' : world) (tr : list action) :
  run E (run_in_turn jobs) w = Result w' tr (Done ()) →
  ∃ st, init_loop w jobs -[E]->* st ∧ l_world st = w' ∧ map snd (l_trace st) = tr ∧
        l_crash st = None ∧ Forall (λ t, thread_prog t = Ret ()) (l_threads st).
Proof.
  intros Hr. destruct (run_in_turn_steps E jobs [] (init_loop w jobs) w' tr eq_refl eq_refl Hr)
    as (st & Hs & Hw & Htr & Hc & Hth).
  exists st. split_and!; try done. rewrite Hth. cbn. apply Forall_forall.
  by intros t (p & <- & _)%list_elem_of_In%in_map_iff.
Qed.

(** ** An upload fault runs every registered cleanup *)

(** The listeners the actions of a trace registered, in order. *)
Definition registered (tr : list (nat * action)) : list listener :=
  concat (map (λ ia, listener_of ia.2) tr).

Lemma registered_snoc (tr : list (nat * action)) (i : nat) (a : action) :
  registered (tr ++ [(i, a)]) = registered tr ++ listener_of a.
Proof. unfold registered. by rewrite map_app, concat_app; cbn; rewrite app_nil_r. Qed.

(** The domain's listeners are exactly those the trace registered. *)
Lemma listeners_reach (E : env) (w : world) (jobs : list (prog unit)) (st : loop) :
  init_loop w jobs -[E]->* st → l_listeners st = registered (l_trace st).
Proof.
  apply (rtc_invariant _ (λ st, l_listeners st = registered (l_trace st))); [done|].
  intros y z Hy Hs. destruct Hs; cbn [l_listeners l_trace]; [|done..].
  by rewrite registered_snoc, Hy.
Qed.

Lemma with_prog_self (t : thread) : with_prog t (thread_prog t) = t.
Proof. by destruct t. Qed.

(** A thread whose program starts with [p]: running [p] to its value is
    a sequence of steps of that thread. *)
Lemma thread_run_prefix {A} (E : env) (p : prog A) (f : A → prog unit) :
  ∀ (st : loop) (i : nat) (t : thread) (w' : world) (tr : list action) (x : A),
  l_crash st = None → l_threads st !! i = Some t → thread_prog t = p ≫= f →
  run E p (l_world st) = Result w' tr (Done x) →
  st -[E]->* Loop w' (<[i := with_prog t (f x)]> (l_threads st))
                   (l_listeners st ++ concat (map listener_of tr))
                   (l_trace st ++ map (pair i) tr) None.
Proof.
  induction p as [a|a k IH|e]; intros st i t w' tr x Hc Ht Hp Hr; cbn [run] in Hr; [| |done].
  - injection Hr as <- <- <-. cbn in Hp. rewrite <- Hp, with_prog_self, list_insert_id by done.
    cbn. rewrite !app_nil_r. destruct st; cbn in *; subst. done.
  - destruct (perform E a (l_world st)) as [w1 r] eqn:Hpf.
    destruct (run E (k r) w1) as [w2 tr2 o2] eqn:Hk. injection Hr as <- <- ->.
    pose proof (step_act E st i t a (λ r, k r ≫= f) Hc Ht Hp) as Hs. rewrite Hpf in Hs. cbn [fst snd] in Hs.
    eapply rtc_l; [exact Hs|].
    eapply rtc_eq_r.
    { apply (IH r _ i (with_prog t (k r ≫= f))); cbn [l_crash l_threads l_world];
        [done| |apply with_prog_prog|exact Hk].
      rewrite list_lookup_insert_eq; [done|]. by eapply lookup_lt_Some. }
    cbn. by rewrite list_insert_insert_eq, with_prog_with_prog, <- !app_assoc.
Qed.

Lemma cb_count_app_other (j k : nat) (tr : list (nat * action)) (l : list action) :
  k ≠ j → cb_count j (tr ++ map (pair k) l) = cb_count j tr.
Proof.
  intros Hk. unfold cb_count. rewrite List.filter_app, length_app.
  induction l as [|a l IH]; cbn; [lia|]. by rewrite bool_decide_false.
Qed.

(** A crashed process does not step any more. *)
Lemma loop_crashed_stuck (E : env) (st : loop) : l_crash st ≠ None → ∀ st', ¬ st -[E]-> st'.
Proof. intros Hc st' Hs. destruct Hs; congruence. Qed.

(** C7. The domain [d] and its listeners are shared by all jobs: in any
    execution of a call's jobs, when the upload of job [i] throws while
    another job [j] has registered its listener for its folder [t], its
    database [db] and its archive [an], the event loop can go on by
    running [j]'s cleanup for [i]'s error: [j]'s dump folder (with
    everything below it) and its archive are removed while [j] has not
    moved, then the listener rethrows and the process ends, so [j] never
    calls the caller back after that. *)
Theorem fault_cleans_other_job `{DA : DumpAdapter} (E : env) (c : src_config) (osTmp : string)
    (w : world) (st : loop) (i j : nat) (e : js_error) (pj : prog unit) (t db an : string) :
  init_loop w (launch c osTmp) -[E]->* st → l_crash st = None →
  l_threads st !! i = Some (TJob (Throw e)) → i ≠ j → l_threads st !! j = Some (TJob pj) →
  (j, AOnError t db an) ∈ l_trace st →
  shell_safe (path_join [t; db]) → shell_safe (path_join [t; an]) →
  env_rm_fails E (path_join [t; db]) = false → env_rm_fails E (path_join [t; an]) = false →
  ∃ st', st -[E]->* st' ∧ l_crash st' = Some e ∧ (∀ st'', ¬ st' -[E]-> st'') ∧
    l_threads st' !! j = Some (TJob pj) ∧ cb_count j (l_trace st') = cb_count j (l_trace st) ∧
    (path_join [t; db] ∉ w_fs (l_world st')) ∧ (path_join [t; an] ∉ w_fs (l_world st')) ∧
    (path_join [t; db] ∈ w_fs (l_world st) →
     ∀ p, under (path_join [t; db]) p = true → p ∉ w_fs (l_world st')).
Proof.
  intros Hr Hc Hi Hij Hj Hreg Hs1 Hs2 Hf1 Hf2.
  assert ((t, db, an) ∈ l_listeners st) as [k Hk]%list_elem_of_lookup.
  { rewrite (listeners_reach E w _ st Hr). unfold registered.
    apply list_elem_of_In, in_concat. exists [(t, db, an)]. split; [|by left].
    apply in_map_iff. exists (j, AOnError t db an). split; [done|]. by apply list_elem_of_In. }
  set (n := length (l_threads st)).
  assert (j < n) as Hjn by (eapply lookup_lt_Some; exact Hj).
  set (st1 := Loop (l_world st) (<[i := TJob (Ret ())]> (l_threads st) ++
                  map (λ l, TListener (on_error l e)) (l_listeners st)) (l_listeners st) (l_trace st) None).
  assert (st -[E]-> st1) as Hs by (apply step_emit; [done|by destruct (l_listeners st)|done]).
  assert (l_threads st1 !! (n + k) = Some (TListener (on_error (t, db, an) e))) as Hk1.
  { cbn [l_threads st1]. rewrite lookup_app_r by (rewrite length_insert; lia).
    rewrite length_insert. fold n. rewrite list_lookup_fmap.
    replace (n + k - n) with k by lia. by rewrite Hk. }
  destruct (job_cleanup_ok E t db an (l_world st) Hs1 Hs2 Hf1 Hf2) as [Ho Hfs].
  destruct (run E (series (job_cleanup t db an)) (l_world st)) as [w2 tr2 o2] eqn:Hrun.
  cbn [res_out res_world] in Ho, Hfs. subst o2.
  pose proof (thread_run_prefix E _ (λ _, Throw e) st1 (n + k) _ w2 tr2 None
                eq_refl Hk1 eq_refl Hrun) as Hs2'.
  cbn [with_prog] in Hs2'.
  match type of Hs2' with _ -[E]->* ?x => set (st2 := x) in Hs2' end.
  assert (st2 -[E]-> Loop w2 (l_threads st2) (l_listeners st2) (l_trace st2) (Some e)) as Hs3.
  { apply (step_crash E st2 (n + k) e eq_refl). cbn. rewrite list_lookup_insert_eq; [done|].
    by eapply lookup_lt_Some. }
  eexists. split_and!.
  - eapply rtc_l; [exact Hs|]. eapply rtc_r; [exact Hs2'|exact Hs3].
  - done.
  - apply loop_crashed_stuck. done.
  - cbn. rewrite list_lookup_insert_ne by lia.
    rewrite lookup_app_l by (rewrite length_insert; lia). by rewrite list_lookup_insert_ne.
  - cbn. apply cb_count_app_other. lia.
  - cbn [l_world w_fs]. rewrite Hfs. intros Hin%removeRF_fs_subseteq. revert Hin.
    apply removeRF_fs_gone; [done|apply under_refl|by right].
  - cbn [l_world w_fs]. rewrite Hfs. apply removeRF_fs_gone; [done|apply under_refl|by right].
  - intros Hb p Hp. cbn [l_world w_fs]. rewrite Hfs. intros Hin%removeRF_fs_subseteq. revert Hin.
    apply removeRF_fs_gone; [done|done|by left].
Qed.

(** ** Examples *)

(** Whether a thread has finished. *)
Definition thread_done (t : thread) : bool :=
  match thread_prog t with Ret _ => true | _ => false end.

(** A server with [app] and [logs]; the upload's request fails with
    [EPIPE], the error the source's comment reports. *)
Definition E_epipe : env := demo_env ["app"; "logs"] (Some 0%Z) (Some 0%Z) (S3Throws "EPIPE") [].
Definition cfg_two : src_config := SrcConfig "localhost" "27017" None None (Some ["app"; "logs"]).
Definition loop_two : loop := init_loop (demo_world [] demo_s3config) (@launch mongo_adapter cfg_two "/tmp").
(** [logs] dumps and compresses, then [app] runs until its upload throws
    and the domain emits; then [logs]' listener runs. *)
Definition sched_epipe : list nat := repeat 1 9 ++ repeat 0 40 ++ repeat 2 10.

Example loop_callback_at_most_once_witness :
  cb_count 0 (l_trace (run_sched E_epipe loop_two sched_epipe)) ≤ 1 ∧
  (∀ p, l_threads (run_sched E_epipe loop_two sched_epipe) !! 0 = Some (TListener p) →
        cb_count 0 (l_trace (run_sched E_epipe loop_two sched_epipe)) = 0).
Proof. eapply (loop_callback_at_most_once (DA := mongo_adapter)). apply run_sched_reach. Defined.

(** ** Every execution ends *)

(** [p'] is what [p] continues with after its first action. *)
Definition prog_next (p' p : prog unit) : Prop := ∃ a k r, p = Act a k ∧ p' = k r.
Lemma prog_next_wf : well_founded prog_next.
Proof.
  intros p. induction p as [u|a k IH|e]; constructor; intros p' (a' & k' & r & Hp & Hp').
  - discriminate Hp.
  - injection Hp as <- <-. subst p'. apply IH.
  - discriminate Hp.
Qed.
(** One thread of the list moves on to its continuation. *)
Definition threads_next (l' l : list thread) : Prop :=
  ∃ i t t', l !! i = Some t ∧ prog_next (thread_prog t') (thread_prog t) ∧ l' = <[i := t']> l.

Lemma threads_next_cons (t : thread) (l : list thread) :
  Acc prog_next (thread_prog t) → Acc threads_next l → Acc threads_next (t :: l).
Proof.
  intros Ht. remember (thread_prog t) as p eqn:Hp. revert t Hp l.
  induction Ht as [p _ IHt]; intros t Hp l Hl. subst p. induction Hl as [l Hl IHl].
  constructor. intros l' (i & u & u' & Hi & Hn & Hl'). subst l'. destruct i as [|i].
  - cbn in Hi. injection Hi as <-. cbn. apply (IHt _ Hn u' eq_refl). exact (Acc_intro l Hl).
  - cbn. apply IHl. exists i, u, u'. split; [exact Hi|split; [exact Hn|reflexivity]].
Qed.

Lemma threads_next_wf : well_founded threads_next.
Proof.
  intros l. induction l as [|t l IH].
  - constructor. intros l' (i & t & t' & Hi & _). rewrite lookup_nil in Hi. discriminate Hi.
  - apply threads_next_cons; [apply prog_next_wf|exact IH].
Qed.

(** The job threads that have not finished: each emits at most once. *)
Definition live_job (t : thread) : bool :=
  match t with TJob (Ret _) => false | TJob _ => true | TListener _ => false end.

Definition live_jobs (l : list thread) : nat := length (List.filter live_job l).

Lemma live_jobs_app (l1 l2 : list thread) : live_jobs (l1 ++ l2) = live_jobs l1 + live_jobs l2.
Proof. unfold live_jobs. by rewrite List.filter_app, length_app. Qed.

Lemma live_jobs_insert (l : list thread) (i : nat) (t t' : thread) :
  l !! i = Some t →
  live_jobs (<[i := t']> l) + (if live_job t then 1 else 0) = live_jobs l + (if live_job t' then 1 else 0).
Proof.
  revert i. induction l as [|x l IH]; intros [|i] Hi; cbn in Hi; try discriminate Hi.
  - injection Hi as ->. unfold live_jobs. simpl. destruct (live_job t), (live_job t'); simpl; lia.
  - specialize (IH i Hi). unfold live_jobs in *. simpl. destruct (live_job x); simpl; lia.
Qed.

Lemma live_jobs_listeners (ls : list listener) (e : js_error) :
  live_jobs (map (λ l, TListener (on_error l e)) ls) = 0.
Proof. induction ls as [|l ls IH]; [reflexivity|exact IH]. Qed.

(** A thread moving on never makes more jobs live. *)
Lemma live_job_next (t : thread) (a : action) (k : reply → prog unit) (r : reply) :
  thread_prog t = Act a k →
  (if live_job (with_prog t (k r)) then 1 else 0) ≤ (if live_job t then 1 else 0).
Proof. intros Hp. destruct t as [p|p]; cbn in Hp; subst p; cbn; [destruct (k r) as [[]| |]|]; cbn; lia. Qed.

(** A crashed process does not step. *)
Lemma loop_acc_crashed (E : env) (st : loop) :
  l_crash st ≠ None → Acc (λ st' st, st -[E]-> st') st.
Proof. intros Hc. constructor. intros st' Hs. destruct Hs; congruence. Qed.

(** Every execution of the event loop is finite, from
    any configuration: the jobs, and the listeners an upload fault starts,
    all come to an end or the process crashes.  The measure: the number
    of live jobs (an emit turns one into a finished one and only adds
    listeners), then the threads' programs, each a finite tree. *)
Lemma loop_terminates (E : env) (st : loop) : Acc (λ st' st, st -[E]-> st') st.
Proof.
  remember (live_jobs (l_threads st)) as n eqn:Hn. revert st Hn.
  induction n as [n IHn] using (well_founded_induction lt_wf). intros st Hn.
  remember (l_threads st) as l eqn:Hl. revert st Hl Hn.
  induction (threads_next_wf l) as [l _ IHl]. intros st Hl Hn.
  constructor. intros st' Hs.
  destruct Hs as [st i t a k Hc Ht Hp|st i e Hc Hls Ht|st i e Hc Hls Ht|st i e Hc Ht].
  - pose proof (live_job_next t a k (perform E a (l_world st)).2 Hp) as Hle.
    set (t' := with_prog t (k (perform E a (l_world st)).2)) in *.
    rewrite <- Hl in Ht. pose proof (live_jobs_insert l i t t' Ht) as Hlj.
    destruct (decide (live_jobs (<[i := t']> l) < n)) as [Hlt|Hge].
    + apply (IHn _ Hlt). cbn. rewrite <- Hl. reflexivity.
    + apply (IHl (<[i := t']> l)).
      * exists i, t, t'. split; [exact Ht|split; [|reflexivity]].
        unfold t'. rewrite with_prog_prog, Hp. exists a, k, (perform E a (l_world st)).2. split; reflexivity.
      * cbn. rewrite <- Hl. reflexivity.
      * cbn. fold t'. subst n. lia.
  - subst l. apply (IHn (live_jobs (<[i := TJob (Ret ())]> (l_threads st))));
      [|cbn [l_threads]; rewrite live_jobs_app, live_jobs_listeners; lia].
    pose proof (live_jobs_insert _ _ _ (TJob (Ret ())) Ht) as Hlj. cbn in Hlj. subst n. lia.
  - apply loop_acc_crashed. cbn. congruence.
  - apply loop_acc_crashed. cbn. congruence.
Qed.

(** ** Every job calls back, in every complete execution *)

(** [p] calls back exactly once before it returns, unless it throws. *)
Inductive exactly_one_cb : prog unit → Prop :=
| ex_throw (e : js_error) : exactly_one_cb (Throw e)
| ex_quiet (a : action) (k : reply → prog unit) :
    is_callback a = false → (∀ r, exactly_one_cb (k r)) → exactly_one_cb (Act a k)
| ex_last (a : action) (k : reply → prog unit) :
    is_callback a = true → (∀ r, no_cb (k r)) → exactly_one_cb (Act a k).

(** [p] never returns: it ends by throwing. *)
Inductive never_ret : prog unit → Prop :=
| nr_throw (e : js_error) : never_ret (Throw e)
| nr_act (a : action) (k : reply → prog unit) : (∀ r, never_ret (k r)) → never_ret (Act a k).

Lemma exactly_one_cb_bind {A} (p : prog A) (f : A → prog unit) :
  no_cb p → (∀ x, exactly_one_cb (f x)) → exactly_one_cb (p ≫= f).
Proof. intros Hp Hf. induction Hp as [x|e|a k Ha Hk IH]; simpl; [apply Hf|constructor|]. by apply ex_quiet. Qed.

Lemma never_ret_bind {A} (p : prog A) (f : A → prog unit) :
  (∀ x, never_ret (f x)) → never_ret (p ≫= f).
Proof. intros Hf. induction p as [x|a k IH|e]; simpl; [apply Hf|constructor; apply IH|constructor]. Qed.

Lemma on_error_never_ret (l : listener) (e : js_error) : never_ret (on_error l e).
Proof. destruct l as [[t db] an]. unfold on_error. apply never_ret_bind. intros _. constructor. Qed.

Lemma backup_job_exactly_one `{DA : DumpAdapter} (c : src_config) (osTmp db : string) :
  da_rejects db = false → exactly_one_cb (backup_job c osTmp db).
Proof.
  intros Hr. unfold backup_job. rewrite Hr. apply ex_quiet; [reflexivity|]. intros r.
  apply exactly_one_cb_bind; [by apply acts_in_act_|]. intros _. unfold job_body.
  apply exactly_one_cb_bind; [apply job_stages_acts|]. intros err.
  apply exactly_one_cb_bind; [rewrite outcome_log_act; by apply acts_in_act_|]. intros _.
  apply exactly_one_cb_bind; [apply no_cb_mono_dump, job_cleanup_acts|]. intros _.
  apply ex_last; [reflexivity|]. intros _. constructor.
Qed.

(** A thread that has not returned can step. *)
Lemma thread_can_step (E : env) (st : loop) (i : nat) (t : thread) :
  l_crash st = None → l_threads st !! i = Some t → (∀ u, thread_prog t ≠ Ret u) →
  ∃ st', st -[E]-> st'.
Proof.
  intros Hc Ht Hr. destruct (step_fn E st i) as [st'|] eqn:Hs.
  - exists st'. by eapply step_fn_sound.
  - exfalso. unfold step_fn in Hs. rewrite Hc, Ht in Hs.
    destruct (thread_prog t) as [u|a k|e] eqn:Hp; [by eapply Hr| |].
    + by destruct (perform E a (l_world st)).
    + by destruct t, (l_listeners st).
Qed.

Definition has_listener (l : list thread) : Prop := ∃ j q, l !! j = Some (TListener q).

(** What job thread [i] may still do, given the callbacks [n] it made: call
    back once more, or never again; or it has returned without calling
    back because its name was rejected, or an upload fault started the
    listeners. *)
Definition job_ok (jobs : list (prog unit)) (l : list thread) (i n : nat) (p : prog unit) : Prop :=
  (n = 0 ∧ exactly_one_cb p) ∨ (n = 1 ∧ no_cb p) ∨
  (p = Ret () ∧ n = 0 ∧ (jobs !! i = Some (Ret ()) ∨ has_listener l)).

Definition live_inv (jobs : list (prog unit)) (st : loop) : Prop :=
  (∀ i, length (l_threads st) ≤ i → cb_count i (l_trace st) = 0) ∧
  (∀ i, i < length jobs → ∃ p, l_threads st !! i = Some (TJob p)) ∧
  (∀ i t, l_threads st !! i = Some t →
     match t with
     | TJob p => job_ok jobs (l_threads st) i (cb_count i (l_trace st)) p
     | TListener p => cb_count i (l_trace st) = 0 ∧ no_cb p ∧ never_ret p
     end).

Lemma has_listener_insert (l : list thread) (i : nat) (t : thread) (p : prog unit) :
  l !! i = Some t → has_listener l → has_listener (<[i := with_prog t p]> l).
Proof.
  intros Ht (j & q & Hj). destruct (decide (i = j)) as [<-|Hne].
  - rewrite Ht in Hj. injection Hj as ->. exists i, p. apply list_lookup_insert_eq.
    by eapply lookup_lt_Some.
  - exists j, q. by rewrite list_lookup_insert_ne.
Qed.

Lemma job_ok_mono (jobs : list (prog unit)) (l l' : list thread) (i n : nat) (p : prog unit) :
  (has_listener l → has_listener l') → job_ok jobs l i n p → job_ok jobs l' i n p.
Proof. intros Hl [H|[H|(? & ? & [H|H])]]; [left|right; left|right; right; auto..]; done. Qed.

Lemma live_inv_init (w : world) (jobs : list (prog unit)) :
  Forall (λ p, exactly_one_cb p ∨ p = Ret ()) jobs → live_inv jobs (init_loop w jobs).
Proof.
  intros Hj. split_and!; [done| |].
  - intros i Hi. cbn. destruct (lookup_lt_is_Some_2 jobs i Hi) as [p Hp].
    exists p. by rewrite list_lookup_fmap, Hp.
  - intros i t Ht. cbn in Ht. rewrite list_lookup_fmap in Ht.
    destruct (jobs !! i) as [p|] eqn:Hp; [|done]. injection Ht as <-.
    rewrite Forall_lookup in Hj. destruct (Hj i p Hp) as [He| ->].
    + by left.
    + right; right. split_and!; auto.
Qed.

(** Every step preserves the invariant. *)
Lemma live_inv_step (E : env) (jobs : list (prog unit)) (y z : loop) :
  live_inv jobs y → y -[E]-> z → live_inv jobs z.
Proof.
  intros (Hout & Hjob & Hin) Hs.
  destruct Hs as [st i t a k Hc Ht Hp|st i e Hc Hls Ht|st i e Hc Hls Ht|st i e Hc Ht];
    unfold live_inv; cbn [l_threads l_trace]; [| |by split_and!..].
  - pose proof (lookup_lt_Some _ _ _ Ht) as Hi.
    set (r := (perform E a (l_world st)).2).
    assert (has_listener (l_threads st) → has_listener (<[i := with_prog t (k r)]> (l_threads st)))
      as Hhl by (apply has_listener_insert, Ht).
    split_and!.
    + intros j Hj. rewrite length_insert in Hj.
      rewrite cb_count_snoc, Hout, bool_decide_false by lia. done.
    + intros j Hj. destruct (Hjob j Hj) as [p Hpj]. destruct (decide (i = j)) as [<-|Hne].
      * rewrite Ht in Hpj. injection Hpj as ->. exists (k r). by rewrite list_lookup_insert_eq.
      * exists p. by rewrite list_lookup_insert_ne.
    + intros j t' Hj. rewrite cb_count_snoc. destruct (decide (i = j)) as [<-|Hne].
      * rewrite list_lookup_insert_eq in Hj by done. injection Hj as <-.
        rewrite bool_decide_true by done. cbn [andb]. specialize (Hin i t Ht).
        destruct t as [p|p]; cbn in Hp |- *; subst p.
        -- destruct Hin as [[-> Ho]|[[-> Hn]|(Hr & _)]]; [|inversion Hn; subst|done].
           ++ inversion Ho as [|? ? Hq Hk|? ? Hq Hk]; subst; rewrite Hq.
              ** left. split; [done|apply Hk].
              ** right; left. split; [done|apply Hk].
           ++ match goal with Hq : is_callback a = false |- _ => rewrite Hq end.
              right; left. split; [done|]. auto.
        -- destruct Hin as (-> & Hn & Hr). inversion Hn; subst. inversion Hr; subst.
           match goal with Hq : is_callback a = false |- _ => rewrite Hq end. auto.
      * rewrite list_lookup_insert_ne in Hj by done. rewrite bool_decide_false by done.
        rewrite Nat.add_0_r. specialize (Hin j t' Hj). destruct t'; [|done].
        by eapply job_ok_mono.
  - pose proof (lookup_lt_Some _ _ _ Ht) as Hi.
    set (ls := map (λ l, TListener (on_error l e)) (l_listeners st)).
    assert (has_listener (<[i:=TJob (Ret ())]> (l_threads st) ++ ls)) as Hhl.
    { destruct (l_listeners st) as [|l0 ls0] eqn:Hl0; [done|].
      exists (length (<[i:=TJob (Ret ())]> (l_threads st))), (on_error l0 e).
      rewrite lookup_app_r, Nat.sub_diag by lia. unfold ls. rewrite ?Hl0. reflexivity. }
    split_and!.
    + intros j Hj. rewrite length_app, length_insert in Hj. apply Hout. lia.
    + intros j Hj. destruct (Hjob j Hj) as [p Hpj]. pose proof (lookup_lt_Some _ _ _ Hpj).
      rewrite lookup_app_l by (rewrite length_insert; lia).
      destruct (decide (i = j)) as [<-|Hne].
      * exists (Ret ()). by rewrite list_lookup_insert_eq.
      * exists p. by rewrite list_lookup_insert_ne.
    + intros j t' Hj. destruct (decide (j < length (l_threads st))) as [Hlt|Hge].
      * rewrite lookup_app_l in Hj by (rewrite length_insert; lia).
        destruct (decide (i = j)) as [<-|Hne].
        -- rewrite list_lookup_insert_eq in Hj by done. injection Hj as <-.
           specialize (Hin i _ Ht). cbn in Hin.
           destruct Hin as [[-> _]|[[-> _]|(Hr & _)]];
             [right; right; auto|right; left; split; [done|constructor]|discriminate Hr].
        -- rewrite list_lookup_insert_ne in Hj by done. specialize (Hin j t' Hj).
           destruct t'; [|done]. eapply job_ok_mono; [|exact Hin]. auto.
      * rewrite lookup_app_r in Hj by (rewrite length_insert; lia).
        apply list_elem_of_lookup_2, list_elem_of_In, in_map_iff in Hj as (l & <- & _).
        split_and!; [apply Hout; lia|apply on_error_no_cb|apply on_error_never_ret].
Qed.

Lemma live_inv_reach (E : env) (w : world) (jobs : list (prog unit)) (st : loop) :
  Forall (λ p, exactly_one_cb p ∨ p = Ret ()) jobs → init_loop w jobs -[E]->* st → live_inv jobs st.
Proof.
  intros Hj. apply (rtc_invariant _ (live_inv jobs)); [by apply live_inv_init|].
  intros y z Hy Hs. by eapply live_inv_step.
Qed.

Lemma launch_exactly_one `{DA : DumpAdapter} (c : src_config) (osTmp : string) :
  Forall (λ p, exactly_one_cb p ∨ p = Ret ()) (launch c osTmp).
Proof.
  apply Forall_forall. intros p (db & <- & _)%list_elem_of_In%in_map_iff.
  destruct (da_rejects db) eqn:Hr; [right; unfold backup_job; by rewrite Hr|].
  left. by apply backup_job_exactly_one.
Qed.

(** A configuration whose threads have all returned does not step. *)
Lemma loop_done_stuck (E : env) (st : loop) :
  Forall (λ t, thread_done t = true) (l_threads st) → ∀ st', ¬ st -[E]-> st'.
Proof.
  intros Hd st' Hs. rewrite Forall_lookup in Hd.
  destruct Hs as [st i t a k _ Ht Hp|st i e _ _ Ht|st i e _ _ Ht|st i e _ Ht];
    specialize (Hd _ _ Ht); unfold thread_done in Hd; cbn in Hd; [rewrite Hp in Hd|..]; discriminate Hd.
Qed.

(** C4. Liveness: in every complete execution of a call's jobs (no
    thread can step any more) in which the process has not crashed, every
    job whose name the adapter accepts has called the caller back exactly
    once.  With [loop_terminates], every execution can be completed; an
    upload fault is the only way to lose a callback, and it crashes the
    process. *)
Theorem loop_every_job_calls_back `{DA : DumpAdapter} (E : env) (c : src_config) (osTmp : string)
    (w : world) (st : loop) :
  init_loop w (launch c osTmp) -[E]->* st → l_crash st = None → (∀ st', ¬ st -[E]-> st') →
  ∀ i db, dbs_or_all c !! i = Some db → da_rejects db = false → cb_count i (l_trace st) = 1.
Proof.
  intros Hr Hc Hstuck i db Hdb Hrej.
  destruct (live_inv_reach E w _ st (launch_exactly_one c osTmp) Hr) as (_ & Hjob & Hin).
  assert (¬ has_listener (l_threads st)) as Hnl.
  { intros (j & q & Hq). destruct (Hin j _ Hq) as (_ & _ & Hnr).
    destruct (thread_can_step E st j _ Hc Hq) as [st' Hs]; [|exact (Hstuck st' Hs)].
    intros u Hu. cbn in Hu. subst q. inversion Hnr. }
  assert (launch c osTmp !! i = Some (backup_job c osTmp db)) as Hl.
  { unfold launch. by rewrite list_lookup_fmap, Hdb. }
  destruct (Hjob i (lookup_lt_Some _ _ _ Hl)) as [p Hp].
  assert (∃ u, p = Ret u) as [u ->].
  { destruct p as [u|a k|e]; [by exists u|..];
      destruct (thread_can_step E st i _ Hc Hp) as [st' Hs]; try (intros u Hu; discriminate Hu);
      destruct (Hstuck st' Hs). }
  specialize (Hin i _ Hp). destruct Hin as [[_ Ho]|[[-> _]|(_ & _ & [Hj|Hj])]]; [inversion Ho|done| |done].
  rewrite Hl in Hj. injection Hj as Hj. unfold backup_job in Hj. rewrite Hrej in Hj. discriminate Hj.
Qed.

(** The two jobs take turns for three actions each, then run to their
    ends. *)
Definition sched_done : list nat := repeat 0 3 ++ repeat 1 3 ++ repeat 0 40 ++ repeat 1 40.

Example loop_every_job_calls_back_witness :
  cb_count 0 (l_trace (run_sched demo_E loop_two sched_done)) = 1.
Proof.
  apply (loop_every_job_calls_back (DA := mongo_adapter) demo_E cfg_two "/tmp" (demo_world [] demo_s3config)
           (run_sched demo_E loop_two sched_done) (run_sched_reach _ _ _) ltac:(vm_compute; reflexivity)
           (loop_done_stuck demo_E (run_sched demo_E loop_two sched_done) ltac:(decide_by_compute))
           0 "app"); reflexivity.
Defined.

(** [logs] dumps and compresses, then [app] runs until its upload throws
    [EPIPE]. *)
Definition sched_fault : list nat := repeat 1 9 ++ repeat 0 15.
Definition st_fault : loop := run_sched E_epipe loop_two sched_fault.

(** What thread [i] has still to run. *)
Definition thread_prog_at (st : loop) (i : nat) : prog unit :=
  default (Ret ()) (thread_prog <$> l_threads st !! i).

Example fault_cleans_other_job_witness :
  ∃ st', st_fault -[E_epipe]->* st' ∧ l_crash st' = Some (S3Failed "EPIPE") ∧
    (∀ st'', ¬ st' -[E_epipe]-> st'') ∧
    l_threads st' !! 1 = Some (TJob (thread_prog_at st_fault 1)) ∧
    cb_count 1 (l_trace st') = cb_count 1 (l_trace st_fault) ∧
    (path_join ["/tmp/mongodb_s3_backup"; "logs"] ∉ w_fs (l_world st')) ∧
    (path_join ["/tmp/mongodb_s3_backup"; "logs_2023_11_14_1700000000000.tar.gz"] ∉ w_fs (l_world st')) ∧
    (path_join ["/tmp/mongodb_s3_backup"; "logs"] ∈ w_fs (l_world st_fault) →
     ∀ p, under (path_join ["/tmp/mongodb_s3_backup"; "logs"]) p = true → p ∉ w_fs (l_world st')).
Proof.
  apply (fault_cleans_other_job (DA := mongo_adapter) E_epipe cfg_two "/tmp" (demo_world [] demo_s3config)
           st_fault 0 1 (S3Failed "EPIPE") (thread_prog_at st_fault 1) "/tmp/mongodb_s3_backup" "logs"
           "logs_2023_11_14_1700000000000.tar.gz");
    first [apply run_sched_reach | done | vm_compute; reflexivity | decide_by_compute].
Defined.
